(** * read_arch.c: the FPGA architecture-description loader of VPR

    A shallow embedding of [src/vpr/read_arch.c]: the two-pass reader of
    the architecture file ([countpass], [read_arch] and the per-line
    readers), the validator [check_arch] and the grid builder
    ([init_arch], [fill_arch]).

    - C [int] values are [Z]; an [int] operation whose mathematical result
      leaves the 32-bit range is undefined behaviour in C and yields the
      outcome [Undef] here.
    - C [float] and [double] values are IEEE-754 binary32 and binary64
      numbers, represented with the Standard Library's [spec_float] and
      rounded to nearest-even; every expression is evaluated in the
      precision of its C type.
    - [exit (1)] is the outcome [Exit], which carries everything printed
      so far. *)

From Stdlib Require Import ZArith Bool Ascii String List Lia.
From Stdlib Require Import Floats.SpecFloat.
From stdpp Require Import base option list list_numbers strings gmap.

Open Scope string_scope.
Open Scope list_scope.
Open Scope Z_scope.

(** ** Machine integers *)

Definition INT_MAX : Z := 2147483647.
Definition INT_MIN : Z := -2147483648.

Definition in_int (z : Z) : bool := (INT_MIN <=? z) && (z <=? INT_MAX).

(** ** Floating point *)

Module Float.

(** [float] of the C source: binary32. *)
Definition prec32 : Z := 24.
Definition emax32 : Z := 128.
(** [double] of the C source: binary64. *)
Definition prec64 : Z := 53.
Definition emax64 : Z := 1024.

Definition is_nan (x : spec_float) : bool :=
  match x with S754_nan => true | _ => false end.

(** C comparison operators; every one of them is false on a NaN
    operand, except [!=], which is the negation of [==]. *)
Definition lt (x y : spec_float) : bool := SFltb x y.
Definition le (x y : spec_float) : bool := SFleb x y.
Definition gt (x y : spec_float) : bool := SFltb y x.
Definition eq (x y : spec_float) : bool := SFeqb x y.
Definition ne (x y : spec_float) : bool := negb (SFeqb x y).

(** Conversion of a [double] to [float] (one rounding). *)
Definition to_float (x : spec_float) : spec_float :=
  match x with
  | S754_finite s m e => binary_round prec32 emax32 s m e
  | _ => x
  end.

(** Conversion of a [float] to [double] (exact). *)
Definition to_double (x : spec_float) : spec_float :=
  match x with
  | S754_finite s m e => binary_round prec64 emax64 s m e
  | _ => x
  end.

(** Conversion of an [int] to [float] and to [double]. *)
Definition float_of_int (z : Z) : spec_float :=
  binary_normalize prec32 emax32 z 0 false.
Definition double_of_int (z : Z) : spec_float :=
  binary_normalize prec64 emax64 z 0 false.

(** The value [(-1)^s * m * 10^e10] rounded once to the format
    [(prec, emax)]. *)
Definition of_decimal (prec emax : Z) (s : bool) (m : Z) (e10 : Z)
  : spec_float :=
  match m with
  | Zpos p =>
      if 0 <=? e10
      then binary_round prec emax s (p * Z.to_pos (10 ^ e10))%positive 0
      else let '(q, e, l) :=
             SFdiv_core_binary prec emax (Zpos p) 0 (10 ^ (- e10)) 0 in
           binary_round_aux prec emax s q e l
  | _ => S754_zero s
  end.

(** A [double] literal of the source. *)
Definition dlit (s : bool) (m e10 : Z) : spec_float :=
  of_decimal prec64 emax64 s m e10.
(** A [double] literal passed for a [float] parameter. *)
Definition flit (s : bool) (m e10 : Z) : spec_float :=
  to_float (dlit s m e10).

(** [ceil] of math.h on a [double]: the least integral value not below
    the argument, as an integer for the finite case. *)
Definition ceilZ (s : bool) (m : positive) (e : Z) : Z :=
  match e with
  | Zneg k =>
      if s then - (Zpos m / 2 ^ Zpos k)
      else - ((- Zpos m) / 2 ^ Zpos k)
  | _ => (if s then -1 else 1) * (Zpos m * 2 ^ e)
  end.

Definition ceil (x : spec_float) : spec_float :=
  match x with
  | S754_finite s m e => binary_normalize prec64 emax64 (ceilZ s m e) 0 s
  | _ => x
  end.

(** The integral part of a finite value (truncation toward zero). *)
Definition truncZ (x : spec_float) : option Z :=
  match x with
  | S754_zero _ => Some 0
  | S754_finite s m e =>
      let a := match e with
               | Zneg k => Zpos m / 2 ^ Zpos k
               | _ => Zpos m * 2 ^ e
               end in
      Some (if s then - a else a)
  | _ => None
  end.

(** The cast [(int) x]: defined when the truncated value is an [int]. *)
Definition to_int (x : spec_float) : option Z :=
  match truncZ x with
  | Some z => if in_int z then Some z else None
  | None => None
  end.

End Float.

(** ** The C library's number readers *)

Definition isspace (c : ascii) : bool :=
  let n := nat_of_ascii c in
  (n =? 32)%nat || ((9 <=? n)%nat && (n <=? 13)%nat).

Definition digit_val (c : ascii) : option Z :=
  let n := Z.of_nat (nat_of_ascii c) in
  if (48 <=? n) && (n <=? 57) then Some (n - 48) else None.

Fixpoint skip_space (s : string) : string :=
  match s with
  | String c s' => if isspace c then skip_space s' else s
  | EmptyString => s
  end.

(** Reads the longest run of decimal digits at the head of [s]: the value
    accumulated onto [acc], the number of digits read and the rest. *)
Fixpoint read_digits (s : string) (acc : Z) (n : Z) : Z * Z * string :=
  match s with
  | String c s' =>
      match digit_val c with
      | Some d => read_digits s' (10 * acc + d) (n + 1)
      | None => (acc, n, s)
      end
  | EmptyString => (acc, n, s)
  end.

Definition read_sign (s : string) : bool * string :=
  match s with
  | String "-" s' => (true, s')
  | String "+" s' => (false, s')
  | _ => (false, s)
  end.

(** [atoi]: optional white space, optional sign, decimal digits; 0 when
    there is no digit.  A value outside [int] is undefined behaviour:
    [None]. *)
Definition atoi (s : string) : option Z :=
  let '(neg, s1) := read_sign (skip_space s) in
  let '(v, _, _) := read_digits s1 0 0 in
  let z := if neg then - v else v in
  if in_int z then Some z else None.

(** [atof] on decimal floating constants: optional white space, optional
    sign, digits with an optional point, optional exponent part; 0.0 when
    no number can be read.  The result is the [double] nearest to the
    decimal value. *)
Definition atof_decimal (s : string) : spec_float :=
  let '(neg, s1) := read_sign (skip_space s) in
  let '(ip, ni, s2) := read_digits s1 0 0 in
  let '(m, nf, s3) :=
    match s2 with
    | String "." s2' => read_digits s2' ip 0
    | _ => (ip, 0, s2)
    end in
  if ni + nf =? 0 then S754_zero false
  else
    let ex :=
      match s3 with
      | String c s3' =>
          if (Ascii.eqb c "e" || Ascii.eqb c "E")%bool then
            let '(eneg, s4) := read_sign s3' in
            let '(ev, ne, _) := read_digits s4 0 0 in
            if ne =? 0 then 0 else if eneg then - ev else ev
          else 0
      | EmptyString => 0
      end in
    Float.of_decimal Float.prec64 Float.emax64 neg m (ex - nf).

(** ** Data of pr.h and ext.h

    The two headers are not among the sources.  The enumerations and
    structures below have the members that read_arch.c names, of the
    kinds the specification's data model gives. *)

(** Modelled from the spec: the enumerations of pr.h. *)
Inductive e_route_type := GLOBAL | DETAILED.
Inductive e_chan_type := UNIFORM | GAUSSIAN | PULSE | DELTA.
Inductive e_Fc_type := ABSOLUTE | FRACTIONAL.
Inductive e_switch_block_type := SUBSET | WILTON | UNIVERSAL.
(** The pin type of a class: [OPEN] flags a class not set yet. *)
Inductive e_pin_type := OPEN | DRIVER | RECEIVER.
Inductive e_block_type := CLB | IO | ILLEGAL.

Global Instance e_route_type_eq_dec : EqDecision e_route_type.
Proof. solve_decision. Defined.
Global Instance e_chan_type_eq_dec : EqDecision e_chan_type.
Proof. solve_decision. Defined.
Global Instance e_Fc_type_eq_dec : EqDecision e_Fc_type.
Proof. solve_decision. Defined.
Global Instance e_pin_type_eq_dec : EqDecision e_pin_type.
Proof. solve_decision. Defined.

(** Modelled from the spec: [struct s_chan] of pr.h, a channel-width
    distribution. *)
Record s_chan := mk_chan {
  chan_type : e_chan_type;
  chan_peak : spec_float;
  chan_width : spec_float;
  chan_xpeak : spec_float;
  chan_dc : spec_float }.

(** Modelled from the spec: [struct s_class] of pr.h.  [pinlist] is an
    array whose size was fixed by the count pass; [None] is a slot not
    written yet. *)
Record s_class := mk_class {
  class_type : e_pin_type;
  num_pins : Z;
  pinlist : list (option Z) }.

(** Modelled from the spec: [struct s_det_routing_arch] of pr.h. *)
Record s_det_routing_arch := mk_det {
  Fc_type : e_Fc_type;
  switch_block_type : e_switch_block_type;
  Fc_output : spec_float;
  Fc_input : spec_float;
  Fc_pad : spec_float }.

(** Modelled from the spec: [struct s_clb] of pr.h, a grid cell, with
    the two members [fill_arch] writes.  [io_blocks] points into the
    pad-slot pool allocated by [fill_arch]; it is kept as the offset (in
    slots) from the start of the pool.  [None] is a field not written
    since the allocation. *)
Record s_clb := mk_clb {
  clb_type : option e_block_type;
  io_blocks : option Z }.

(** ** What the program prints

    One constructor per [printf] of the source, with its arguments. *)
Inductive message :=
  (* countpass *)
  | Err_class_index_not_used (i : Z)
  | Err_class_indices_not_consecutive
  (* get_class *)
  | Err_in_get_class (line : Z)
  | Expected_class_keyword
  | Expected_class_number
  | Expected_class_number_ge_0 (class : Z)
  (* get_pin *)
  | Err_in_get_pin (line : Z)
  | Class_both_input_and_output (class : Z)
  | Err_pin_no_locations (line : Z)
  | Err_bad_pin_location (line : Z)
  (* get_Fc_type, get_switch_block_type *)
  | Err_missing_Fc_type (line : Z)
  | Err_bad_Fc_type (value : string) (line : Z)
  | Err_missing_switch_block_type (line : Z)
  | Err_bad_switch_block_type (value : string) (line : Z)
  (* get_int, get_float, get_chan *)
  | Err_missing_value (name : string) (line : Z)
  | Err_bad_value (name : string) (val : Z) (line : Z)
  | Err_extra_characters (line : Z)
  | Err_bad_value_parsing (name : string) (val : spec_float) (line : Z)
  | Err_distribution_keyword_unknown (name : string) (keyword : string)
  | Err_extra_value (name : string) (line : Z)
  (* check_arch *)
  | Err_not_set (name : string) (file : string)
  | Err_set_times (name : string) (count : Z) (file : string)
  | Err_clb_has (file : string) (count : Z) (name : string)
  | Err_channels_not_equal_width
  | Err_Fc_absolute
  | Err_Fc_fractional
  (* init_arch *)
  | Err_user_size_too_small
  | Err_one_valid_location
  | Err_nx_ny_limit (nx ny : Z).

(** ** The program state: the globals the file reads and writes *)

Record globals := mk_globals {
  (* static to read_arch.c *)
  isread : list Z;
  (* the scanner of util.c: current line number, and the tokens of the
     current line that [my_strtok] has not returned yet *)
  linenum : Z;
  strtok_rest : list string;
  (* standard output *)
  stdout : list message;
  (* architecture *)
  io_rat : Z;
  chan_width_io : spec_float;
  chan_x_dist : s_chan;
  chan_y_dist : s_chan;
  num_class : Z;
  pins_per_clb : Z;
  class_inf : list s_class;
  clb_pin_class : list (option Z);
  pinloc : list (list Z);
  max_subblocks_per_block : Z;
  subblock_lut_size : Z;
  det_routing_arch : s_det_routing_arch;
  (* circuit and grid *)
  num_clbs : Z;
  num_p_inputs : Z;
  num_p_outputs : Z;
  nx : Z;
  ny : Z;
  clb : gmap (Z * Z) s_clb;
  chan_width_x : list (option Z);
  chan_width_y : list (option Z) }.

(** Assignments to one global. *)
Definition set_isread v (g : globals) : globals :=
  mk_globals v (linenum g) (strtok_rest g) (stdout g) (io_rat g)
    (chan_width_io g) (chan_x_dist g) (chan_y_dist g) (num_class g)
    (pins_per_clb g) (class_inf g) (clb_pin_class g) (pinloc g)
    (max_subblocks_per_block g) (subblock_lut_size g) (det_routing_arch g)
    (num_clbs g) (num_p_inputs g) (num_p_outputs g) (nx g) (ny g) (clb g)
    (chan_width_x g) (chan_width_y g).
Definition set_linenum v (g : globals) : globals :=
  mk_globals (isread g) v (strtok_rest g) (stdout g) (io_rat g)
    (chan_width_io g) (chan_x_dist g) (chan_y_dist g) (num_class g)
    (pins_per_clb g) (class_inf g) (clb_pin_class g) (pinloc g)
    (max_subblocks_per_block g) (subblock_lut_size g) (det_routing_arch g)
    (num_clbs g) (num_p_inputs g) (num_p_outputs g) (nx g) (ny g) (clb g)
    (chan_width_x g) (chan_width_y g).
Definition set_strtok_rest v (g : globals) : globals :=
  mk_globals (isread g) (linenum g) v (stdout g) (io_rat g)
    (chan_width_io g) (chan_x_dist g) (chan_y_dist g) (num_class g)
    (pins_per_clb g) (class_inf g) (clb_pin_class g) (pinloc g)
    (max_subblocks_per_block g) (subblock_lut_size g) (det_routing_arch g)
    (num_clbs g) (num_p_inputs g) (num_p_outputs g) (nx g) (ny g) (clb g)
    (chan_width_x g) (chan_width_y g).
Definition set_stdout v (g : globals) : globals :=
  mk_globals (isread g) (linenum g) (strtok_rest g) v (io_rat g)
    (chan_width_io g) (chan_x_dist g) (chan_y_dist g) (num_class g)
    (pins_per_clb g) (class_inf g) (clb_pin_class g) (pinloc g)
    (max_subblocks_per_block g) (subblock_lut_size g) (det_routing_arch g)
    (num_clbs g) (num_p_inputs g) (num_p_outputs g) (nx g) (ny g) (clb g)
    (chan_width_x g) (chan_width_y g).
Definition set_io_rat v (g : globals) : globals :=
  mk_globals (isread g) (linenum g) (strtok_rest g) (stdout g) v
    (chan_width_io g) (chan_x_dist g) (chan_y_dist g) (num_class g)
    (pins_per_clb g) (class_inf g) (clb_pin_class g) (pinloc g)
    (max_subblocks_per_block g) (subblock_lut_size g) (det_routing_arch g)
    (num_clbs g) (num_p_inputs g) (num_p_outputs g) (nx g) (ny g) (clb g)
    (chan_width_x g) (chan_width_y g).
Definition set_chan_width_io v (g : globals) : globals :=
  mk_globals (isread g) (linenum g) (strtok_rest g) (stdout g) (io_rat g) v
    (chan_x_dist g) (chan_y_dist g) (num_class g) (pins_per_clb g)
    (class_inf g) (clb_pin_class g) (pinloc g) (max_subblocks_per_block g)
    (subblock_lut_size g) (det_routing_arch g) (num_clbs g) (num_p_inputs g)
    (num_p_outputs g) (nx g) (ny g) (clb g) (chan_width_x g)
    (chan_width_y g).
Definition set_chan_x_dist v (g : globals) : globals :=
  mk_globals (isread g) (linenum g) (strtok_rest g) (stdout g) (io_rat g)
    (chan_width_io g) v (chan_y_dist g) (num_class g) (pins_per_clb g)
    (class_inf g) (clb_pin_class g) (pinloc g) (max_subblocks_per_block g)
    (subblock_lut_size g) (det_routing_arch g) (num_clbs g) (num_p_inputs g)
    (num_p_outputs g) (nx g) (ny g) (clb g) (chan_width_x g)
    (chan_width_y g).
Definition set_chan_y_dist v (g : globals) : globals :=
  mk_globals (isread g) (linenum g) (strtok_rest g) (stdout g) (io_rat g)
    (chan_width_io g) (chan_x_dist g) v (num_class g) (pins_per_clb g)
    (class_inf g) (clb_pin_class g) (pinloc g) (max_subblocks_per_block g)
    (subblock_lut_size g) (det_routing_arch g) (num_clbs g) (num_p_inputs g)
    (num_p_outputs g) (nx g) (ny g) (clb g) (chan_width_x g)
    (chan_width_y g).
Definition set_num_class v (g : globals) : globals :=
  mk_globals (isread g) (linenum g) (strtok_rest g) (stdout g) (io_rat g)
    (chan_width_io g) (chan_x_dist g) (chan_y_dist g) v (pins_per_clb g)
    (class_inf g) (clb_pin_class g) (pinloc g) (max_subblocks_per_block g)
    (subblock_lut_size g) (det_routing_arch g) (num_clbs g) (num_p_inputs g)
    (num_p_outputs g) (nx g) (ny g) (clb g) (chan_width_x g)
    (chan_width_y g).
Definition set_pins_per_clb v (g : globals) : globals :=
  mk_globals (isread g) (linenum g) (strtok_rest g) (stdout g) (io_rat g)
    (chan_width_io g) (chan_x_dist g) (chan_y_dist g) (num_class g) v
    (class_inf g) (clb_pin_class g) (pinloc g) (max_subblocks_per_block g)
    (subblock_lut_size g) (det_routing_arch g) (num_clbs g) (num_p_inputs g)
    (num_p_outputs g) (nx g) (ny g) (clb g) (chan_width_x g)
    (chan_width_y g).
Definition set_class_inf v (g : globals) : globals :=
  mk_globals (isread g) (linenum g) (strtok_rest g) (stdout g) (io_rat g)
    (chan_width_io g) (chan_x_dist g) (chan_y_dist g) (num_class g)
    (pins_per_clb g) v (clb_pin_class g) (pinloc g)
    (max_subblocks_per_block g) (subblock_lut_size g) (det_routing_arch g)
    (num_clbs g) (num_p_inputs g) (num_p_outputs g) (nx g) (ny g) (clb g)
    (chan_width_x g) (chan_width_y g).
Definition set_clb_pin_class v (g : globals) : globals :=
  mk_globals (isread g) (linenum g) (strtok_rest g) (stdout g) (io_rat g)
    (chan_width_io g) (chan_x_dist g) (chan_y_dist g) (num_class g)
    (pins_per_clb g) (class_inf g) v (pinloc g) (max_subblocks_per_block g)
    (subblock_lut_size g) (det_routing_arch g) (num_clbs g) (num_p_inputs g)
    (num_p_outputs g) (nx g) (ny g) (clb g) (chan_width_x g)
    (chan_width_y g).
Definition set_pinloc v (g : globals) : globals :=
  mk_globals (isread g) (linenum g) (strtok_rest g) (stdout g) (io_rat g)
    (chan_width_io g) (chan_x_dist g) (chan_y_dist g) (num_class g)
    (pins_per_clb g) (class_inf g) (clb_pin_class g) v
    (max_subblocks_per_block g) (subblock_lut_size g) (det_routing_arch g)
    (num_clbs g) (num_p_inputs g) (num_p_outputs g) (nx g) (ny g) (clb g)
    (chan_width_x g) (chan_width_y g).
Definition set_max_subblocks_per_block v (g : globals) : globals :=
  mk_globals (isread g) (linenum g) (strtok_rest g) (stdout g) (io_rat g)
    (chan_width_io g) (chan_x_dist g) (chan_y_dist g) (num_class g)
    (pins_per_clb g) (class_inf g) (clb_pin_class g) (pinloc g) v
    (subblock_lut_size g) (det_routing_arch g) (num_clbs g) (num_p_inputs g)
    (num_p_outputs g) (nx g) (ny g) (clb g) (chan_width_x g)
    (chan_width_y g).
Definition set_subblock_lut_size v (g : globals) : globals :=
  mk_globals (isread g) (linenum g) (strtok_rest g) (stdout g) (io_rat g)
    (chan_width_io g) (chan_x_dist g) (chan_y_dist g) (num_class g)
    (pins_per_clb g) (class_inf g) (clb_pin_class g) (pinloc g)
    (max_subblocks_per_block g) v (det_routing_arch g) (num_clbs g)
    (num_p_inputs g) (num_p_outputs g) (nx g) (ny g) (clb g)
    (chan_width_x g) (chan_width_y g).
Definition set_det_routing_arch v (g : globals) : globals :=
  mk_globals (isread g) (linenum g) (strtok_rest g) (stdout g) (io_rat g)
    (chan_width_io g) (chan_x_dist g) (chan_y_dist g) (num_class g)
    (pins_per_clb g) (class_inf g) (clb_pin_class g) (pinloc g)
    (max_subblocks_per_block g) (subblock_lut_size g) v (num_clbs g)
    (num_p_inputs g) (num_p_outputs g) (nx g) (ny g) (clb g)
    (chan_width_x g) (chan_width_y g).
Definition set_nx v (g : globals) : globals :=
  mk_globals (isread g) (linenum g) (strtok_rest g) (stdout g) (io_rat g)
    (chan_width_io g) (chan_x_dist g) (chan_y_dist g) (num_class g)
    (pins_per_clb g) (class_inf g) (clb_pin_class g) (pinloc g)
    (max_subblocks_per_block g) (subblock_lut_size g) (det_routing_arch g)
    (num_clbs g) (num_p_inputs g) (num_p_outputs g) v (ny g) (clb g)
    (chan_width_x g) (chan_width_y g).
Definition set_ny v (g : globals) : globals :=
  mk_globals (isread g) (linenum g) (strtok_rest g) (stdout g) (io_rat g)
    (chan_width_io g) (chan_x_dist g) (chan_y_dist g) (num_class g)
    (pins_per_clb g) (class_inf g) (clb_pin_class g) (pinloc g)
    (max_subblocks_per_block g) (subblock_lut_size g) (det_routing_arch g)
    (num_clbs g) (num_p_inputs g) (num_p_outputs g) (nx g) v (clb g)
    (chan_width_x g) (chan_width_y g).
Definition set_clb v (g : globals) : globals :=
  mk_globals (isread g) (linenum g) (strtok_rest g) (stdout g) (io_rat g)
    (chan_width_io g) (chan_x_dist g) (chan_y_dist g) (num_class g)
    (pins_per_clb g) (class_inf g) (clb_pin_class g) (pinloc g)
    (max_subblocks_per_block g) (subblock_lut_size g) (det_routing_arch g)
    (num_clbs g) (num_p_inputs g) (num_p_outputs g) (nx g) (ny g) v
    (chan_width_x g) (chan_width_y g).
Definition set_chan_width_x v (g : globals) : globals :=
  mk_globals (isread g) (linenum g) (strtok_rest g) (stdout g) (io_rat g)
    (chan_width_io g) (chan_x_dist g) (chan_y_dist g) (num_class g)
    (pins_per_clb g) (class_inf g) (clb_pin_class g) (pinloc g)
    (max_subblocks_per_block g) (subblock_lut_size g) (det_routing_arch g)
    (num_clbs g) (num_p_inputs g) (num_p_outputs g) (nx g) (ny g) (clb g) v
    (chan_width_y g).
Definition set_chan_width_y v (g : globals) : globals :=
  mk_globals (isread g) (linenum g) (strtok_rest g) (stdout g) (io_rat g)
    (chan_width_io g) (chan_x_dist g) (chan_y_dist g) (num_class g)
    (pins_per_clb g) (class_inf g) (clb_pin_class g) (pinloc g)
    (max_subblocks_per_block g) (subblock_lut_size g) (det_routing_arch g)
    (num_clbs g) (num_p_inputs g) (num_p_outputs g) (nx g) (ny g) (clb g)
    (chan_width_x g) v.

Definition set_chan_type v (c : s_chan) : s_chan :=
  mk_chan v (chan_peak c) (chan_width c) (chan_xpeak c) (chan_dc c).
Definition set_chan_peak v (c : s_chan) : s_chan :=
  mk_chan (chan_type c) v (chan_width c) (chan_xpeak c) (chan_dc c).
Definition set_chan_width v (c : s_chan) : s_chan :=
  mk_chan (chan_type c) (chan_peak c) v (chan_xpeak c) (chan_dc c).
Definition set_chan_xpeak v (c : s_chan) : s_chan :=
  mk_chan (chan_type c) (chan_peak c) (chan_width c) v (chan_dc c).
Definition set_chan_dc v (c : s_chan) : s_chan :=
  mk_chan (chan_type c) (chan_peak c) (chan_width c) (chan_xpeak c) v.

Definition set_Fc_type v (d : s_det_routing_arch) : s_det_routing_arch :=
  mk_det v (switch_block_type d) (Fc_output d) (Fc_input d) (Fc_pad d).
Definition set_switch_block_type v (d : s_det_routing_arch)
  : s_det_routing_arch :=
  mk_det (Fc_type d) v (Fc_output d) (Fc_input d) (Fc_pad d).
Definition set_Fc_output v (d : s_det_routing_arch) : s_det_routing_arch :=
  mk_det (Fc_type d) (switch_block_type d) v (Fc_input d) (Fc_pad d).
Definition set_Fc_input v (d : s_det_routing_arch) : s_det_routing_arch :=
  mk_det (Fc_type d) (switch_block_type d) (Fc_output d) v (Fc_pad d).
Definition set_Fc_pad v (d : s_det_routing_arch) : s_det_routing_arch :=
  mk_det (Fc_type d) (switch_block_type d) (Fc_output d) (Fc_input d) v.

(** ** Outcomes and the monad of the program *)

Inductive result (A : Type) : Type :=
  | Ok (a : A) (g : globals)       (* returned [a], globals now [g] *)
  | Exit (out : list message)      (* [exit (1)] after printing [out] *)
  | Undef.                         (* undefined behaviour *)
Arguments Ok {A} a g.
Arguments Exit {A} out.
Arguments Undef {A}.

Definition M (A : Type) : Type := globals -> result A.

Definition ret {A} (a : A) : M A := fun g => Ok a g.
Definition bind {A B} (m : M A) (k : A -> M B) : M B :=
  fun g => match m g with
           | Ok a g' => k a g'
           | Exit out => Exit out
           | Undef => Undef
           end.

Declare Scope prog_scope.
Delimit Scope prog_scope with prog.
Bind Scope prog_scope with M.
Notation "x <- c ;; k" := (bind c (fun x => k))
  (at level 100, c at next level, right associativity) : prog_scope.
Notation "c ;; k" := (bind c (fun _ => k))
  (at level 100, right associativity) : prog_scope.
Open Scope prog_scope.

Definition gets {A} (f : globals -> A) : M A := fun g => Ok (f g) g.
Definition modify (f : globals -> globals) : M unit := fun g => Ok tt (f g).
Definition printf (m : message) : M unit :=
  modify (fun g => set_stdout (stdout g ++ [m]) g).
Definition exit {A} : M A := fun g => Exit (stdout g).
Definition undef {A} : M A := fun _ => Undef.

(** The result of an [int] operation. *)
Definition int (z : Z) : M Z := if in_int z then ret z else undef.

(** [for (i = lo; i < hi; i++) body] for a body that assigns neither
    [i] nor the bound. *)
Fixpoint for_loop (n : nat) (i : Z) (body : Z -> M unit) : M unit :=
  match n with
  | O => ret tt
  | S n' => body i ;; for_loop n' (i + 1) body
  end.
Definition for_range (lo hi : Z) (body : Z -> M unit) : M unit :=
  for_loop (Z.to_nat (hi - lo)) lo body.

(** The same loop with a local variable that the body updates. *)
Fixpoint for_fold {A} (n : nat) (i : Z) (body : Z -> A -> M A) (a : A)
  : M A :=
  match n with
  | O => ret a
  | S n' => a' <- body i a ;; for_fold n' (i + 1) body a'
  end.

(** ** The token stream

    The architecture file is the list of its logical lines, each line the
    list of its words, comments stripped and continuation lines joined; an
    empty or comment-only line is [[]]. *)

(** Modelled from the spec: [my_fgets] of util.c, which is not among the
    sources.  It yields the next logical line, here [line], and counts it
    in [linenum]. *)
Definition my_fgets (line : list string) : M unit :=
  modify (fun g => set_strtok_rest line (set_linenum (linenum g + 1) g)).

(** Modelled from the spec: [my_strtok] of util.c, which is not among the
    sources.  It yields the next word of the current line, or NULL at the
    end of the line. *)
Definition my_strtok : M (option string) :=
  fun g => match strtok_rest g with
           | [] => Ok None g
           | t :: r => Ok (Some t) (set_strtok_rest r g)
           end.

(** [ptr = my_strtok (NULL, ...);
    while (ptr != NULL) ptr = my_strtok (NULL, ...);]
    reads the current line to its end. *)
Definition skip_to_end_of_line : M unit := modify (set_strtok_rest []).

Definition strcmp_eq (a b : string) : bool := String.eqb a b.

(** ** read_arch.c *)

Definition NUMINP : Z := 13.
Definition NUM_DETAILED : Z := 5.

Definition names : list string :=
  ["io_rat"; "chan_width_x"; "chan_width_y"; "chan_width_io"; "outpin";
   "inpin"; "subblocks_per_cluster"; "subblock_lut_size"; "Fc_output";
   "Fc_input"; "Fc_pad"; "Fc_type"; "switch_block_type"].

(** [names[i]] and [isread[i]], for [0 <= i < NUMINP]. *)
Definition name (i : nat) : string := nth i names "".

Definition isread_at (i : nat) : M Z :=
  fun g => match isread g !! i with
           | Some v => Ok v g
           | None => Undef
           end.

(** [isread[i]++] *)
Definition incr_isread (i : nat) : M unit :=
  v <- isread_at i ;;
  v' <- int (v + 1) ;;
  modify (fun g => set_isread (<[i := v']> (isread g)) g).

(** *** get_class *)

Definition get_class : M Z :=
  ptr <- my_strtok ;;
  match ptr with
  | None =>
      ln <- gets linenum ;;
      printf (Err_in_get_class ln) ;; printf Expected_class_keyword ;; exit
  | Some p =>
      if negb (strcmp_eq p "class:") then
        ln <- gets linenum ;;
        printf (Err_in_get_class ln) ;; printf Expected_class_keyword ;; exit
      else
        ptr <- my_strtok ;;
        match ptr with
        | None =>
            ln <- gets linenum ;;
            printf (Err_in_get_class ln) ;; printf Expected_class_number ;;
            exit
        | Some p =>
            match atoi p with
            | None => undef
            | Some class =>
                if class <? 0 then
                  ln <- gets linenum ;;
                  printf (Err_in_get_class ln) ;;
                  printf (Expected_class_number_ge_0 class) ;; exit
                else ret class
            end
        end
  end.

(** *** countpass *)

(** One iteration of the scanning loop; [pins_per_class] is the local
    array of the function. *)
Definition countpass_line (line : list string) (pins_per_class : list Z)
  : M (list Z) :=
  my_fgets line ;;
  ptr <- my_strtok ;;
  match ptr with
  | None => ret pins_per_class
  | Some p =>
      ppc <-
        (if strcmp_eq p "inpin" || strcmp_eq p "outpin" then
           class <- get_class ;;
           nc <- gets num_class ;;
           ppc1 <-
             (if class >=? nc then
                nc' <- int (class + 1) ;;
                modify (set_num_class nc') ;;
                ret (pins_per_class ++ replicate (Z.to_nat (nc' - nc)) 0)
              else ret pins_per_class) ;;
           match ppc1 !! Z.to_nat class with
           | Some n =>
               n' <- int (n + 1) ;;
               ret (<[Z.to_nat class := n']> ppc1)
           | None => undef
           end
         else ret pins_per_class) ;;
      skip_to_end_of_line ;;
      ret ppc
  end.

Fixpoint countpass_scan (file : list (list string)) (pins_per_class : list Z)
  : M (list Z) :=
  match file with
  | [] => ret pins_per_class
  | line :: file' =>
      ppc <- countpass_line line pins_per_class ;;
      countpass_scan file' ppc
  end.

(** The check for missing classes. *)
Definition check_missing_classes (pins_per_class : list Z) : M unit :=
  nc <- gets num_class ;;
  for_range 0 nc (fun i =>
    match pins_per_class !! Z.to_nat i with
    | Some n =>
        if n =? 0 then
          printf (Err_class_index_not_used i) ;;
          printf Err_class_indices_not_consecutive ;; exit
        else ret tt
    | None => undef
    end).

(** The allocation of [class_inf] and [clb_pin_class]. *)
Definition alloc_classes (pins_per_class : list Z) : M unit :=
  nc <- gets num_class ;;
  modify (set_class_inf (replicate (Z.to_nat nc) (mk_class OPEN 0 []))) ;;
  modify (set_pins_per_clb 0) ;;
  for_range 0 nc (fun i =>
    match pins_per_class !! Z.to_nat i with
    | Some n =>
        modify (fun g =>
          set_class_inf
            (<[Z.to_nat i := mk_class OPEN 0 (replicate (Z.to_nat n) None)]>
               (class_inf g)) g) ;;
        ppc <- gets pins_per_clb ;;
        s <- int (ppc + n) ;;
        modify (set_pins_per_clb s)
    | None => undef
    end) ;;
  ppc <- gets pins_per_clb ;;
  modify (set_clb_pin_class (replicate (Z.to_nat ppc) None)).

Definition countpass (file : list (list string)) : M unit :=
  modify (set_linenum 0) ;;
  modify (set_num_class 1) ;;
  pins_per_class <- countpass_scan file (replicate 1 0) ;;
  check_missing_classes pins_per_class ;;
  alloc_classes pins_per_class.

(** Stores into an array of the program: writing outside the array is
    undefined behaviour. *)
Definition store {A} (l : list A) (i : Z) (v : A) : option (list A) :=
  if (0 <=? i) && (i <? Z.of_nat (length l))
  then Some (<[Z.to_nat i := v]> l) else None.

Definition load {A} (l : list A) (i : Z) : option A :=
  if 0 <=? i then l !! Z.to_nat i else None.

(** *** get_pin *)

Definition position : list string := ["top"; "bottom"; "left"; "right"].

(** [pinloc[i][pinnum] = 1] *)
Definition mark_pinloc (i : Z) (pinnum : Z) : M unit :=
  fun g =>
    match load (pinloc g) i with
    | Some row =>
        match store row pinnum 1 with
        | Some row' =>
            match store (pinloc g) i row' with
            | Some pl => Ok tt (set_pinloc pl g)
            | None => Undef
            end
        | None => Undef
        end
    | None => Undef
    end.

(** The inner [for] loop of [get_pin]: the first [i] with
    [strcmp (ptr, position[i]) == 0] gets its flag set; the result is
    [valid]. *)
Fixpoint match_position (ptr : string) (pinnum : Z) (i : Z)
    (pos : list string) : M bool :=
  match pos with
  | [] => ret false
  | p :: pos' =>
      if strcmp_eq ptr p then mark_pinloc i pinnum ;; ret true
      else match_position ptr pinnum (i + 1) pos'
  end.

(** The [do ... while] loop of [get_pin] over the words left on the
    line; each iteration starts with [ptr] at the head of [toks] and
    [my_strtok] has consumed it. *)
Fixpoint pin_locations (pinnum : Z) (toks : list string) : M unit :=
  match toks with
  | [] => ret tt
  | ptr :: toks' =>
      modify (set_strtok_rest toks') ;;
      valid <- match_position ptr pinnum 0 position ;;
      if negb valid then
        ln <- gets linenum ;;
        printf (Err_bad_pin_location ln) ;; exit
      else pin_locations pinnum toks'
  end.

Definition get_pin (pinnum : Z) (type : e_pin_type) : M unit :=
  class <- get_class ;;
  ci <- gets class_inf ;;
  match load ci class with
  | None => undef
  | Some c =>
      c1 <-
        (if decide (class_type c = OPEN) then
           ret (mk_class type (num_pins c) (pinlist c))
         else if decide (class_type c <> type) then
           ln <- gets linenum ;;
           printf (Err_in_get_pin ln) ;;
           printf (Class_both_input_and_output class) ;; exit
         else ret c) ;;
      let ipin := num_pins c1 in
      match store (pinlist c1) ipin (Some pinnum) with
      | None => undef
      | Some pl =>
          np <- int (num_pins c1 + 1) ;;
          match store ci class (mk_class (class_type c1) np pl) with
          | None => undef
          | Some ci' =>
              modify (set_class_inf ci') ;;
              cpc <- gets clb_pin_class ;;
              match store cpc pinnum (Some class) with
              | None => undef
              | Some cpc' =>
                  modify (set_clb_pin_class cpc') ;;
                  toks <- gets strtok_rest ;;
                  match toks with
                  | [] =>
                      ln <- gets linenum ;;
                      printf (Err_pin_no_locations ln) ;; exit
                  | _ => pin_locations pinnum toks
                  end
              end
          end
      end
  end.

(** *** get_Fc_type and get_switch_block_type *)

Definition get_Fc_type : M e_Fc_type :=
  ptr <- my_strtok ;;
  match ptr with
  | None =>
      ln <- gets linenum ;; printf (Err_missing_Fc_type ln) ;; exit
  | Some p =>
      t <-
        (if strcmp_eq p "absolute" then ret ABSOLUTE
         else if strcmp_eq p "fractional" then ret FRACTIONAL
         else ln <- gets linenum ;; printf (Err_bad_Fc_type p ln) ;; exit) ;;
      ptr <- my_strtok ;;
      match ptr with
      | Some _ =>
          ln <- gets linenum ;; printf (Err_extra_characters ln) ;; exit
      | None => ret t
      end
  end.

Definition get_switch_block_type : M e_switch_block_type :=
  ptr <- my_strtok ;;
  match ptr with
  | None =>
      ln <- gets linenum ;;
      printf (Err_missing_switch_block_type ln) ;; exit
  | Some p =>
      t <-
        (if strcmp_eq p "subset" then ret SUBSET
         else if strcmp_eq p "wilton" then ret WILTON
         else if strcmp_eq p "universal" then ret UNIVERSAL
         else ln <- gets linenum ;;
              printf (Err_bad_switch_block_type p ln) ;; exit) ;;
      ptr <- my_strtok ;;
      match ptr with
      | Some _ =>
          ln <- gets linenum ;; printf (Err_extra_characters ln) ;; exit
      | None => ret t
      end
  end.

(** *** get_int *)

Definition get_int (inp_num : nat) : M Z :=
  ptr <- my_strtok ;;
  match ptr with
  | None =>
      ln <- gets linenum ;;
      printf (Err_missing_value (name inp_num) ln) ;; exit
  | Some p =>
      match atoi p with
      | None => undef
      | Some val =>
          if val <=? 0 then
            ln <- gets linenum ;;
            printf (Err_bad_value (name inp_num) val ln) ;; exit
          else
            ptr <- my_strtok ;;
            match ptr with
            | Some _ =>
                ln <- gets linenum ;;
                printf (Err_extra_characters ln) ;; exit
            | None => incr_isread inp_num ;; ret val
            end
      end
  end.

(** A [struct s_chan *] argument: one of the two channel globals. *)
Record chan_ptr := mk_chan_ptr {
  chan_get : globals -> s_chan;
  chan_set : s_chan -> globals -> globals }.
Definition chan_x_ptr : chan_ptr := mk_chan_ptr chan_x_dist set_chan_x_dist.
Definition chan_y_ptr : chan_ptr := mk_chan_ptr chan_y_dist set_chan_y_dist.

Definition assign_chan (chan : chan_ptr) (f : s_chan -> s_chan) : M unit :=
  modify (fun g => chan_set chan (f (chan_get chan g)) g).

Section Reader.

(** [atof] of the C library: the [double] a word stands for. *)
Variable atof : string -> spec_float.

(** *** get_float *)

Definition get_float (inp_num : nat) (low_lim upp_lim : spec_float)
  : M spec_float :=
  ptr <- my_strtok ;;
  match ptr with
  | None =>
      ln <- gets linenum ;;
      printf (Err_missing_value (name inp_num) ln) ;; exit
  | Some p =>
      let val := Float.to_float (atof p) in
      if Float.le val low_lim || Float.gt val upp_lim then
        ln <- gets linenum ;;
        printf (Err_bad_value_parsing (name inp_num) val ln) ;; exit
      else ret val
  end.

(** *** get_chan *)

Definition get_chan (chan : chan_ptr) (inp_num : nat) : M unit :=
  ptr <- my_strtok ;;
  match ptr with
  | None =>
      ln <- gets linenum ;;
      printf (Err_missing_value (name inp_num) ln) ;; exit
  | Some p =>
      (if strcmp_eq p "uniform" then
         incr_isread inp_num ;;
         assign_chan chan (set_chan_type UNIFORM) ;;
         v <- get_float inp_num (Float.flit false 0 0) (Float.flit false 1 0) ;;
         assign_chan chan (set_chan_peak v) ;;
         assign_chan chan (set_chan_dc (Float.flit false 0 0))
       else if strcmp_eq p "delta" then
         incr_isread inp_num ;;
         assign_chan chan (set_chan_type DELTA) ;;
         v <- get_float inp_num (Float.flit true 1 5) (Float.flit false 1 5) ;;
         assign_chan chan (set_chan_peak v) ;;
         v <- get_float inp_num (Float.flit true 1 (-30))
                (Float.flit false 1 0) ;;
         assign_chan chan (set_chan_xpeak v) ;;
         v <- get_float inp_num (Float.flit true 1 (-30))
                (Float.flit false 1 0) ;;
         assign_chan chan (set_chan_dc v)
       else
         (if strcmp_eq p "gaussian"
          then assign_chan chan (set_chan_type GAUSSIAN) else ret tt) ;;
         (if strcmp_eq p "pulse"
          then assign_chan chan (set_chan_type PULSE) else ret tt) ;;
         t <- gets (fun g => chan_type (chan_get chan g)) ;;
         if bool_decide (t = GAUSSIAN) || bool_decide (t = PULSE) then
           incr_isread inp_num ;;
           v <- get_float inp_num (Float.flit true 1 0)
                  (Float.flit false 1 0) ;;
           assign_chan chan (set_chan_peak v) ;;
           v <- get_float inp_num (Float.flit false 0 0)
                  (Float.flit false 1 10) ;;
           assign_chan chan (set_chan_width v) ;;
           v <- get_float inp_num (Float.flit true 1 (-30))
                  (Float.flit false 1 0) ;;
           assign_chan chan (set_chan_xpeak v) ;;
           v <- get_float inp_num (Float.flit true 1 (-30))
                  (Float.flit false 1 0) ;;
           assign_chan chan (set_chan_dc v)
         else ret tt) ;;
      n <- isread_at inp_num ;;
      (if n =? 0 then
         printf (Err_distribution_keyword_unknown (name inp_num) p) ;; exit
       else ret tt) ;;
      ptr <- my_strtok ;;
      match ptr with
      | Some _ =>
          ln <- gets linenum ;;
          printf (Err_extra_value (name inp_num) ln) ;; exit
      | None => ret tt
      end
  end.

(** *** read_arch: one iteration of the loading loop

    [pinnum] is the local pin counter; the result is its new value. *)
Definition assign_det (f : s_det_routing_arch -> s_det_routing_arch)
  : M unit :=
  modify (fun g => set_det_routing_arch (f (det_routing_arch g)) g).

Definition read_arch_line (line : list string) (pinnum : Z) : M Z :=
  my_fgets line ;;
  ptr <- my_strtok ;;
  match ptr with
  | None => ret pinnum
  | Some p =>
      if strcmp_eq p (name 0) then
        v <- get_int 0 ;; modify (set_io_rat v) ;; ret pinnum
      else if strcmp_eq p (name 1) then
        get_chan chan_x_ptr 1 ;; ret pinnum
      else if strcmp_eq p (name 2) then
        get_chan chan_y_ptr 2 ;; ret pinnum
      else if strcmp_eq p (name 3) then
        v <- get_float 3 (Float.flit false 0 0) (Float.flit false 5000 0) ;;
        modify (set_chan_width_io v) ;;
        incr_isread 3 ;; ret pinnum
      else if strcmp_eq p (name 4) then
        get_pin pinnum DRIVER ;;
        pinnum' <- int (pinnum + 1) ;;
        incr_isread 4 ;; ret pinnum'
      else if strcmp_eq p (name 5) then
        get_pin pinnum RECEIVER ;;
        pinnum' <- int (pinnum + 1) ;;
        incr_isread 5 ;; ret pinnum'
      else if strcmp_eq p (name 6) then
        v <- get_int 6 ;; modify (set_max_subblocks_per_block v) ;;
        ret pinnum
      else if strcmp_eq p (name 7) then
        v <- get_int 7 ;; modify (set_subblock_lut_size v) ;; ret pinnum
      else if strcmp_eq p (name 8) then
        v <- get_float 8 (Float.flit false 0 0) (Float.flit false 1 20) ;;
        assign_det (set_Fc_output v) ;;
        incr_isread 8 ;; ret pinnum
      else if strcmp_eq p (name 9) then
        v <- get_float 9 (Float.flit false 0 0) (Float.flit false 1 20) ;;
        assign_det (set_Fc_input v) ;;
        incr_isread 9 ;; ret pinnum
      else if strcmp_eq p (name 10) then
        v <- get_float 10 (Float.flit false 0 0) (Float.flit false 1 20) ;;
        assign_det (set_Fc_pad v) ;;
        incr_isread 10 ;; ret pinnum
      else if strcmp_eq p (name 11) then
        v <- get_Fc_type ;;
        assign_det (set_Fc_type v) ;;
        incr_isread 11 ;; ret pinnum
      else if strcmp_eq p (name 12) then
        v <- get_switch_block_type ;;
        assign_det (set_switch_block_type v) ;;
        incr_isread 12 ;; ret pinnum
      else ret pinnum
  end.

Fixpoint read_arch_scan (file : list (list string)) (pinnum : Z) : M Z :=
  match file with
  | [] => ret pinnum
  | line :: file' =>
      pinnum' <- read_arch_line line pinnum ;;
      read_arch_scan file' pinnum'
  end.

End Reader.

(** *** check_arch *)

(** The body of the completeness loop for index [i]; [fatal] is the
    local flag, the result its new value. *)
Definition check_isread (arch_file : string) (i : nat) (fatal : bool)
  : M bool :=
  v <- isread_at i ;;
  if negb (i =? 4)%nat && negb (i =? 5)%nat then
    fatal1 <-
      (if v =? 0 then
         printf (Err_not_set (name i) arch_file) ;; ret true
       else ret fatal) ;;
    (if v >? 1 then
       printf (Err_set_times (name i) v arch_file) ;; ret true
     else ret fatal1)
  else
    if v <? 1 then
      printf (Err_clb_has arch_file v (name i)) ;; ret true
    else ret fatal.

(** [for (i = i0; i < i0 + n; i++)] over the body above. *)
Fixpoint check_isread_loop (arch_file : string) (n : nat) (i : nat)
    (fatal : bool) : M bool :=
  match n with
  | O => ret fatal
  | S n' =>
      fatal' <- check_isread arch_file i fatal ;;
      check_isread_loop arch_file n' (S i) fatal'
  end.

Definition num_to_check (route_type : e_route_type) : Z :=
  if decide (route_type = DETAILED) then NUMINP else NUMINP - NUM_DETAILED.

(** The cross-field checks made for detailed routing. *)
Definition check_detailed (det_routing_arch : s_det_routing_arch) : M unit :=
  cx <- gets chan_x_dist ;;
  cy <- gets chan_y_dist ;;
  cio <- gets chan_width_io ;;
  (if bool_decide (chan_type cx <> UNIFORM)
      || bool_decide (chan_type cy <> UNIFORM)
      || Float.ne (chan_peak cx) (chan_peak cy)
      || Float.ne (chan_peak cx) cio then
     printf Err_channels_not_equal_width ;; exit
   else ret tt) ;;
  if decide (Fc_type det_routing_arch = ABSOLUTE) then
    if Float.lt (Fc_output det_routing_arch) (Float.float_of_int 1)
       || Float.lt (Fc_input det_routing_arch) (Float.float_of_int 1)
       || Float.lt (Fc_pad det_routing_arch) (Float.float_of_int 1) then
      printf Err_Fc_absolute ;; exit
    else ret tt
  else
    if Float.gt (Float.to_double (Fc_output det_routing_arch))
         (Float.dlit false 1 0)
       || Float.gt (Float.to_double (Fc_input det_routing_arch))
            (Float.dlit false 1 0)
       || Float.gt (Float.to_double (Fc_pad det_routing_arch))
            (Float.dlit false 1 0) then
      printf Err_Fc_fractional ;; exit
    else ret tt.

Definition check_arch (arch_file : string) (route_type : e_route_type)
    (det_routing_arch : s_det_routing_arch) : M unit :=
  fatal <-
    check_isread_loop arch_file (Z.to_nat (num_to_check route_type)) 0 false ;;
  (if fatal : bool then exit else ret tt) ;;
  if decide (route_type = DETAILED) then check_detailed det_routing_arch
  else ret tt.

(** *** read_arch *)

Definition read_arch (atof : string -> spec_float) (arch_file : string)
    (file : list (list string)) (route_type : e_route_type) : M unit :=
  countpass file ;;
  (* rewind (fp_arch) *)
  modify (set_linenum 0) ;;
  modify (set_isread (replicate (Z.to_nat NUMINP) 0)) ;;
  ppc <- gets pins_per_clb ;;
  modify (set_pinloc (replicate 4 (replicate (Z.to_nat ppc) 0))) ;;
  read_arch_scan atof file 0 ;;
  det <- gets det_routing_arch ;;
  check_arch arch_file route_type det.

(** *** init_arch and fill_arch *)

(** Modelled from the spec: [alloc_matrix (lo1, hi1, lo2, hi2, ...)] of
    util.c, which is not among the sources, for a matrix of cells: the
    cells with indices in the two ranges exist, their contents
    indeterminate. *)
Definition alloc_matrix (lo1 hi1 lo2 hi2 : Z) : gmap (Z * Z) s_clb :=
  gset_to_gmap (mk_clb None None)
    (list_to_set
       (x ← seqZ lo1 (hi1 - lo1 + 1);
        (fun y => (x, y)) <$> seqZ lo2 (hi2 - lo2 + 1))).

(** An assignment to a field of [clb[i][j]]. *)
Definition assign_clb (i j : Z) (f : s_clb -> s_clb) : M unit :=
  fun g => match clb g !! (i, j) with
           | Some c => Ok tt (set_clb (<[(i, j) := f c]> (clb g)) g)
           | None => Undef
           end.

Definition set_io_blocks (index : Z) (c : s_clb) : s_clb :=
  mk_clb (clb_type c) (Some index).
Definition set_clb_type (t : e_block_type) (c : s_clb) : s_clb :=
  mk_clb (Some t) (io_blocks c).

(** [fill_arch]: [index] is the local pointer into the pool of pad
    slots, kept as its offset from the start of the pool. *)
Definition fill_arch : M unit :=
  r <- gets io_rat ;;
  x <- gets nx ;;
  y <- gets ny ;;
  (* i = 2*io_rat*(nx+ny): the size of the pool *)
  r2 <- int (2 * r) ;;
  xy <- int (x + y) ;;
  _ <- int (r2 * xy) ;;
  y1 <- int (y + 1) ;;
  x1 <- int (x + 1) ;;
  index <-
    for_fold (Z.to_nat x) 1 (fun i index =>
      assign_clb i 0 (set_io_blocks index) ;;
      let index := index + r in
      assign_clb i y1 (set_io_blocks index) ;;
      let index := index + r in
      ret index) 0 ;;
  _ <-
    for_fold (Z.to_nat y) 1 (fun i index =>
      assign_clb 0 i (set_io_blocks index) ;;
      let index := index + r in
      assign_clb x1 i (set_io_blocks index) ;;
      let index := index + r in
      ret index) index ;;
  (* Initialize type, and occupancy. *)
  for_range 1 (x + 1) (fun i =>
    assign_clb i 0 (set_clb_type IO) ;;
    assign_clb i y1 (set_clb_type IO)) ;;
  for_range 1 (y + 1) (fun i =>
    assign_clb 0 i (set_clb_type IO) ;;
    assign_clb x1 i (set_clb_type IO)) ;;
  for_range 1 (x + 1) (fun i =>
    for_range 1 (y + 1) (fun j =>
      assign_clb i j (set_clb_type CLB))) ;;
  (* Nothing goes in the corners. *)
  assign_clb x1 0 (set_clb_type ILLEGAL) ;;
  assign_clb 0 0 (set_clb_type ILLEGAL) ;;
  assign_clb x1 y1 (set_clb_type ILLEGAL) ;;
  assign_clb 0 y1 (set_clb_type ILLEGAL).

(** Modelled from the spec: the macro [max] of util.h, which is not
    among the sources. *)
Definition max (a b : Z) : Z := if a >? b then a else b.

(** [(int) ceil (x)] *)
Definition int_ceil (x : spec_float) : M Z :=
  match Float.to_int (Float.ceil x) with
  | Some z => ret z
  | None => undef
  end.

(** The automatic sizing of [init_arch] (the [else] branch). *)
Definition size_automatically (aspect_ratio : spec_float) : M unit :=
  nc <- gets num_clbs ;;
  y <- int_ceil
         (SFsqrt Float.prec64 Float.emax64
            (Float.to_double
               (SFdiv Float.prec32 Float.emax32
                  (Float.float_of_int nc) aspect_ratio))) ;;
  modify (set_ny y) ;;
  pi <- gets num_p_inputs ;;
  po <- gets num_p_outputs ;;
  r <- gets io_rat ;;
  pads <- int (pi + po) ;;
  r2 <- int (2 * r) ;;
  io_lim <- int_ceil
         (SFdiv Float.prec64 Float.emax64
            (Float.double_of_int pads)
            (SFmul Float.prec64 Float.emax64
               (Float.double_of_int r2)
               (SFadd Float.prec64 Float.emax64
                  (Float.dlit false 1 0) (Float.to_double aspect_ratio)))) ;;
  y <- gets ny ;;
  modify (set_ny (max y io_lim)) ;;
  y <- gets ny ;;
  x <- int_ceil
         (Float.to_double
            (SFmul Float.prec32 Float.emax32
               (Float.float_of_int y) aspect_ratio)) ;;
  modify (set_nx x).

(** The check of user-specified dimensions (the [then] branch). *)
Definition check_user_size : M unit :=
  nc <- gets num_clbs ;;
  x <- gets nx ;;
  y <- gets ny ;;
  area <- int (x * y) ;;
  too_small <-
    (if nc >? area then ret true
     else
       pi <- gets num_p_inputs ;;
       po <- gets num_p_outputs ;;
       r <- gets io_rat ;;
       pads <- int (pi + po) ;;
       r2 <- int (2 * r) ;;
       xy <- int (x + y) ;;
       cap <- int (r2 * xy) ;;
       ret (pads >? cap)) ;;
  if too_small : bool then printf Err_user_size_too_small ;; exit
  else ret tt.

Definition init_arch (aspect_ratio : spec_float) (user_sized : bool)
  : M unit :=
  (if user_sized then check_user_size
   else size_automatically aspect_ratio) ;;
  x <- gets nx ;;
  y <- gets ny ;;
  nc <- gets num_clbs ;;
  (if (x =? 1) && (y =? 1) && negb (nc =? 0) then
     printf Err_one_valid_location ;; exit
   else ret tt) ;;
  (if (x >? 32766) || (y >? 32766) then
     printf (Err_nx_ny_limit x y) ;; exit
   else ret tt) ;;
  x1 <- int (x + 1) ;;
  y1 <- int (y + 1) ;;
  modify (set_clb (alloc_matrix 0 x1 0 y1)) ;;
  modify (set_chan_width_x (replicate (Z.to_nat y1) None)) ;;
  modify (set_chan_width_y (replicate (Z.to_nat x1) None)) ;;
  fill_arch.

(** ** Running the program *)

(** The globals at program start: C initialises them to zero.  The
    enumerations of pr.h are taken to start with [UNIFORM], [ABSOLUTE]
    and [SUBSET]. *)
Definition zero_chan : s_chan :=
  mk_chan UNIFORM (S754_zero false) (S754_zero false) (S754_zero false)
    (S754_zero false).

Definition initial_globals : globals :=
  {| isread := replicate (Z.to_nat NUMINP) 0;
     linenum := 0; strtok_rest := []; stdout := [];
     io_rat := 0; chan_width_io := S754_zero false;
     chan_x_dist := zero_chan; chan_y_dist := zero_chan;
     num_class := 0; pins_per_clb := 0; class_inf := [];
     clb_pin_class := []; pinloc := [];
     max_subblocks_per_block := 0; subblock_lut_size := 0;
     det_routing_arch :=
       mk_det ABSOLUTE SUBSET (S754_zero false) (S754_zero false)
         (S754_zero false);
     num_clbs := 0; num_p_inputs := 0; num_p_outputs := 0;
     nx := 0; ny := 0; clb := ∅; chan_width_x := []; chan_width_y := [] |}.

(** The words of a line: split at blanks (the separators of the
    tokenizer's [TOKENS]). *)
Fixpoint words_aux (s : string) (cur : string) : list string :=
  match s with
  | EmptyString => if strcmp_eq cur "" then [] else [cur]
  | String c s' =>
      if isspace c
      then (if strcmp_eq cur "" then [] else [cur]) ++ words_aux s' ""
      else words_aux s' (cur ++ String c EmptyString)%string
  end.
Definition words (s : string) : list string := words_aux s "".

(** * Definitions for the properties *)

(** ** Lines, words and sample files *)

(** The first word of the line is [inpin] or [outpin]. *)
Definition is_pin_line (line : list string) : bool :=
  match line with
  | [] => false
  | p :: _ => strcmp_eq p "inpin" || strcmp_eq p "outpin"
  end.

(** The word holds no decimal digit where [atoi] looks for one: after
    optional white space and an optional sign. *)
Definition no_digits (tok : string) : bool :=
  let '(_, n, _) := read_digits (snd (read_sign (skip_space tok))) 0 0 in
  n =? 0.

(** A complete architecture file whose [outpin] line carries the class
    word [abc]. *)
Definition arch_with_class_abc : list (list string) :=
  map words
    ["io_rat 2"; "chan_width_io 1"; "chan_width_x uniform 1";
     "chan_width_y uniform 1"; "outpin class: abc top";
     "inpin class: 1 bottom"; "subblocks_per_cluster 1";
     "subblock_lut_size 4"].

(** A complete architecture file whose [chan_width_io] line carries one
    more word after its value. *)
Definition arch_with_extra_word : list (list string) :=
  map words
    ["io_rat 2"; "chan_width_io 1 extra"; "chan_width_x uniform 1";
     "chan_width_y uniform 1"; "outpin class: 0 top";
     "inpin class: 1 bottom"; "subblocks_per_cluster 1";
     "subblock_lut_size 4"].

(** The channel global and counter index of a [chan_width_x] ([true]) or
    [chan_width_y] ([false]) line. *)
Definition chan_of (x : bool) : chan_ptr :=
  if x then chan_x_ptr else chan_y_ptr.
Definition inp_num_of (x : bool) : nat := if x then 1%nat else 2%nat.

(** A complete architecture file with a second [chan_width_x] line whose
    distribution keyword is [foo]. *)
Definition arch_with_keyword_foo : list (list string) :=
  map words
    ["io_rat 2"; "chan_width_io 1"; "chan_width_x uniform 1";
     "chan_width_x foo"; "chan_width_y uniform 1"; "outpin class: 0 top";
     "inpin class: 1 bottom"; "subblocks_per_cluster 1";
     "subblock_lut_size 4"].

(** The same file with [chan_width_x foo] as the first channel line. *)
Definition arch_with_keyword_foo_first : list (list string) :=
  map words
    ["io_rat 2"; "chan_width_io 1"; "chan_width_x foo";
     "chan_width_x uniform 1"; "chan_width_y uniform 1";
     "outpin class: 0 top"; "inpin class: 1 bottom";
     "subblocks_per_cluster 1"; "subblock_lut_size 4"].

(** ** The checks of [check_arch] *)

(** Keyword [i] is [outpin] or [inpin]. *)
Definition is_pin_keyword (i : nat) : bool := (i =? 4)%nat || (i =? 5)%nat.

(** What is wrong with keyword [i] seen [count] times. *)
Definition field_violations (arch_file : string) (i : nat) (count : Z)
  : list message :=
  if is_pin_keyword i then
    if count <? 1 then [Err_clb_has arch_file count (name i)] else []
  else
    (if count =? 0 then [Err_not_set (name i) arch_file] else [])
    ++ (if count >? 1 then [Err_set_times (name i) count arch_file] else []).

(** The mandatory keywords: all 13 for detailed routing, else the first 8. *)
Definition mandatory (route_type : e_route_type) : list nat :=
  match route_type with
  | DETAILED => seq 0 13
  | GLOBAL => seq 0 8
  end.

Definition completeness_violations (arch_file : string)
    (route_type : e_route_type) (counts : list Z) : list message :=
  flat_map (fun i => field_violations arch_file i (nth i counts 0))
    (mandatory route_type).

(** Both channel distributions are uniform, with equal peaks that also
    equal [chan_width_io]. *)
Definition channels_uniform_equal (g : globals) : Prop :=
  chan_type (chan_x_dist g) = UNIFORM
  /\ chan_type (chan_y_dist g) = UNIFORM
  /\ Float.eq (chan_peak (chan_x_dist g)) (chan_peak (chan_y_dist g)) = true
  /\ Float.eq (chan_peak (chan_x_dist g)) (chan_width_io g) = true.

(** Some Fc value is below 1 (compared as [float]s), or above 1 (compared
    as [double]s). *)
Definition some_Fc_below_1 (det : s_det_routing_arch) : Prop :=
  Float.lt (Fc_output det) (Float.float_of_int 1) = true
  \/ Float.lt (Fc_input det) (Float.float_of_int 1) = true
  \/ Float.lt (Fc_pad det) (Float.float_of_int 1) = true.

Definition some_Fc_above_1 (det : s_det_routing_arch) : Prop :=
  Float.gt (Float.to_double (Fc_output det)) (Float.dlit false 1 0) = true
  \/ Float.gt (Float.to_double (Fc_input det)) (Float.dlit false 1 0) = true
  \/ Float.gt (Float.to_double (Fc_pad det)) (Float.dlit false 1 0) = true.

Definition cross_field_failure (g : globals) (det : s_det_routing_arch)
  : Prop :=
  ~ channels_uniform_equal g
  \/ (Fc_type det = ABSOLUTE /\ some_Fc_below_1 det)
  \/ (Fc_type det = FRACTIONAL /\ some_Fc_above_1 det).

(** The three tests of [check_detailed], as the code writes them. *)
Definition channels_test (g : globals) : bool :=
  bool_decide (chan_type (chan_x_dist g) <> UNIFORM)
  || bool_decide (chan_type (chan_y_dist g) <> UNIFORM)
  || Float.ne (chan_peak (chan_x_dist g)) (chan_peak (chan_y_dist g))
  || Float.ne (chan_peak (chan_x_dist g)) (chan_width_io g).

Definition absolute_test (det : s_det_routing_arch) : bool :=
  Float.lt (Fc_output det) (Float.float_of_int 1)
  || Float.lt (Fc_input det) (Float.float_of_int 1)
  || Float.lt (Fc_pad det) (Float.float_of_int 1).

Definition fractional_test (det : s_det_routing_arch) : bool :=
  Float.gt (Float.to_double (Fc_output det)) (Float.dlit false 1 0)
  || Float.gt (Float.to_double (Fc_input det)) (Float.dlit false 1 0)
  || Float.gt (Float.to_double (Fc_pad det)) (Float.dlit false 1 0).

(** ** The grid and its pad slots *)

(** The pad-slot slice of a cell: its offset in the pool. *)
Definition slice (m : gmap (Z * Z) s_clb) (cell : Z * Z) : option Z :=
  match m !! cell with
  | Some c => io_blocks c
  | None => None
  end.

Definition slice_of (g : globals) (cell : Z * Z) : option Z :=
  slice (clb g) cell.

(** The perimeter cells in the order in which [fill_arch] hands out
    slices: for each column its cell in row 0 and its cell in row
    [ny+1], then for each row its cell in column 0 and its cell in column
    [nx+1]. *)
Definition carve_sequence (nx ny : Z) : list (Z * Z) :=
  (i ← seqZ 1 nx; [(i, 0); (i, ny + 1)])
  ++ (j ← seqZ 1 ny; [(0, j); (nx + 1, j)]).

(** The order the specification gives: the cells of columns [nx+1] and 0
    row by row, then the cells of rows [ny+1] and 0 column by column. *)
Definition spec_carve_sequence (nx ny : Z) : list (Z * Z) :=
  (j ← seqZ 1 ny; [(nx + 1, j); (0, j)])
  ++ (i ← seqZ 1 nx; [(i, ny + 1); (i, 0)]).

(** Every cell of [order] holds the slice of [io_rat] slots that starts
    where the slices of the cells before it end. *)
Definition carved_in_order (g : globals) (order : list (Z * Z)) : Prop :=
  forall k cell, order !! k = Some cell ->
    slice_of g cell = Some (Z.of_nat k * io_rat g).

(** The cells [alloc_matrix] has created. *)
Definition allocated (m : gmap (Z * Z) s_clb) (hi1 hi2 : Z) : Prop :=
  forall i j, 0 <= i <= hi1 -> 0 <= j <= hi2 -> is_Some (m !! (i, j)).

(** The globals [g0] with the cell map [m] in place of theirs. *)
Definition with_clb (g0 : globals) (m : gmap (Z * Z) s_clb) : globals :=
  set_clb m g0.

(** The bodies of the two carving loops of [fill_arch], for [io_rat = r],
    [nx = X] and [ny = Y]. *)
Definition columns_body (r Y : Z) (i index : Z) : M Z :=
  assign_clb i 0 (set_io_blocks index) ;;
  let index := index + r in
  assign_clb i (Y + 1) (set_io_blocks index) ;;
  let index := index + r in
  ret index.

Definition rows_body (r X : Z) (i index : Z) : M Z :=
  assign_clb 0 i (set_io_blocks index) ;;
  let index := index + r in
  assign_clb (X + 1) i (set_io_blocks index) ;;
  let index := index + r in
  ret index.

(** The state of the first carving loop before iteration [k], and of the
    second one. *)
Definition columns_carved (r Y : Z) (k : Z) (m : gmap (Z * Z) s_clb)
  : Prop :=
  forall i, 1 <= i < k ->
    slice m (i, 0) = Some (2 * (i - 1) * r)
    /\ slice m (i, Y + 1) = Some ((2 * (i - 1) + 1) * r).

Definition rows_carved (r X : Z) (k : Z) (m : gmap (Z * Z) s_clb) : Prop :=
  forall j, 1 <= j < k ->
    slice m (0, j) = Some ((2 * X + 2 * (j - 1)) * r)
    /\ slice m (X + 1, j) = Some ((2 * X + 2 * (j - 1) + 1) * r).

(** What the loops that set the cell types keep: the cells and their
    slices. *)
Definition same_slices (g0 : globals) (X Y : Z) (m : gmap (Z * Z) s_clb)
    (g : globals) : Prop :=
  exists m', g = with_clb g0 m'
    /\ allocated m' (X + 1) (Y + 1)
    /\ forall p, slice m' p = slice m p.

(** The perimeter cells of the grid: rows 0 and [ny+1] for the columns
    [1..nx], columns 0 and [nx+1] for the rows [1..ny]. *)
Definition is_perimeter (nx ny : Z) (cell : Z * Z) : Prop :=
  (1 <= cell.1 <= nx /\ (cell.2 = 0 \/ cell.2 = ny + 1))
  \/ (1 <= cell.2 <= ny /\ (cell.1 = 0 \/ cell.1 = nx + 1)).

(** A grid of 2 columns and 1 row for 3 pads per cell, allocated as
    [init_arch] does. *)
Definition grid_2x1 : globals :=
  set_clb (alloc_matrix 0 3 0 2)
    (set_io_rat 3 (set_nx 2 (set_ny 1 initial_globals))).

(** ** The automatic size *)

(** The sizing rule as the specification words it, in exact arithmetic.
    A finite [float] or [double] is the fraction [p/q] with [q > 0]. *)
Definition exact_value (x : spec_float) : option (Z * Z) :=
  match x with
  | S754_zero _ => Some (0, 1)
  | S754_finite s m e =>
      let n := if s then Zneg m else Zpos m in
      Some (if 0 <=? e then (n * 2 ^ e, 1) else (n, 2 ^ (- e)))
  | _ => None
  end.

(** [ceil (a / b)] for [b > 0], and [ceil (sqrt (a / b))] for [a >= 0]
    and [b > 0]: the least integer that is not below the quotient, and
    the least integer whose square is not below it. *)
Definition ceil_quot (a b : Z) : Z := - ((- a) / b).
Definition ceil_sqrt_quot (a b : Z) : Z := Z.sqrt_up (ceil_quot a b).

(** [ceil (sqrt (logic_block_count / aspect_ratio))],
    [ceil (pad_count / (2*io_rat*(1 + aspect_ratio)))] and
    [ceil (ny * aspect_ratio)] for the aspect ratio [p/q]. *)
Definition spec_ny (logic_block_count p q : Z) : Z :=
  ceil_sqrt_quot (logic_block_count * q) p.
Definition spec_io_lim (pad_count io_rat p q : Z) : Z :=
  ceil_quot (pad_count * q) (2 * io_rat * (q + p)).
Definition spec_nx (ny p q : Z) : Z := ceil_quot (ny * p) q.

(** The size [(nx, ny)] that the specification gives. *)
Definition spec_size (logic_block_count pad_count io_rat : Z)
    (aspect_ratio : spec_float) : option (Z * Z) :=
  match exact_value aspect_ratio with
  | Some (p, q) =>
      let ny := Z.max (spec_ny logic_block_count p q)
                  (spec_io_lim pad_count io_rat p q) in
      Some (spec_nx ny p q, ny)
  | None => None
  end.

(** A circuit of [n] logic blocks, [pi] input pads and [po] output pads
    for an architecture of 2 pads per cell; the dimensions are not set
    yet. *)
Definition circuit_of (n pi po : Z) : globals :=
  set_io_rat 2
    (mk_globals (isread initial_globals) 0 [] [] 0 (S754_zero false)
       zero_chan zero_chan 0 0 [] [] [] 0 0
       (det_routing_arch initial_globals) n pi po 0 0 ∅ [] []).

(** The size that [size_automatically] leaves in the globals, and whether
    it is the size of the specification. *)
Definition sized (aspect_ratio : spec_float) (g : globals)
  : option (Z * Z) :=
  match size_automatically aspect_ratio g with
  | Ok _ g' => Some (nx g', ny g')
  | _ => None
  end.

Definition sized_as_specified (aspect_ratio : spec_float) (n : Z) : bool :=
  bool_decide (sized aspect_ratio (circuit_of n 0 0)
               = spec_size n 0 2 aspect_ratio
               /\ is_Some (spec_size n 0 2 aspect_ratio)).

(** The circuit of the example: 100 logic blocks, no pads, 2 pads per
    cell. *)
Definition circuit_100 : globals :=
  set_io_rat 2
    (mk_globals (isread initial_globals) 0 [] [] 0 (S754_zero false)
       zero_chan zero_chan 0 0 [] [] [] 0 0
       (det_routing_arch initial_globals) 100 0 0 0 0 ∅ [] []).

(** ** The classes of the count pass *)

(** The class index that a pin line declares. *)
Definition line_class (line : list string) : option Z :=
  match line with
  | p :: kw :: tok :: _ =>
      if is_pin_line [p] && strcmp_eq kw "class:" then atoi tok else None
  | _ => None
  end.

(** Class index [c] is used by some pin line of the file. *)
Definition class_used (file : list (list string)) (c : Z) : Prop :=
  exists line, In line file /\ line_class line = Some c.

(** What the scanning loop knows after the lines that use exactly the
    classes in [U]. *)
Record count_inv (g0 : globals) (U : Z -> Prop) (ppc : list Z)
    (g : globals) : Prop := {
  ci_length : Z.of_nat (length ppc) = num_class g;
  ci_stdout : stdout g = stdout g0;
  ci_counts : forall c n, ppc !! c = Some n ->
                0 <= n /\ (n <> 0 <-> U (Z.of_nat c));
  ci_bound : forall c, U c -> 0 <= c < num_class g;
  ci_top : num_class g = 1 \/ U (num_class g - 1) }.

(** The sum of the pin counts of all classes. *)
Definition total (l : list Z) : Z := foldr Z.add 0 l.

(** ** Definitions for further properties *)

(** A computation reports: when it returns it has printed nothing, and
    when it exits it has printed at least one message. *)
Definition reports {A} (m : M A) : Prop :=
  forall g,
    match m g with
    | Ok _ g' => stdout g' = stdout g
    | Exit out => exists msgs, msgs <> [] /\ out = stdout g ++ msgs
    | Undef => True
    end.

(** A computation keeps the part [f] of the globals and returns a value
    that satisfies [P], whenever it returns. *)
Definition keeps {A X} (f : globals -> X) (P : A -> Prop) (m : M A)
  : Prop :=
  forall g a g', m g = Ok a g' -> f g' = f g /\ P a.

(** The side a position word names: the index of the word in
    [position]. *)
Definition side_of (w : string) : option nat :=
  if strcmp_eq w "top" then Some 0%nat
  else if strcmp_eq w "bottom" then Some 1%nat
  else if strcmp_eq w "left" then Some 2%nat
  else if strcmp_eq w "right" then Some 3%nat
  else None.

(** The flag of side [i] for pin [p] in a [pinloc] matrix. *)
Definition pinloc_at (pl : list (list Z)) (i : nat) (p : Z) : option Z :=
  match pl !! i with
  | Some row => load row p
  | None => None
  end.

(** The matrix has its four rows, each with a slot for pin [pinnum]. *)
Definition pinloc_shaped (pl : list (list Z)) (pinnum : Z) : Prop :=
  length pl = 4%nat
  /\ forall i row, pl !! i = Some row -> 0 <= pinnum < Z.of_nat (length row).

(** The matrix with the flag of side [i] set for pin [pinnum]. *)
Definition marked (pl : list (list Z)) (i : nat) (pinnum : Z)
  : list (list Z) :=
  match pl !! i with
  | Some row => <[i := <[Z.to_nat pinnum := 1]> row]> pl
  | None => pl
  end.

(** Some word of [toks] names side [j]. *)
Definition names_side (toks : list string) (j : nat) : bool :=
  existsb (fun w => bool_decide (side_of w = Some j)) toks.

(** The globals after [get_pin] has entered pin [pinnum] into class [c],
    whose record was [cl], and before it reads the position words. *)
Definition pin_entered (g : globals) (pinnum : Z) (type : e_pin_type)
    (c : Z) (cl : s_class) : globals :=
  set_clb_pin_class (<[Z.to_nat pinnum := Some c]> (clb_pin_class g))
    (set_class_inf
       (<[Z.to_nat c :=
            mk_class type (num_pins cl + 1)
              (<[Z.to_nat (num_pins cl) := Some pinnum]> (pinlist cl))]>
          (class_inf g))
       g).

(** The type of a cell of the grid. *)
Definition cell_type (m : gmap (Z * Z) s_clb) (cell : Z * Z)
  : option e_block_type :=
  match m !! cell with
  | Some c => clb_type c
  | None => None
  end.

(** The kind of cell [(i, j)] in a grid of [nx] by [ny] logic blocks:
    the four corners, the rest of the border, the interior. *)
Definition grid_kind (nx ny : Z) (cell : Z * Z) : e_block_type :=
  let edge_i := (cell.1 =? 0) || (cell.1 =? nx + 1) in
  let edge_j := (cell.2 =? 0) || (cell.2 =? ny + 1) in
  if edge_i && edge_j then ILLEGAL
  else if edge_i || edge_j then IO
  else CLB.

(** The cells typed so far, and their types, are those of [S]; every
    other cell has the type it has in [m0]. *)
Definition typed_by (S : Z * Z -> option e_block_type)
    (m0 m : gmap (Z * Z) s_clb) : Prop :=
  forall q, cell_type m q =
            match S q with Some t => Some t | None => cell_type m0 q end.

(** The cells that the loops of [fill_arch] have typed before their
    iteration [k]: the loop over the columns, the loop over the rows, the
    double loop over the interior (before iteration [l] of the inner loop
    in column [k]), and the four final assignments to the corners. *)
Definition typed_columns (Y k : Z) (q : Z * Z) : option e_block_type :=
  if decide (1 <= q.1 < k /\ (q.2 = 0 \/ q.2 = Y + 1)) then Some IO
  else None.

Definition typed_rows (X Y k : Z) (q : Z * Z) : option e_block_type :=
  if decide (1 <= q.2 < k /\ (q.1 = 0 \/ q.1 = X + 1)) then Some IO
  else typed_columns Y (X + 1) q.

Definition typed_interior (X Y k l : Z) (q : Z * Z) : option e_block_type :=
  if decide ((1 <= q.1 < k /\ 1 <= q.2 <= Y) \/ (q.1 = k /\ 1 <= q.2 < l))
  then Some CLB
  else typed_rows X Y (Y + 1) q.

Definition typed_corners (X Y : Z) (q : Z * Z) : option e_block_type :=
  if decide ((q.1 = 0 \/ q.1 = X + 1) /\ (q.2 = 0 \/ q.2 = Y + 1))
  then Some ILLEGAL
  else typed_interior X Y (X + 1) 1 q.

(** What holds between the loops of [fill_arch] on a grid of [X] by [Y]
    that started with the cells [m0] in the state [g0]: the cells typed so
    far are those of [S], and the cells off the perimeter have the slice
    they had. *)
Definition fill_stage (X Y : Z) (m0 : gmap (Z * Z) s_clb)
    (S : Z * Z -> option e_block_type) (g0 g : globals) : Prop :=
  typed_by S m0 (clb g)
  /\ forall q, ~ is_perimeter X Y q -> slice_of g q = slice_of g0 q.

(** ** A size given by the user *)

(** The three tests of [init_arch] on the dimensions [nx] and [ny] that
    the user has given. *)
Definition user_size_too_small (g : globals) : bool :=
  (num_clbs g >? nx g * ny g)
  || (num_p_inputs g + num_p_outputs g >? 2 * io_rat g * (nx g + ny g)).

Definition single_location (g : globals) : bool :=
  (nx g =? 1) && (ny g =? 1) && negb (num_clbs g =? 0).

Definition beyond_short (g : globals) : bool :=
  (nx g >? 32766) || (ny g >? 32766).

(** The grid of [g'] is the one [init_arch] builds for the dimensions of
    [g]: the dimensions are kept, the two arrays of channel widths have
    [ny+1] and [nx+1] entries, every cell has the kind of its place and
    the perimeter cells hold the slices of the pool in carving order. *)
Definition grid_built (g g' : globals) : Prop :=
  nx g' = nx g /\ ny g' = ny g
  /\ length (chan_width_x g') = Z.to_nat (ny g + 1)
  /\ length (chan_width_y g') = Z.to_nat (nx g + 1)
  /\ (forall i j, 0 <= i <= nx g + 1 -> 0 <= j <= ny g + 1 ->
        cell_type (clb g') (i, j)
        = Some (grid_kind (nx g) (ny g) (i, j)))
  /\ carved_in_order g' (carve_sequence (nx g) (ny g)).

(** The circuit of 100 logic blocks with the size 10 by 10 given. *)
Definition sized_10x10 : globals := set_nx 10 (set_ny 10 circuit_100).

(** ** The pin lines of a file *)

(** The pin lines of the file in their order, their number, and the
    number of those of class [c]. *)
Definition pin_list (file : list (list string)) : list (list string) :=
  filter (fun l => is_pin_line l = true) file.

Definition pin_lines (file : list (list string)) : nat :=
  length (pin_list file).

Definition pins_of_class (file : list (list string)) (c : Z) : nat :=
  length (filter (fun l => line_class l = Some c) file).

(** The count of class [c] in the local array of [countpass]; a class
    beyond the array has no pin yet. *)
Definition count_of (ppc : list Z) (c : Z) : Z :=
  if 0 <=? c then default 0 (ppc !! Z.to_nat c) else 0.

(** The record of a class when [countpass] has allocated it for [n]
    pins. *)
Definition empty_class (n : Z) : s_class :=
  mk_class OPEN 0 (replicate (Z.to_nat n) None).

(** The globals when [alloc_classes] has run on the counts [ppc]. *)
Definition classes_allocated (ppc : list Z) (g : globals) : globals :=
  set_clb_pin_class (replicate (Z.to_nat (total ppc)) None)
    (set_pins_per_clb (total ppc)
       (set_class_inf (empty_class <$> ppc) g)).

(** A file of three pin lines in two classes. *)
Definition three_pin_file : list (list string) :=
  [["inpin"; "class:"; "0"; "top"];
   ["outpin"; "class:"; "1"; "bottom"];
   ["inpin"; "class:"; "0"; "left"; "right"]].

(** ** The tables of the loading pass *)

(** The tables that the pin lines fill, and the sizes they rely on. *)
Definition pin_state (g : globals) :=
  (class_inf g, clb_pin_class g, pinloc g, num_class g, pins_per_clb g).

(** The type of pin a pin line declares. *)
Definition line_kind (line : list string) : option e_pin_type :=
  match line with
  | p :: _ =>
      if strcmp_eq p "outpin" then Some DRIVER
      else if strcmp_eq p "inpin" then Some RECEIVER
      else None
  | [] => None
  end.

(** The position words of a pin line: what follows the keyword, [class:]
    and the class number. *)
Definition line_sides (line : list string) : list string := drop 3 line.

(** The flag of side [j] for the pin of the line. *)
Definition side_flag (line : list string) (j : nat) : Z :=
  if names_side (line_sides line) j then 1 else 0.

(** The numbers of the pins of class [c] among the pin lines [lines], the
    first of which declares pin [p]. *)
Fixpoint class_pins (lines : list (list string)) (p : Z) (c : Z)
  : list Z :=
  match lines with
  | [] => []
  | l :: ls =>
      (if decide (line_class l = Some c) then [p] else [])
      ++ class_pins ls (p + 1) c
  end.

(** What the loading pass has built when it has read the pin lines
    [pins], in a file of [P] pin lines in [NC] classes, of which [cap c]
    are of class [c]. *)
Record load_inv (P : nat) (NC : Z) (cap : Z -> nat)
    (pins : list (list string)) (pinnum : Z) (g : globals) : Prop := {
  li_pinnum : pinnum = Z.of_nat (length pins);
  li_cpc_length : length (clb_pin_class g) = P;
  li_cpc : forall p line, pins !! p = Some line ->
             clb_pin_class g !! p = Some (line_class line);
  li_classes : Z.of_nat (length (class_inf g)) = num_class g;
  li_class : forall (k : nat) cl, class_inf g !! k = Some cl ->
      let own := class_pins pins 0 (Z.of_nat k) in
      num_pins cl = Z.of_nat (length own)
      /\ length (pinlist cl) = cap (Z.of_nat k)
      /\ take (length own) (pinlist cl) = Some <$> own
      /\ (forall line, In line pins ->
            line_class line = Some (Z.of_nat k) ->
            line_kind line = Some (class_type cl))
      /\ (class_type cl = OPEN -> own = []);
  li_pinloc_length : length (pinloc g) = 4%nat;
  li_pinloc : forall j p, (j < 4)%nat -> (p < P)%nat ->
      pinloc_at (pinloc g) j (Z.of_nat p) =
        Some (match pins !! p with
              | Some line => side_flag line j
              | None => 0
              end);
  li_ppc : pins_per_clb g = Z.of_nat P;
  li_num_class : num_class g = NC }.

(** An architecture file with three pins in two classes. *)
Definition arch_three_pins : list (list string) :=
  map words
    ["io_rat 2"; "chan_width_io 1"; "chan_width_x uniform 1";
     "chan_width_y uniform 1"; "outpin class: 1 top";
     "inpin class: 0 bottom left"; "inpin class: 0 right";
     "subblocks_per_cluster 1"; "subblock_lut_size 4"].

(** ** Channel lines *)

(** The range test of [get_float]: [v] is not [<= lo] and not [> hi]. *)
Definition in_range (v lo hi : spec_float) : bool :=
  negb (Float.le v lo || Float.gt v hi).

(** The words [toks] after a channel keyword describe the distribution
    [c], for a channel that was [old]: [uniform] with a peak, [delta]
    with peak, position and dc level, [gaussian] or [pulse] with peak,
    width, position and dc level, each value within its limits. *)
Definition chan_values (atof : string -> spec_float) (old : s_chan)
    (toks : list string) (c : s_chan) : Prop :=
  let val tok := Float.to_float (atof tok) in
  let unit_range v :=
    in_range v (Float.flit true 1 (-30)) (Float.flit false 1 0) in
  (exists tp,
     toks = ["uniform"; tp]
     /\ in_range (val tp) (Float.flit false 0 0) (Float.flit false 1 0)
        = true
     /\ c = mk_chan UNIFORM (val tp) (chan_width old) (chan_xpeak old)
              (Float.flit false 0 0))
  \/ (exists tp tx td,
        toks = ["delta"; tp; tx; td]
        /\ in_range (val tp) (Float.flit true 1 5) (Float.flit false 1 5)
           = true
        /\ unit_range (val tx) = true /\ unit_range (val td) = true
        /\ c = mk_chan DELTA (val tp) (chan_width old) (val tx) (val td))
  \/ (exists kw t tp tw tx td,
        toks = [kw; tp; tw; tx; td]
        /\ (kw = "gaussian" /\ t = GAUSSIAN \/ kw = "pulse" /\ t = PULSE)
        /\ in_range (val tp) (Float.flit true 1 0) (Float.flit false 1 0)
           = true
        /\ in_range (val tw) (Float.flit false 0 0) (Float.flit false 1 10)
           = true
        /\ unit_range (val tx) = true /\ unit_range (val td) = true
        /\ c = mk_chan t (val tp) (val tw) (val tx) (val td)).

(** ** The lines of a keyword and the value they load *)

(** The line starts with keyword [i]; the lines of the file that do. *)
Definition head_is (i : nat) (line : list string) : bool :=
  match line with
  | p :: _ => strcmp_eq p (name i)
  | [] => false
  end.

Definition lines_with (i : nat) (file : list (list string))
  : list (list string) :=
  filter (fun l => head_is i l = true) file.

(** The globals that the scalar keywords load. *)
Definition scalars (g : globals) :=
  (io_rat g, chan_width_io g, max_subblocks_per_block g,
   subblock_lut_size g, det_routing_arch g).

Inductive scalar_value :=
  | V_int (z : Z)
  | V_float (x : spec_float)
  | V_Fc (t : e_Fc_type)
  | V_switch (t : e_switch_block_type)
  | V_none.

(** The global of keyword [i]; the channel and pin keywords have none of
    this kind. *)
Definition field_of (i : nat)
    (s : Z * spec_float * Z * Z * s_det_routing_arch) : scalar_value :=
  let '(r, w, m, l, d) := s in
  match i with
  | 0%nat => V_int r
  | 3%nat => V_float w
  | 6%nat => V_int m
  | 7%nat => V_int l
  | 8%nat => V_float (Fc_output d)
  | 9%nat => V_float (Fc_input d)
  | 10%nat => V_float (Fc_pad d)
  | 11%nat => V_Fc (Fc_type d)
  | 12%nat => V_switch (switch_block_type d)
  | _ => V_none
  end.

Definition field (i : nat) (g : globals) : scalar_value :=
  field_of i (scalars g).

(** The line gives the value [v]: an integer line has one word after
    the keyword, read by [atoi] and positive; a float line has its value
    in the first word after the keyword; an [Fc_type] or
    [switch_block_type] line has one word after the keyword, the name of
    the value. *)
Definition line_says (atof : string -> spec_float) (line : list string)
    (v : scalar_value) : Prop :=
  match v, line with
  | V_int z, [_; tok] => atoi tok = Some z /\ 0 < z
  | V_float x, _ :: tok :: _ => x = Float.to_float (atof tok)
  | V_Fc t, [_; w] =>
      (w = "absolute" /\ t = ABSOLUTE) \/ (w = "fractional" /\ t = FRACTIONAL)
  | V_switch t, [_; w] =>
      (w = "subset" /\ t = SUBSET) \/ (w = "wilton" /\ t = WILTON)
      \/ (w = "universal" /\ t = UNIVERSAL)
  | _, _ => False
  end.

(** What the lines read so far leave of keyword [j]: its counter, the
    size of the counter array and the scalars; and the same with the
    global of the keyword alone. *)
Definition counter_scalars (j : nat) (g : globals) :=
  (isread g !! j, length (isread g), scalars g).

Definition counter_field (j : nat) (g : globals) :=
  (isread g !! j, length (isread g), field j g).

(** What the loading pass knows of keyword [j] after the lines [done]:
    the counter is the number of lines of the keyword, and the global
    holds what the last of them says. *)
Definition scalar_inv (atof : string -> spec_float) (j : nat)
    (done : list (list string)) (g : globals) : Prop :=
  isread g !! j = Some (Z.of_nat (length (lines_with j done)))
  /\ length (isread g) = 13%nat
  /\ forall line, last (lines_with j done) = Some line ->
       field j g <> V_none -> line_says atof line (field j g).

(** What the loading pass knows of a channel keyword [j] after the lines
    [done]: the counter does not exceed the number of lines of the
    keyword. *)
Definition chan_inv (j : nat) (done : list (list string)) (g : globals)
  : Prop :=
  exists n,
    isread g !! j = Some n
    /\ 0 <= n <= Z.of_nat (length (lines_with j done))
    /\ length (isread g) = 13%nat.

(** * Properties *)

(** ** Reasoning about the monad *)

Lemma bind_Ok {A B} (m : M A) (k : A -> M B) g a g' :
  m g = Ok a g' -> bind m k g = k a g'.
Proof. intros H. unfold bind. now rewrite H. Qed.

Lemma bind_Exit {A B} (m : M A) (k : A -> M B) g out :
  m g = Exit out -> bind m k g = Exit out.
Proof. intros H. unfold bind. now rewrite H. Qed.

Lemma bind_Ok_inv {A B} (m : M A) (k : A -> M B) g b g' :
  bind m k g = Ok b g' -> exists a g1, m g = Ok a g1 /\ k a g1 = Ok b g'.
Proof.
  unfold bind. destruct (m g) as [a g1| |]; try discriminate. eauto.
Qed.

Lemma int_Ok z g : in_int z = true -> int z g = Ok z g.
Proof. intros H. unfold int. now rewrite H. Qed.

Lemma in_int_spec z : in_int z = true <-> INT_MIN <= z <= INT_MAX.
Proof. unfold in_int. rewrite andb_true_iff, !Z.leb_le. tauto. Qed.

Ltac unfold_monad :=
  unfold bind, ret, gets, modify, printf, exit, undef, my_fgets, my_strtok,
    skip_to_end_of_line.

(** ** Files without pin lines *)

Lemma countpass_line_no_pin line ppc g :
  is_pin_line line = false ->
  exists g', countpass_line line ppc g = Ok ppc g'
             /\ num_class g' = num_class g /\ stdout g' = stdout g.
Proof.
  intros H. unfold countpass_line. destruct line as [|p rest].
  - eexists. split; [reflexivity|]. split; reflexivity.
  - simpl in H. unfold_monad. cbn. rewrite H. cbn.
    eexists. split; [reflexivity|]. split; reflexivity.
Qed.

Lemma countpass_scan_no_pin file : forall ppc g,
  forallb (fun l => negb (is_pin_line l)) file = true ->
  exists g', countpass_scan file ppc g = Ok ppc g'
             /\ num_class g' = num_class g /\ stdout g' = stdout g.
Proof.
  induction file as [|line file IH]; intros ppc g H; simpl in *.
  - eexists. split; [reflexivity|]. split; reflexivity.
  - apply andb_true_iff in H as [H1 H2]. apply negb_true_iff in H1.
    destruct (countpass_line_no_pin line ppc g H1) as (g1 & E1 & N1 & S1).
    rewrite (bind_Ok _ _ _ _ _ E1).
    destruct (IH ppc g1 H2) as (g2 & E2 & N2 & S2).
    exists g2. split; [exact E2|]. split; congruence.
Qed.

(** C10. A file without any [inpin] or [outpin] line makes the count pass
    exit with "class index 0 not used ... not consecutive": the class
    count starts at 1 and its only slot stays at zero.  Nothing else is
    printed: the loading pass and [check_arch] are never reached, so no
    diagnostic about missing pin lines appears. *)
Theorem read_arch_without_pin_lines atof arch_file file route_type g :
  forallb (fun l => negb (is_pin_line l)) file = true ->
  countpass file g =
    Exit (stdout g ++ [Err_class_index_not_used 0;
                       Err_class_indices_not_consecutive])
  /\ read_arch atof arch_file file route_type g =
    Exit (stdout g ++ [Err_class_index_not_used 0;
                       Err_class_indices_not_consecutive]).
Proof.
  intros H.
  assert (C : countpass file g =
    Exit (stdout g ++ [Err_class_index_not_used 0;
                       Err_class_indices_not_consecutive])).
  { unfold countpass.
    set (g0 := set_num_class 1 (set_linenum 0 g)).
    destruct (countpass_scan_no_pin file (replicate 1 0) g0 H)
      as (g1 & E & N & S).
    change (bind (countpass_scan file (replicate 1 0))
              (fun ppc => check_missing_classes ppc ;; alloc_classes ppc) g0
            = Exit (stdout g ++ [Err_class_index_not_used 0;
                                 Err_class_indices_not_consecutive])).
    rewrite (bind_Ok _ _ _ _ _ E).
    unfold check_missing_classes, for_range. unfold_monad.
    rewrite N. cbn. change (Z.to_nat (1 - 0)) with 1%nat. cbn.
    change (Z.to_nat 0) with 0%nat. unfold bind. cbn. rewrite S. cbn.
    now rewrite <- app_assoc. }
  split; [exact C|].
  unfold read_arch. now rewrite (bind_Exit _ _ _ _ C).
Qed.

Lemma read_arch_without_pin_lines_witness :
  read_arch atof_decimal "k4.arch"
    [words "io_rat 2"; words "chan_width_io 1"; words "subblock_lut_size 4"]
    GLOBAL initial_globals =
  Exit [Err_class_index_not_used 0; Err_class_indices_not_consecutive].
Proof.
  apply (read_arch_without_pin_lines atof_decimal "k4.arch"
           [words "io_rat 2"; words "chan_width_io 1";
            words "subblock_lut_size 4"] GLOBAL initial_globals).
  reflexivity.
Defined.

(** ** The class number of a pin line *)

Lemma read_digits_count s : forall acc n v n' r,
  read_digits s acc n = (v, n', r) -> n <= n' /\ (n' = n -> v = acc).
Proof.
  induction s as [|c s IH]; intros acc n v n' r H; simpl in H.
  - injection H as <- <- <-. split; [lia | reflexivity].
  - destruct (digit_val c) as [d|].
    + apply IH in H as [H1 H2]. split; [lia | intros ->; lia].
    + injection H as <- <- <-. split; [lia | reflexivity].
Qed.

Lemma atoi_no_digits tok : no_digits tok = true -> atoi tok = Some 0.
Proof.
  unfold no_digits, atoi.
  destruct (read_sign (skip_space tok)) as [neg s1]. simpl.
  destruct (read_digits s1 0 0) as [[v n] r] eqn:E.
  intros H. apply Z.eqb_eq in H.
  apply read_digits_count in E as [_ E]. rewrite (E H).
  now destruct neg.
Qed.

Lemma get_class_number g tok rest c :
  atoi tok = Some c ->
  get_class (set_strtok_rest ("class:" :: tok :: rest) g) =
    if c <? 0
    then Exit (stdout g ++ [Err_in_get_class (linenum g);
                            Expected_class_number_ge_0 c])
    else Ok c (set_strtok_rest rest g).
Proof.
  intros H. unfold get_class. unfold_monad. cbn. rewrite H.
  destruct (c <? 0); cbn; [now rewrite <- app_assoc | reflexivity].
Qed.

(** C9. On a pin line the class word is read with [atoi]: a word without
    a number there (such as [abc]) counts as class 0 and the line is
    accepted without any message; the class word is fatal only when its
    integer value is negative.  The file [arch_with_class_abc] loads
    without output and its [outpin] pin, pin 0, lands in class 0. *)
Theorem get_class_non_numeric_word g tok rest c :
  atoi tok = Some c ->
  (no_digits tok = true ->
   get_class (set_strtok_rest ("class:" :: tok :: rest) g) =
     Ok 0 (set_strtok_rest rest g))
  /\ ((exists out,
         get_class (set_strtok_rest ("class:" :: tok :: rest) g) = Exit out)
      <-> c < 0)
  /\ (0 <= c ->
      get_class (set_strtok_rest ("class:" :: tok :: rest) g) =
        Ok c (set_strtok_rest rest g))
  /\ atoi "abc" = Some 0
  /\ exists g',
       read_arch atof_decimal "k4.arch" arch_with_class_abc GLOBAL
         initial_globals = Ok tt g'
       /\ stdout g' = []
       /\ clb_pin_class g' = [Some 0; Some 1]
       /\ class_inf g' = [mk_class DRIVER 1 [Some 0];
                          mk_class RECEIVER 1 [Some 1]].
Proof.
  intros H. pose proof (get_class_number g tok rest c H) as G.
  repeat split.
  - intros N. rewrite (atoi_no_digits tok N) in H. injection H as <-.
    exact G.
  - intros [out E]. rewrite E in G.
    destruct (c <? 0) eqn:L; [lia | discriminate].
  - intros L. apply Z.ltb_lt in L. rewrite L in G. eauto.
  - intros L. apply Z.ltb_ge in L. now rewrite L in G.
  - eexists. split; [vm_compute; reflexivity|]. repeat split.
Qed.

Lemma get_class_non_numeric_word_witness :
  get_class (set_strtok_rest ["class:"; "abc"; "top"] initial_globals) =
    Ok 0 (set_strtok_rest ["top"] initial_globals).
Proof.
  apply (get_class_non_numeric_word initial_globals "abc" ["top"] 0);
    reflexivity.
Defined.

(** ** The scalar readers *)

Lemma incr_isread_Ok i n g :
  isread g !! i = Some n -> in_int (n + 1) = true ->
  incr_isread i g = Ok tt (set_isread (<[i := n + 1]> (isread g)) g).
Proof.
  intros H B. unfold incr_isread, isread_at, bind. rewrite H.
  now rewrite (int_Ok _ _ B).
Qed.

Lemma get_float_Ok atof i lo hi g tok rest :
  Float.le (Float.to_float (atof tok)) lo = false ->
  Float.gt (Float.to_float (atof tok)) hi = false ->
  get_float atof i lo hi (set_strtok_rest (tok :: rest) g) =
    Ok (Float.to_float (atof tok)) (set_strtok_rest rest g).
Proof.
  intros L U. unfold get_float. unfold_monad. cbn. now rewrite L, U.
Qed.

Lemma get_float_Exit atof i lo hi g tok rest :
  Float.le (Float.to_float (atof tok)) lo
  || Float.gt (Float.to_float (atof tok)) hi = true ->
  get_float atof i lo hi (set_strtok_rest (tok :: rest) g) =
    Exit (stdout g ++ [Err_bad_value_parsing (name i)
                         (Float.to_float (atof tok)) (linenum g)]).
Proof.
  intros C. unfold get_float. unfold_monad. cbn. now rewrite C.
Qed.

(** An architecture line made of a [float] keyword and one word leaves
    the keyword's counter one higher when it is accepted. *)
Lemma float_line_counts atof i tok pinnum n g p g' :
  In i [3; 8; 9; 10]%nat ->
  isread g !! i = Some n ->
  read_arch_line atof [name i; tok] pinnum g = Ok p g' ->
  p = pinnum /\ isread g' = <[i := n + 1]> (isread g).
Proof.
  intros Hi Hn.
  assert (I : forall (g1 : globals) (f : globals -> globals) p g',
    isread g1 = isread g ->
    (forall g2, isread (f g2) = isread g2) ->
    (modify f ;; incr_isread i ;; ret pinnum) g1 = Ok p g' ->
    p = pinnum /\ isread g' = <[i := n + 1]> (isread g)).
  { intros g1 f p0 g0 E F. unfold incr_isread, isread_at, int. unfold_monad.
    rewrite F, E, Hn. destruct (in_int (n + 1)); [|discriminate].
    intros [= <- <-]. cbn. now rewrite F, E. }
  unfold read_arch_line.
  destruct Hi as [<-|[<-|[<-|[<-|[]]]]]; cbn -[get_float incr_isread];
    unfold bind at 1; unfold my_fgets, modify;
    unfold bind at 1; unfold my_strtok; cbn -[get_float incr_isread];
    unfold bind at 1;
    match goal with
    | |- context [get_float ?a ?j ?lo ?hi ?s] =>
        destruct (get_float a j lo hi s) as [v g1| |] eqn:E;
        try discriminate;
        assert (isread g1 = isread g)
          by (revert E; unfold get_float; unfold_monad; cbn;
              match goal with
              | |- context [if ?c then _ else _] => destruct c
              end; [discriminate | now intros [= <- <-]])
    end;
    intros R; (eapply I; [eassumption | | exact R]); reflexivity.
Qed.

(** C1 (as the code has it).  The integer reader takes one word, exits
    with "extra characters" when another word follows, and otherwise adds
    one to the keyword's counter.  The float reader takes one word and
    stops there: it neither looks at the rest of the line nor touches the
    counter (it is also called several times in a row on a channel line);
    on a [chan_width_io], [Fc_output], [Fc_input] or [Fc_pad] line the
    counter is incremented by [read_arch] once the float reader has
    returned. *)
Theorem scalar_readers atof i g tok rest :
  (forall v n,
     atoi tok = Some v -> 0 < v ->
     isread g !! i = Some n -> in_int (n + 1) = true ->
     get_int i (set_strtok_rest (tok :: rest) g) =
       match rest with
       | [] => Ok v (set_isread (<[i := n + 1]> (isread g))
                       (set_strtok_rest [] g))
       | _ :: _ => Exit (stdout g ++ [Err_extra_characters (linenum g)])
       end)
  /\ (forall lo hi,
        Float.le (Float.to_float (atof tok)) lo = false ->
        Float.gt (Float.to_float (atof tok)) hi = false ->
        get_float atof i lo hi (set_strtok_rest (tok :: rest) g) =
          Ok (Float.to_float (atof tok)) (set_strtok_rest rest g))
  /\ (forall j n pinnum p g',
        In j [3; 8; 9; 10]%nat ->
        isread g !! j = Some n ->
        read_arch_line atof [name j; tok] pinnum g = Ok p g' ->
        p = pinnum /\ isread g' = <[j := n + 1]> (isread g)).
Proof.
  split; [|split].
  - intros v n A P N B.
    unfold get_int. unfold_monad. cbn -[incr_isread]. rewrite A.
    destruct (v <=? 0) eqn:V; [lia|].
    destruct rest as [|x rest]; cbn -[incr_isread]; [|reflexivity].
    erewrite incr_isread_Ok; [reflexivity | exact N | exact B].
  - intros lo hi L U. now apply get_float_Ok.
  - intros j n pinnum p g' Hj Hn. now apply float_line_counts.
Qed.

Lemma scalar_readers_witness :
  get_int 0 (set_strtok_rest ["2"; "extra"] initial_globals) =
    Exit [Err_extra_characters 0]
  /\ atoi "0.5" = Some 0
  /\ get_float atof_decimal 8 (Float.flit false 0 0) (Float.flit false 1 20)
       (set_strtok_rest ["0.5"; "extra"] initial_globals) =
     Ok (Float.to_float (atof_decimal "0.5"))
       (set_strtok_rest ["extra"] initial_globals)
  /\ forall p g',
       read_arch_line atof_decimal [name 8; "0.5"] 0 initial_globals
         = Ok p g' ->
       p = 0 /\ isread g' = <[8%nat := 1]> (isread initial_globals).
Proof.
  split; [|split; [reflexivity|split]].
  - destruct (scalar_readers atof_decimal 0 initial_globals "2" ["extra"])
      as (H & _).
    exact (H 2 0 eq_refl ltac:(lia) eq_refl eq_refl).
  - destruct (scalar_readers atof_decimal 8 initial_globals "0.5"
                ["extra"]) as (_ & H & _).
    apply H; reflexivity.
  - intros p g'.
    destruct (scalar_readers atof_decimal 8 initial_globals "0.5" [])
      as (_ & _ & H).
    apply (H 8%nat 0 0 p g'); [do 1 right; left; reflexivity | reflexivity].
Defined.

(** C1 as stated fails on the float reader: called on the words
    [1 extra] it returns 1.0, leaves [extra] unread and the counters as
    they were; the line [chan_width_io 1 extra] is accepted, and a file
    with that line loads without any message. *)
Lemma float_reader_trailing_word_counterexample :
  get_float atof_decimal 3 (Float.flit false 0 0) (Float.flit false 5000 0)
    (set_strtok_rest ["1"; "extra"] initial_globals) =
    Ok (Float.flit false 1 0) (set_strtok_rest ["extra"] initial_globals)
  /\ ~ (exists out,
          read_arch_line atof_decimal (words "chan_width_io 1 extra") 0
            initial_globals = Exit out)
  /\ (exists g',
       read_arch_line atof_decimal (words "chan_width_io 1 extra") 0
         initial_globals = Ok 0 g'
       /\ stdout g' = []
       /\ chan_width_io g' = Float.flit false 1 0
       /\ isread g' !! 3%nat = Some 1)
  /\ exists g',
       read_arch atof_decimal "k4.arch" arch_with_extra_word GLOBAL
         initial_globals = Ok tt g'
       /\ stdout g' = [].
Proof.
  split; [reflexivity|]. split; [|split].
  - intros [out H]. vm_compute in H. discriminate.
  - eexists. split; [vm_compute; reflexivity|]. repeat split.
  - eexists. split; [vm_compute; reflexivity|]. reflexivity.
Qed.

(** ** Comparisons of floating-point values *)

Lemma SFcompare_antisym x y :
  SFcompare y x = option_map CompOpp (SFcompare x y).
Proof.
  destruct x as [sx|sx| |sx mx ex], y as [sy|sy| |sy my ey]; simpl;
    try reflexivity;
    try (destruct sx; reflexivity); try (destruct sy; reflexivity);
    try (destruct sx, sy; reflexivity).
  destruct sx, sy; simpl; try reflexivity;
    rewrite (Z.compare_antisym ex ey); destruct (ex ?= ey); simpl;
    try reflexivity; repeat f_equal; symmetry;
    exact (Pos.compare_cont_antisym mx my Eq).
Qed.

Lemma not_le_lt x y :
  Float.is_nan x = false -> Float.is_nan y = false ->
  negb (Float.le x y) = Float.lt y x.
Proof.
  intros Hx Hy. unfold Float.le, Float.lt, SFleb, SFltb.
  rewrite (SFcompare_antisym x y).
  destruct (SFcompare x y) as [[]|] eqn:E; try reflexivity.
  destruct x, y; simpl in *; try discriminate;
    repeat match goal with b : bool |- _ => destruct b end; discriminate.
Qed.

Lemma not_gt_le x y :
  Float.is_nan x = false -> Float.is_nan y = false ->
  negb (Float.gt x y) = Float.le x y.
Proof.
  intros Hx Hy. unfold Float.gt. change (SFltb y x) with (Float.lt y x).
  rewrite <- (not_le_lt x y Hx Hy).
  now rewrite negb_involutive.
Qed.

(** ** The peak of a delta distribution *)

Arguments name : simpl never.

Ltac float_cbn := cbn -[Float.le Float.gt Float.lt Float.flit Float.to_float].

(** C7 (as the code has it).  On a [delta] line whose other two
    values are in range, the peak [v] (a number, not a NaN) is accepted
    exactly when [-1e5 < v <= 1e5]: the lower bound is excluded, as for
    every value the float reader checks.  A rejected peak exits with the
    message that names the keyword and the value. *)
Theorem delta_peak_range atof (x : bool) n g tok tx td :
  let lo := Float.flit true 1 5 in
  let hi := Float.flit false 1 5 in
  let lo' := Float.flit true 1 (-30) in
  let hi' := Float.flit false 1 0 in
  let v := Float.to_float (atof tok) in
  let vx := Float.to_float (atof tx) in
  let vd := Float.to_float (atof td) in
  Float.is_nan v = false ->
  isread g !! inp_num_of x = Some n -> 0 <= n -> in_int (n + 1) = true ->
  Float.le vx lo' || Float.gt vx hi' = false ->
  Float.le vd lo' || Float.gt vd hi' = false ->
  if Float.lt lo v && Float.le v hi
  then exists g',
         get_chan atof (chan_of x) (inp_num_of x)
           (set_strtok_rest ["delta"; tok; tx; td] g) = Ok tt g'
         /\ chan_type (chan_get (chan_of x) g') = DELTA
         /\ chan_peak (chan_get (chan_of x) g') = v
  else get_chan atof (chan_of x) (inp_num_of x)
         (set_strtok_rest ["delta"; tok; tx; td] g) =
       Exit (stdout g ++ [Err_bad_value_parsing (name (inp_num_of x)) v
                            (linenum g)]).
Proof.
  intros lo hi lo' hi' v vx vd V N P B X D.
  rewrite <- (not_le_lt v lo V eq_refl), <- (not_gt_le v hi V eq_refl).
  rewrite <- negb_orb.
  assert (L : (inp_num_of x < length (isread g))%nat)
    by (eapply lookup_lt_Some; exact N).
  destruct x; unfold chan_of, inp_num_of in *;
    unfold get_chan, get_float, incr_isread, isread_at, assign_chan, int;
    unfold_monad; float_cbn; rewrite N, B; float_cbn;
    fold v; fold lo hi; destruct (Float.le v lo || Float.gt v hi) eqn:C;
    float_cbn; try reflexivity;
    fold vx; fold lo' hi'; rewrite X; float_cbn; fold vd; rewrite D;
    float_cbn; rewrite list_lookup_insert_eq by exact L;
    (destruct (n + 1 =? 0) eqn:Z0; [lia|]); float_cbn;
    (eexists; split; [reflexivity|]; split; reflexivity).
Qed.

Lemma delta_peak_range_witness :
  exists g',
    get_chan atof_decimal chan_x_ptr 1
      (set_strtok_rest ["delta"; "1e5"; "0.5"; "0.5"] initial_globals) =
      Ok tt g'
    /\ chan_type (chan_x_dist g') = DELTA
    /\ chan_peak (chan_x_dist g') = Float.flit false 1 5.
Proof.
  exact (delta_peak_range atof_decimal true 0 initial_globals
           "1e5" "0.5" "0.5" eq_refl eq_refl (Z.le_refl 0) eq_refl
           eq_refl eq_refl).
Defined.

(** C7 as stated fails at the lower end: -1e5 lies in the closed interval
    [-1e5, 1e5], yet the line [chan_width_x delta -1e5 0.5 0.5] is
    fatal. *)
Lemma delta_peak_lower_bound_counterexample :
  let v := Float.to_float (atof_decimal "-1e5") in
  Float.le (Float.flit true 1 5) v && Float.le v (Float.flit false 1 5)
    = true
  /\ get_chan atof_decimal chan_x_ptr 1
       (set_strtok_rest ["delta"; "-1e5"; "0.5"; "0.5"] initial_globals) =
     Exit [Err_bad_value_parsing "chan_width_x" v 0].
Proof. split; reflexivity. Qed.

(** ** An unknown distribution keyword *)

(** C3 (what the code does).  The test for an unknown keyword looks at the
    counter of the channel keyword, which an earlier line has already
    raised: the line [chan_width_x foo] after [chan_width_x uniform 1] is
    accepted without a message and the whole file loads.  The same line
    placed first is fatal with "distribution keyword unknown". *)
Theorem unknown_keyword_after_channel_line :
  (exists g',
     read_arch atof_decimal "k4.arch" arch_with_keyword_foo GLOBAL
       initial_globals = Ok tt g'
     /\ stdout g' = []
     /\ chan_type (chan_x_dist g') = UNIFORM
     /\ isread g' !! 1%nat = Some 1)
  /\ read_arch atof_decimal "k4.arch" arch_with_keyword_foo_first GLOBAL
       initial_globals =
     Exit [Err_distribution_keyword_unknown "chan_width_x" "foo"].
Proof.
  split; [|vm_compute; reflexivity].
  eexists. split; [vm_compute; reflexivity|]. repeat split.
Qed.

(** ** The completeness check *)

Lemma check_isread_Ok arch_file i fatal g c :
  isread g !! i = Some c ->
  check_isread arch_file i fatal g =
    Ok (fatal || negb (bool_decide (field_violations arch_file i c = [])))
       (set_stdout (stdout g ++ field_violations arch_file i c) g).
Proof.
  intros H. unfold check_isread, isread_at, field_violations, is_pin_keyword.
  unfold_monad. rewrite H. rewrite <- negb_orb.
  destruct ((i =? 4)%nat || (i =? 5)%nat); cbn.
  - destruct (c <? 1); cbn; destruct g; cbn;
      rewrite ?app_nil_r, ?orb_true_r, ?orb_false_r; reflexivity.
  - destruct (c =? 0) eqn:E0; destruct (c >? 1) eqn:E1; cbn; destruct g; cbn;
      rewrite <- ?app_assoc, ?app_nil_r, ?orb_true_r, ?orb_false_r;
      try reflexivity. 
Qed.

Lemma check_isread_loop_Ok arch_file n : forall i fatal g,
  (i + n <= length (isread g))%nat ->
  let vs := flat_map
              (fun i => field_violations arch_file i (nth i (isread g) 0))
              (seq i n) in
  check_isread_loop arch_file n i fatal g =
    Ok (fatal || negb (bool_decide (vs = [])))
       (set_stdout (stdout g ++ vs) g).
Proof.
  induction n as [|n IH]; intros i fatal g L; cbn.
  - destruct g; cbn. rewrite app_nil_r, orb_false_r. reflexivity.
  - destruct (lookup_lt_is_Some_2 (isread g) i) as [c Hc]; [lia|].
    rewrite (nth_lookup_Some _ _ 0 _ Hc).
    rewrite (bind_Ok _ _ _ _ _ (check_isread_Ok arch_file i fatal g c Hc)).
    rewrite IH by (cbn; lia). cbn. rewrite <- app_assoc. f_equal.
    rewrite <- orb_assoc. f_equal.
    destruct (field_violations arch_file i c); cbn; [|reflexivity].
    reflexivity.
Qed.

Lemma mandatory_seq route_type :
  mandatory route_type = seq 0 (Z.to_nat (num_to_check route_type)).
Proof. destruct route_type; reflexivity. Qed.

Lemma check_arch_completeness arch_file route_type det g :
  length (isread g) = 13%nat ->
  let vs := completeness_violations arch_file route_type (isread g) in
  check_arch arch_file route_type det g =
    match vs with
    | [] => if decide (route_type = DETAILED)
            then check_detailed det g else Ok tt g
    | _ :: _ => Exit (stdout g ++ vs)
    end.
Proof.
  intros L vs. unfold check_arch.
  rewrite (bind_Ok _ _ _ _ _
             (check_isread_loop_Ok arch_file
                (Z.to_nat (num_to_check route_type)) 0 false g
                ltac:(rewrite L; destruct route_type; vm_compute; lia))).
  rewrite <- mandatory_seq.
  fold (completeness_violations arch_file route_type (isread g)).
  fold vs. destruct vs as [|m vs']; cbn.
  - unfold bind, ret. destruct g; cbn. rewrite app_nil_r.
    destruct (decide (route_type = DETAILED)); reflexivity.
  - reflexivity.
Qed.

Ltac bool_to_Z :=
  repeat match goal with
    | H : (_ >? _) = _ |- _ => rewrite Z.gtb_ltb in H
    | H : (_ =? _) = true |- _ => apply Z.eqb_eq in H
    | H : (_ =? _) = false |- _ => apply Z.eqb_neq in H
    | H : (_ <? _) = true |- _ => apply Z.ltb_lt in H
    | H : (_ <? _) = false |- _ => apply Z.ltb_ge in H
    | H : (_ <=? _) = true |- _ => apply Z.leb_le in H
    | H : (_ <=? _) = false |- _ => apply Z.leb_gt in H
    end.

Lemma flat_map_nil {A B} (f : A -> list B) (l : list A) :
  flat_map f l = [] <-> forall a, In a l -> f a = [].
Proof.
  induction l as [|a l IH]; cbn.
  - split; [intros _ a [] | reflexivity].
  - split.
    + intros H. apply app_eq_nil in H as [H1 H2].
      intros b [<-|Hb]; [exact H1 | now apply IH].
    + intros H. rewrite (H a) by now left. apply IH. intros b Hb.
      apply H. now right.
Qed.

Lemma field_violations_nil arch_file i c :
  0 <= c ->
  field_violations arch_file i c = [] <->
  if is_pin_keyword i then 1 <= c else c = 1.
Proof.
  intros P. unfold field_violations. destruct (is_pin_keyword i).
  - destruct (c <? 1) eqn:E; bool_to_Z; split; intros H;
      try discriminate; try lia; reflexivity.
  - destruct (c =? 0) eqn:E0; destruct (c >? 1) eqn:E1; bool_to_Z; cbn;
      split; intros H; try discriminate; try lia; reflexivity.
Qed.

(** C4. [check_arch] looks at every mandatory keyword (all 13 for detailed
    routing, the first 8 otherwise): a keyword other than [outpin] and
    [inpin] is in violation when it was seen 0 times or more than once,
    [outpin] and [inpin] only when seen less than once.  Every violation is
    printed, in keyword order, and then the program exits once; without
    any violation this stage does not exit. *)
Theorem completeness_check arch_file route_type det g :
  length (isread g) = 13%nat ->
  (forall i, 0 <= nth i (isread g) 0) ->
  let vs := completeness_violations arch_file route_type (isread g) in
  (vs <> [] -> check_arch arch_file route_type det g = Exit (stdout g ++ vs))
  /\ (vs = [] ->
      check_arch arch_file route_type det g =
        if decide (route_type = DETAILED) then check_detailed det g
        else Ok tt g)
  /\ (vs = [] <->
      forall i, In i (mandatory route_type) ->
        if is_pin_keyword i then 1 <= nth i (isread g) 0
        else nth i (isread g) 0 = 1)
  /\ (forall i, In i (mandatory route_type) -> is_pin_keyword i = false ->
      (nth i (isread g) 0 = 0 -> In (Err_not_set (name i) arch_file) vs)
      /\ (nth i (isread g) 0 > 1 ->
          In (Err_set_times (name i) (nth i (isread g) 0) arch_file) vs))
  /\ (forall i, In i (mandatory route_type) -> is_pin_keyword i = true ->
      nth i (isread g) 0 < 1 ->
      In (Err_clb_has arch_file (nth i (isread g) 0) (name i)) vs).
Proof.
  intros L P vs.
  pose proof (check_arch_completeness arch_file route_type det g L) as C.
  fold vs in C. cbv zeta in C.
  assert (F : forall i m, In i (mandatory route_type) ->
            In m (field_violations arch_file i (nth i (isread g) 0)) ->
            In m vs).
  { intros i m Hi Hm. unfold vs, completeness_violations.
    apply in_flat_map. eauto. }
  split; [|split; [|split; [|split]]].
  - intros N. rewrite C. destruct vs; [congruence | reflexivity].
  - intros N. rewrite C, N. reflexivity.
  - unfold vs, completeness_violations. rewrite flat_map_nil.
    split; intros H i Hi; apply (field_violations_nil arch_file);
      try apply P; apply H, Hi.
  - intros i Hi K. split; intros H; apply (F i _ Hi);
      unfold field_violations; rewrite K.
    + rewrite H. cbn. now left.
    + apply in_or_app. right.
      destruct (nth i (isread g) 0 >? 1) eqn:E; [now left | bool_to_Z; lia].
  - intros i Hi K H. apply (F i _ Hi). unfold field_violations. rewrite K.
    destruct (nth i (isread g) 0 <? 1) eqn:E; [now left | bool_to_Z; lia].
Qed.

Lemma completeness_check_witness :
  check_arch "k4.arch" GLOBAL (det_routing_arch initial_globals)
    initial_globals =
  Exit [Err_not_set "io_rat" "k4.arch"; Err_not_set "chan_width_x" "k4.arch";
        Err_not_set "chan_width_y" "k4.arch";
        Err_not_set "chan_width_io" "k4.arch";
        Err_clb_has "k4.arch" 0 "outpin"; Err_clb_has "k4.arch" 0 "inpin";
        Err_not_set "subblocks_per_cluster" "k4.arch";
        Err_not_set "subblock_lut_size" "k4.arch"].
Proof.
  apply (completeness_check "k4.arch" GLOBAL (det_routing_arch initial_globals)
           initial_globals eq_refl).
  - intros i. do 14 (destruct i as [|i]; [vm_compute; discriminate|]).
    vm_compute. discriminate.
  - discriminate.
Defined.

(** ** The cross-field checks of detailed routing *)

Lemma orb3_true a b c : a || b || c = true <-> a = true \/ b = true \/ c = true.
Proof. destruct a, b, c; cbn; intuition discriminate. Qed.

Lemma check_detailed_tests det g :
  check_detailed det g =
    if channels_test g
    then Exit (stdout g ++ [Err_channels_not_equal_width])
    else if decide (Fc_type det = ABSOLUTE)
         then if absolute_test det
              then Exit (stdout g ++ [Err_Fc_absolute]) else Ok tt g
         else if fractional_test det
              then Exit (stdout g ++ [Err_Fc_fractional]) else Ok tt g.
Proof.
  unfold check_detailed. unfold_monad.
  fold (channels_test g). fold (absolute_test det). fold (fractional_test det).
  destruct (channels_test g); [reflexivity|].
  destruct (decide (Fc_type det = ABSOLUTE)).
  - destruct (absolute_test det); reflexivity.
  - destruct (fractional_test det); reflexivity.
Qed.

Lemma channels_test_false g :
  channels_test g = false <-> channels_uniform_equal g.
Proof.
  unfold channels_test, channels_uniform_equal, Float.ne.
  rewrite !orb_false_iff, !negb_false_iff, !bool_decide_eq_false.
  split.
  - intros [[[H1 H2] H3] H4]. repeat split; try assumption.
    + destruct (decide (chan_type (chan_x_dist g) = UNIFORM)); tauto.
    + destruct (decide (chan_type (chan_y_dist g) = UNIFORM)); tauto.
  - intros (H1 & H2 & H3 & H4). repeat split; try assumption; tauto.
Qed.

Lemma check_detailed_result det g :
  (cross_field_failure g det
   /\ exists m, check_detailed det g = Exit (stdout g ++ [m]))
  \/ (~ cross_field_failure g det /\ check_detailed det g = Ok tt g).
Proof.
  rewrite check_detailed_tests. unfold cross_field_failure.
  rewrite <- channels_test_false.
  unfold some_Fc_below_1, some_Fc_above_1. rewrite <- !orb3_true.
  fold (absolute_test det). fold (fractional_test det).
  destruct (channels_test g).
  { left. split; [left; discriminate | eauto]. }
  destruct (decide (Fc_type det = ABSOLUTE)) as [A|A].
  - destruct (absolute_test det).
    + left. split; [right; left; tauto | eauto].
    + right. split; [|reflexivity].
      intros [H|[[_ H]|[H _]]]; [tauto | discriminate | congruence].
  - assert (F : Fc_type det = FRACTIONAL)
      by (destruct (Fc_type det); congruence).
    destruct (fractional_test det).
    + left. split; [right; right; tauto | eauto].
    + right. split; [|reflexivity].
      intros [H|[[H _]|[_ H]]]; [tauto | congruence | discriminate].
Qed.

(** C5. For detailed routing and counts that pass the completeness check,
    [check_arch] exits exactly when the channel distributions are not both
    uniform with equal peaks equal to [chan_width_io], or the Fc type is
    absolute and one of the three Fc values is below 1, or the Fc type is
    fractional and one of them is above 1; otherwise it returns with the
    globals unchanged. *)
Theorem cross_field_check arch_file det g :
  length (isread g) = 13%nat ->
  completeness_violations arch_file DETAILED (isread g) = [] ->
  ((exists out, check_arch arch_file DETAILED det g = Exit out)
   <-> cross_field_failure g det)
  /\ (~ cross_field_failure g det ->
      check_arch arch_file DETAILED det g = Ok tt g).
Proof.
  intros L V.
  pose proof (check_arch_completeness arch_file DETAILED det g L) as C.
  cbv zeta in C. rewrite V in C. rewrite decide_True in C by reflexivity.
  rewrite C.
  destruct (check_detailed_result det g) as [[Y [m E]]|[N E]]; rewrite E.
  - split; [split; eauto | tauto].
  - split; [split; [intros [out O]; discriminate | tauto] | reflexivity].
Qed.

Lemma cross_field_check_witness :
  let g := set_isread (replicate 13 1) initial_globals in
  (exists out,
     check_arch "k4.arch" DETAILED (det_routing_arch g) g = Exit out)
  <-> cross_field_failure g (det_routing_arch g).
Proof.
  apply (cross_field_check "k4.arch"
           (det_routing_arch (set_isread (replicate 13 1) initial_globals))
           (set_isread (replicate 13 1) initial_globals));
    reflexivity.
Defined.

(** ** The grid *)

Lemma alloc_matrix_allocated hi1 hi2 :
  allocated (alloc_matrix 0 hi1 0 hi2) hi1 hi2.
Proof.
  intros i j Hi Hj. unfold alloc_matrix.
  rewrite lookup_gset_to_gmap. 
  rewrite option_guard_True; [eauto|].
  apply elem_of_list_to_set, list_elem_of_bind. exists i. split.
  - apply list_elem_of_fmap. exists j. split; [reflexivity|].
    apply elem_of_seqZ. lia.
  - apply elem_of_seqZ. lia.
Qed.

Lemma for_fold_inv {A} (Inv : Z -> A -> globals -> Prop)
    (body : Z -> A -> M A) n : forall i a g,
  Inv i a g ->
  (forall k a g, i <= k < i + Z.of_nat n -> Inv k a g ->
     exists a' g', body k a g = Ok a' g' /\ Inv (k + 1) a' g') ->
  exists a' g', for_fold n i body a g = Ok a' g'
                /\ Inv (i + Z.of_nat n) a' g'.
Proof.
  induction n as [|n IH]; intros i a g H0 Hstep.
  - exists a, g. split; [reflexivity|].
    now replace (i + Z.of_nat 0) with i by lia.
  - destruct (Hstep i a g ltac:(lia) H0) as (a1 & g1 & E1 & H1).
    destruct (IH (i + 1) a1 g1 H1) as (a2 & g2 & E2 & H2).
    { intros k a' g' Hk. apply Hstep. lia. }
    exists a2, g2. split.
    + cbn. now rewrite (bind_Ok _ _ _ _ _ E1).
    + now replace (i + Z.of_nat (S n)) with (i + 1 + Z.of_nat n) by lia.
Qed.

Lemma for_loop_inv (Inv : Z -> globals -> Prop) (body : Z -> M unit) n :
  forall i g,
  Inv i g ->
  (forall k g, i <= k < i + Z.of_nat n -> Inv k g ->
     exists g', body k g = Ok tt g' /\ Inv (k + 1) g') ->
  exists g', for_loop n i body g = Ok tt g' /\ Inv (i + Z.of_nat n) g'.
Proof.
  induction n as [|n IH]; intros i g H0 Hstep.
  - exists g. split; [reflexivity|]. now replace (i + Z.of_nat 0) with i by lia.
  - destruct (Hstep i g ltac:(lia) H0) as (g1 & E1 & H1).
    destruct (IH (i + 1) g1 H1) as (g2 & E2 & H2).
    { intros k g' Hk. apply Hstep. lia. }
    exists g2. split.
    + cbn. now rewrite (bind_Ok _ _ _ _ _ E1).
    + now replace (i + Z.of_nat (S n)) with (i + 1 + Z.of_nat n) by lia.
Qed.

Lemma assign_clb_Ok i j f g c :
  clb g !! (i, j) = Some c ->
  assign_clb i j f g = Ok tt (set_clb (<[(i, j) := f c]> (clb g)) g).
Proof. intros H. unfold assign_clb. now rewrite H. Qed.

Lemma set_clb_id g : set_clb (clb g) g = g.
Proof. now destruct g. Qed.

Lemma slice_insert_eq (m : gmap (Z * Z) s_clb) p idx c :
  slice (<[p := set_io_blocks idx c]> m) p = Some idx.
Proof. unfold slice. now rewrite lookup_insert_eq. Qed.

Lemma slice_insert_ne (m : gmap (Z * Z) s_clb) p q c :
  p <> q -> slice (<[p := c]> m) q = slice m q.
Proof. intros H. unfold slice. now rewrite lookup_insert_ne. Qed.

Lemma slice_insert_type (m : gmap (Z * Z) s_clb) p q t c :
  m !! p = Some c -> slice (<[p := set_clb_type t c]> m) q = slice m q.
Proof.
  intros H. unfold slice. destruct (decide (p = q)) as [<-|N].
  - now rewrite lookup_insert_eq, H.
  - now rewrite lookup_insert_ne.
Qed.

Lemma allocated_insert (m : gmap (Z * Z) s_clb) hi1 hi2 p c :
  allocated m hi1 hi2 -> allocated (<[p := c]> m) hi1 hi2.
Proof.
  intros H i j Hi Hj. destruct (decide (p = (i, j))) as [->|N].
  - rewrite lookup_insert_eq. eauto.
  - rewrite lookup_insert_ne by exact N. now apply H.
Qed.

Section FillArch.

Variable g0 : globals.
(** The values of [io_rat], [nx] and [ny]. *)
Variables r X Y : Z.
Hypothesis X_pos : 0 <= X.
Hypothesis Y_pos : 0 <= Y.

Local Abbreviation with_clb := (with_clb g0).
Local Abbreviation columns_carved := (columns_carved r Y).
Local Abbreviation rows_carved := (rows_carved r X).
Local Abbreviation columns_body := (columns_body r Y).
Local Abbreviation rows_body := (rows_body r X).
Local Abbreviation same_slices := (same_slices g0 X Y).

Lemma assign_clb_with i j f m :
  allocated m (X + 1) (Y + 1) ->
  0 <= i <= X + 1 -> 0 <= j <= Y + 1 ->
  exists c, m !! (i, j) = Some c
    /\ assign_clb i j f (with_clb m) = Ok tt (with_clb (<[(i, j) := f c]> m)).
Proof.
  intros A Hi Hj. destruct (A i j Hi Hj) as [c Hc]. exists c.
  split; [exact Hc|]. unfold with_clb.
  now rewrite (assign_clb_Ok i j f (set_clb m g0) c Hc).
Qed.

Lemma columns_loop m :
  allocated m (X + 1) (Y + 1) ->
  exists m',
    for_fold (Z.to_nat X) 1 columns_body 0 (with_clb m) =
      Ok (2 * X * r) (with_clb m')
    /\ allocated m' (X + 1) (Y + 1)
    /\ columns_carved (X + 1) m'.
Proof.
  intros A.
  destruct (for_fold_inv
    (fun k index g => exists m', g = with_clb m'
       /\ allocated m' (X + 1) (Y + 1)
       /\ index = 2 * (k - 1) * r /\ columns_carved k m')
    columns_body (Z.to_nat X) 1 0 (with_clb m))
    as (a & g & E & m' & -> & A' & -> & C).
  - exists m. split; [reflexivity|]. split; [exact A|]. split; [lia|].
    intros i Hi. lia.
  - intros k index g Hk (m1 & -> & A1 & -> & C1).
    destruct (assign_clb_with k 0 (set_io_blocks (2 * (k - 1) * r)) m1 A1)
      as (c1 & L1 & E1); [lia..|].
    pose (m2 := <[(k, 0) := set_io_blocks (2 * (k - 1) * r) c1]> m1).
    assert (A2 : allocated m2 (X + 1) (Y + 1)) by now apply allocated_insert.
    destruct (assign_clb_with k (Y + 1)
                (set_io_blocks (2 * (k - 1) * r + r)) m2 A2)
      as (c2 & L2 & E2); [lia..|].
    eexists _, _. split.
    + unfold columns_body. rewrite (bind_Ok _ _ _ _ _ E1).
      fold m2. rewrite (bind_Ok _ _ _ _ _ E2). reflexivity.
    + eexists. split; [reflexivity|]. split; [now apply allocated_insert|].
      split; [lia|]. intros i Hi.
      destruct (decide (i = k)) as [->|N].
      * split.
        -- rewrite slice_insert_ne by (intros [=]; lia).
           apply slice_insert_eq.
        -- rewrite slice_insert_eq. f_equal. lia.
      * rewrite !slice_insert_ne by (intros [=]; lia).
        unfold m2. rewrite !slice_insert_ne by (intros [=]; lia).
        apply C1. lia.
  - exists m'. rewrite E. rewrite Z2Nat.id in * by lia.
    split; [f_equal; lia|]. split; [exact A'|].
    now replace (X + 1) with (1 + X) by lia.
Qed.

Lemma rows_loop m :
  allocated m (X + 1) (Y + 1) ->
  columns_carved (X + 1) m ->
  exists m',
    for_fold (Z.to_nat Y) 1 rows_body (2 * X * r) (with_clb m) =
      Ok (2 * (X + Y) * r) (with_clb m')
    /\ allocated m' (X + 1) (Y + 1)
    /\ columns_carved (X + 1) m'
    /\ rows_carved (Y + 1) m'.
Proof.
  intros A C.
  destruct (for_fold_inv
    (fun k index g => exists m', g = with_clb m'
       /\ allocated m' (X + 1) (Y + 1)
       /\ index = 2 * X * r + 2 * (k - 1) * r
       /\ columns_carved (X + 1) m' /\ rows_carved k m')
    rows_body (Z.to_nat Y) 1 (2 * X * r) (with_clb m))
    as (a & g & E & m' & -> & A' & -> & C' & R).
  - exists m. split; [reflexivity|]. split; [exact A|]. split; [lia|].
    split; [exact C|]. intros j Hj. lia.
  - intros k index g Hk (m1 & -> & A1 & -> & C1 & R1).
    set (idx := 2 * X * r + 2 * (k - 1) * r).
    destruct (assign_clb_with 0 k (set_io_blocks idx) m1 A1)
      as (c1 & L1 & E1); [lia..|].
    pose (m2 := <[(0, k) := set_io_blocks idx c1]> m1).
    assert (A2 : allocated m2 (X + 1) (Y + 1)) by now apply allocated_insert.
    destruct (assign_clb_with (X + 1) k (set_io_blocks (idx + r)) m2 A2)
      as (c2 & L2 & E2); [lia..|].
    eexists _, _. split.
    + unfold rows_body. rewrite (bind_Ok _ _ _ _ _ E1).
      fold m2. rewrite (bind_Ok _ _ _ _ _ E2). reflexivity.
    + eexists. split; [reflexivity|]. split; [now apply allocated_insert|].
      split; [unfold idx; lia|]. split.
      * intros i Hi. rewrite !slice_insert_ne by (intros [=]; lia).
        unfold m2. rewrite !slice_insert_ne by (intros [=]; lia).
        now apply C1.
      * intros j Hj. destruct (decide (j = k)) as [->|N].
        -- split.
           ++ rewrite slice_insert_ne by (intros [=]; lia).
              unfold m2. rewrite slice_insert_eq. f_equal. unfold idx. lia.
           ++ rewrite slice_insert_eq. f_equal. unfold idx. lia.
        -- rewrite !slice_insert_ne by (intros [=]; lia).
           unfold m2. rewrite !slice_insert_ne by (intros [=]; lia).
           apply R1. lia.
  - exists m'. rewrite E. rewrite Z2Nat.id in * by lia.
    split; [f_equal; lia|]. split; [exact A'|]. split; [exact C'|].
    now replace (Y + 1) with (1 + Y) by lia.
Qed.

Lemma assign_type_same m g i j t :
  same_slices m g -> 0 <= i <= X + 1 -> 0 <= j <= Y + 1 ->
  exists g', assign_clb i j (set_clb_type t) g = Ok tt g'
             /\ same_slices m g'.
Proof.
  intros (m1 & -> & A1 & S1) Hi Hj.
  destruct (assign_clb_with i j (set_clb_type t) m1 A1 Hi Hj)
    as (c & L & E).
  eexists. split; [exact E|]. eexists. split; [reflexivity|].
  split; [now apply allocated_insert|].
  intros p. now rewrite (slice_insert_type m1 (i, j) p t c L).
Qed.

Lemma for_range_same m body lo hi g :
  same_slices m g ->
  (forall k g, lo <= k < hi -> same_slices m g ->
     exists g', body k g = Ok tt g' /\ same_slices m g') ->
  exists g', for_range lo hi body g = Ok tt g' /\ same_slices m g'.
Proof.
  intros S Hstep. unfold for_range.
  destruct (for_loop_inv (fun _ g => same_slices m g) body
              (Z.to_nat (hi - lo)) lo g S) as (g' & E & S').
  - intros k g1 Hk. apply Hstep. lia.
  - eauto.
Qed.

Lemma bind_same m (c : M unit) (k : M unit) g :
  (exists g', c g = Ok tt g' /\ same_slices m g') ->
  (forall g', same_slices m g' ->
     exists g'', k g' = Ok tt g'' /\ same_slices m g'') ->
  exists g'', (c ;; k) g = Ok tt g'' /\ same_slices m g''.
Proof.
  intros (g' & E & S) K. destruct (K g' S) as (g'' & E' & S').
  exists g''. split; [|exact S']. now rewrite (bind_Ok _ _ _ _ _ E).
Qed.

Lemma types_loops m g :
  same_slices m g ->
  exists g',
    (for_range 1 (X + 1) (fun i =>
       assign_clb i 0 (set_clb_type IO) ;;
       assign_clb i (Y + 1) (set_clb_type IO)) ;;
     for_range 1 (Y + 1) (fun i =>
       assign_clb 0 i (set_clb_type IO) ;;
       assign_clb (X + 1) i (set_clb_type IO)) ;;
     for_range 1 (X + 1) (fun i =>
       for_range 1 (Y + 1) (fun j =>
         assign_clb i j (set_clb_type CLB))) ;;
     assign_clb (X + 1) 0 (set_clb_type ILLEGAL) ;;
     assign_clb 0 0 (set_clb_type ILLEGAL) ;;
     assign_clb (X + 1) (Y + 1) (set_clb_type ILLEGAL) ;;
     assign_clb 0 (Y + 1) (set_clb_type ILLEGAL)) g = Ok tt g'
    /\ same_slices m g'.
Proof.
  intros S.
  apply bind_same.
  { apply for_range_same; [exact S|]. intros k g1 Hk S1.
    apply bind_same; [apply assign_type_same; [exact S1|lia..]|].
    intros g2 S2. apply assign_type_same; [exact S2|lia..]. }
  clear g S. intros g S. apply bind_same.
  { apply for_range_same; [exact S|]. intros k g1 Hk S1.
    apply bind_same; [apply assign_type_same; [exact S1|lia..]|].
    intros g2 S2. apply assign_type_same; [exact S2|lia..]. }
  clear g S. intros g S. apply bind_same.
  { apply for_range_same; [exact S|]. intros k g1 Hk S1.
    apply for_range_same; [exact S1|]. intros j g2 Hj S2.
    apply assign_type_same; [exact S2|lia..]. }
  clear g S. intros g S.
  apply bind_same; [apply assign_type_same; [exact S|lia..]|].
  clear g S. intros g S.
  apply bind_same; [apply assign_type_same; [exact S|lia..]|].
  clear g S. intros g S.
  apply bind_same; [apply assign_type_same; [exact S|lia..]|].
  clear g S. intros g S.
  apply assign_type_same; [exact S|lia..].
Qed.

End FillArch.

(** The list [f s, h s, f (s+1), h (s+1), ...] of [2n] cells. *)
Lemma pairs_bind_cons (f h : Z -> Z * Z) s n :
  0 < n ->
  (i ← seqZ s n; [f i; h i]) =
    f s :: h s :: (i ← seqZ (s + 1) (n - 1); [f i; h i]).
Proof.
  intros H. rewrite (seqZ_cons s n H).
  replace (Z.succ s) with (s + 1) by lia.
  replace (Z.pred n) with (n - 1) by lia. reflexivity.
Qed.

Lemma pairs_length (f h : Z -> Z * Z) n : forall s,
  length (i ← seqZ s (Z.of_nat n); [f i; h i]) = (2 * n)%nat.
Proof.
  induction n as [|n IH]; intros s.
  - reflexivity.
  - rewrite pairs_bind_cons by lia.
    replace (Z.of_nat (S n) - 1) with (Z.of_nat n) by lia.
    cbn [length]. rewrite IH. lia.
Qed.

Lemma pairs_lookup (f h : Z -> Z * Z) n : forall s k c,
  (i ← seqZ s (Z.of_nat n); [f i; h i]) !! k = Some c ->
  exists i, s <= i < s + Z.of_nat n
    /\ ((Z.of_nat k = 2 * (i - s) /\ c = f i)
        \/ (Z.of_nat k = 2 * (i - s) + 1 /\ c = h i)).
Proof.
  induction n as [|n IH]; intros s k c H.
  - discriminate.
  - rewrite pairs_bind_cons in H by lia.
    replace (Z.of_nat (S n) - 1) with (Z.of_nat n) in H by lia.
    destruct k as [|[|k]]; cbn in H.
    + injection H as <-. exists s. split; [lia|]. left.
      split; [lia|reflexivity].
    + injection H as <-. exists s. split; [lia|]. right.
      split; [lia|reflexivity].
    + apply IH in H as (i & Hi & H). exists i. split; [lia|].
      destruct H as [[K ->]|[K ->]]; [left|right]; split; (lia || reflexivity).
Qed.

Lemma carve_sequence_length nx ny :
  0 <= nx -> 0 <= ny ->
  Z.of_nat (length (carve_sequence nx ny)) = 2 * (nx + ny).
Proof.
  intros Hx Hy. unfold carve_sequence. rewrite length_app.
  rewrite <- (Z2Nat.id nx Hx) at 1. rewrite <- (Z2Nat.id ny Hy) at 1.
  rewrite !pairs_length. lia.
Qed.

Lemma carved_from_loops g nx ny :
  0 <= nx -> 0 <= ny ->
  columns_carved (io_rat g) ny (nx + 1) (clb g) ->
  rows_carved (io_rat g) nx (ny + 1) (clb g) ->
  carved_in_order g (carve_sequence nx ny).
Proof.
  intros Hx Hy C R k cell H. unfold carve_sequence in H.
  unfold slice_of. change (slice (clb g) cell = Some (Z.of_nat k * io_rat g)).
  apply lookup_app_Some in H as [H|[L H]].
  - rewrite <- (Z2Nat.id nx Hx) in H at 1.
    apply pairs_lookup in H as (i & Hi & [[K ->]|[K ->]]);
      destruct (C i ltac:(lia)) as [C1 C2].
    + rewrite C1, K; f_equal; lia.
    + rewrite C2, K; f_equal; lia.
  - rewrite <- (Z2Nat.id nx Hx) in L at 1. rewrite pairs_length in L.
    rewrite <- (Z2Nat.id nx Hx) in H at 1. rewrite pairs_length in H.
    rewrite <- (Z2Nat.id ny Hy) in H at 1.
    apply pairs_lookup in H as (j & Hj & [[K ->]|[K ->]]);
      destruct (R j ltac:(lia)) as [R1 R2].
    + rewrite R1. f_equal.
      replace (Z.of_nat k) with (2 * nx + 2 * (j - 1)) by lia. reflexivity.
    + rewrite R2. f_equal.
      replace (Z.of_nat k) with (2 * nx + 2 * (j - 1) + 1) by lia. reflexivity.
Qed.

Lemma fill_arch_Ok g :
  0 <= nx g -> 0 <= ny g ->
  allocated (clb g) (nx g + 1) (ny g + 1) ->
  in_int (2 * io_rat g) = true ->
  in_int (nx g + ny g) = true ->
  in_int (2 * io_rat g * (nx g + ny g)) = true ->
  in_int (nx g + 1) = true ->
  in_int (ny g + 1) = true ->
  exists m,
    fill_arch g = Ok tt (set_clb m g)
    /\ columns_carved (io_rat g) (ny g) (nx g + 1) m
    /\ rows_carved (io_rat g) (nx g) (ny g + 1) m.
Proof.
  intros Hx Hy A B1 B2 B3 B4 B5.
  destruct (columns_loop g (io_rat g) (nx g) (ny g) Hx Hy (clb g) A)
    as (m1 & E1 & A1 & C1).
  unfold with_clb in E1. rewrite set_clb_id in E1.
  destruct (rows_loop g (io_rat g) (nx g) (ny g) Hx Hy m1 A1 C1)
    as (m2 & E2 & A2 & C2 & R2).
  destruct (types_loops g (nx g) (ny g) Hx Hy m2 (with_clb g m2))
    as (g' & E3 & m3 & -> & A3 & S3).
  { exists m2. split; [reflexivity|]. split; [exact A2|]. reflexivity. }
  exists m3. split.
  - unfold fill_arch.
    unfold bind at 1. unfold gets at 1.
    unfold bind at 1. unfold gets at 1.
    unfold bind at 1. unfold gets at 1.
    unfold bind at 1. rewrite (int_Ok _ _ B1).
    unfold bind at 1. rewrite (int_Ok _ _ B2).
    unfold bind at 1. rewrite (int_Ok _ _ B3).
    unfold bind at 1. rewrite (int_Ok _ _ B5).
    unfold bind at 1. rewrite (int_Ok _ _ B4).
    eapply eq_trans; [eapply bind_Ok; exact E1|]. cbv beta.
    eapply eq_trans; [eapply bind_Ok; exact E2|]. cbv beta.
    replace (nx g + 1 - 1) with (nx g) in * by lia.
    exact E3.
  - split; intros i Hi.
    + rewrite !S3. now apply C2.
    + rewrite !S3. now apply R2.
Qed.

Lemma carve_sequence_perimeter nx ny cell :
  cell ∈ carve_sequence nx ny <-> is_perimeter nx ny cell.
Proof.
  unfold carve_sequence, is_perimeter. destruct cell as [i j]. cbn.
  rewrite elem_of_app, !list_elem_of_bind. split.
  - intros [(k & H & K)|(k & H & K)]; apply elem_of_seqZ in K;
      (apply elem_of_cons in H as [H|H];
       [|apply list_elem_of_singleton in H]); injection H as -> ->; lia.
  - intros [[H [->| ->]]|[H [->| ->]]].
    + left. exists i. split; [now left | apply elem_of_seqZ; lia].
    + left. exists i. split; [right; now left | apply elem_of_seqZ; lia].
    + right. exists j. split; [now left | apply elem_of_seqZ; lia].
    + right. exists j. split; [right; now left | apply elem_of_seqZ; lia].
Qed.

(** C2 (as the code has it).  [fill_arch] gives every perimeter cell a
    slice of [io_rat] consecutive slots of one pool of
    [2*io_rat*(nx+ny)] slots, and carves the slices in this order: first,
    by increasing column, the cell of row 0 and then the cell of row
    [ny+1] of the column; after these, by increasing row, the cell of
    column 0 and then the cell of column [nx+1] of the row.  The slices
    follow each other without gap and use up the pool. *)
Theorem fill_arch_carve_order g :
  0 <= nx g -> 0 <= ny g ->
  allocated (clb g) (nx g + 1) (ny g + 1) ->
  in_int (2 * io_rat g) = true ->
  in_int (nx g + ny g) = true ->
  in_int (2 * io_rat g * (nx g + ny g)) = true ->
  in_int (nx g + 1) = true ->
  in_int (ny g + 1) = true ->
  exists g',
    fill_arch g = Ok tt g'
    /\ io_rat g' = io_rat g /\ nx g' = nx g /\ ny g' = ny g
    /\ carved_in_order g' (carve_sequence (nx g) (ny g))
    /\ (forall cell, is_perimeter (nx g) (ny g) cell <->
                     cell ∈ carve_sequence (nx g) (ny g))
    /\ Z.of_nat (length (carve_sequence (nx g) (ny g))) * io_rat g
       = 2 * io_rat g * (nx g + ny g).
Proof.
  intros Hx Hy A B1 B2 B3 B4 B5.
  destruct (fill_arch_Ok g Hx Hy A B1 B2 B3 B4 B5) as (m & E & C & R).
  exists (set_clb m g). split; [exact E|]. repeat split.
  - apply carved_from_loops; assumption.
  - apply carve_sequence_perimeter.
  - apply carve_sequence_perimeter.
  - rewrite carve_sequence_length by assumption. lia.
Qed.

Lemma fill_arch_carve_order_witness :
  exists g',
    fill_arch grid_2x1 = Ok tt g'
    /\ carved_in_order g' (carve_sequence 2 1).
Proof.
  destruct (fill_arch_carve_order grid_2x1) as (g' & E & _ & _ & _ & C & _);
    try reflexivity; try (cbn; lia).
  - apply (alloc_matrix_allocated 3 2).
  - exists g'. split; [exact E | exact C].
Defined.

(** C2 as stated fails: on the 2-by-1 grid the first slice goes to cell
    (1,0), in row 0, and the cell (3,1) of the last column gets the last
    slice, at offset 15; in the order of the specification that cell
    would come first, at offset 0. *)
Lemma carve_order_counterexample :
  exists g',
    fill_arch grid_2x1 = Ok tt g'
    /\ slice_of g' (1, 0) = Some 0
    /\ slice_of g' (3, 1) = Some 15
    /\ spec_carve_sequence 2 1 !! 0%nat = Some (3, 1)
    /\ ~ carved_in_order g' (spec_carve_sequence 2 1).
Proof.
  eexists. split; [vm_compute; reflexivity|].
  split; [reflexivity|]. split; [reflexivity|]. split; [reflexivity|].
  intros H. specialize (H 0%nat (3, 1) eq_refl). vm_compute in H.
  discriminate.
Qed.

(** ** The classes of the count pass *)

Lemma get_class_Ok_inv g c g' :
  get_class g = Ok c g' ->
  exists kw tok rest,
    strtok_rest g = kw :: tok :: rest /\ strcmp_eq kw "class:" = true
    /\ atoi tok = Some c /\ 0 <= c /\ g' = set_strtok_rest rest g.
Proof.
  unfold get_class. unfold_monad.
  destruct (strtok_rest g) as [|kw [|tok rest]] eqn:E; cbn.
  - discriminate.
  - destruct (strcmp_eq kw "class:"); cbn; discriminate.
  - destruct (strcmp_eq kw "class:") eqn:K; cbn; [|discriminate].
    destruct (atoi tok) as [v|] eqn:A; [|discriminate].
    destruct (v <? 0) eqn:V; cbn; [discriminate|].
    intros [= <- <-]. bool_to_Z. exists kw, tok, rest.
    repeat split; assumption.
Qed.

Lemma int_Ok_inv z g a g' :
  int z g = Ok a g' -> in_int z = true /\ a = z /\ g' = g.
Proof.
  unfold int. destruct (in_int z); [|discriminate].
  unfold ret. intros [= <- <-]. auto.
Qed.

Lemma count_inv_ext g0 (U V : Z -> Prop) ppc g :
  (forall c, U c <-> V c) -> count_inv g0 U ppc g -> count_inv g0 V ppc g.
Proof.
  intros E [L S C B T]. split; try assumption.
  - intros c n H. destruct (C c n H) as [P Q]. split; [exact P|].
    now rewrite <- E.
  - intros c H. apply B. now apply E.
  - destruct T as [T|T]; [now left | right; now apply E].
Qed.

Lemma countpass_line_inv g0 U line ppc g ppc' g' :
  count_inv g0 U ppc g ->
  countpass_line line ppc g = Ok ppc' g' ->
  count_inv g0 (fun c => U c \/ line_class line = Some c) ppc' g'.
Proof.
  intros I. unfold countpass_line.
  unfold bind at 1. unfold my_fgets, modify.
  unfold bind at 1. unfold my_strtok. cbn [strtok_rest set_strtok_rest].
  destruct line as [|p rest].
  { cbn. unfold ret. intros [= <- <-].
    apply (count_inv_ext g0 U); [cbn; intuition discriminate|].
    destruct I as [L S C B T]. split; assumption. }
  cbn [line_class is_pin_line].
  destruct (strcmp_eq p "inpin" || strcmp_eq p "outpin") eqn:P;
    cbn -[get_class].
  2:{ unfold bind, ret, skip_to_end_of_line, modify. intros [= <- <-].
      apply (count_inv_ext g0 U).
      - intros c. destruct rest as [|kw [|tok r]]; intuition discriminate.
      - destruct I as [L S C B T]. split; assumption. }
  unfold bind at 1. unfold bind at 1.
  match goal with
  | |- context [get_class ?s] => destruct (get_class s) as [c g1| |] eqn:G
  end; try discriminate.
  apply get_class_Ok_inv in G as (kw & tok & r & R & K & A & Pc & ->).
  cbn in R. subst rest. rewrite K. cbn [andb].
  destruct I as [L S C B T].
  intros H.
  match type of H with
  | match ?m with _ => _ end = _ =>
      destruct m as [a g2| |] eqn:H2; try discriminate
  end.
  unfold bind, skip_to_end_of_line, modify, ret in H. injection H as <- <-.
  apply bind_Ok_inv in H2 as (nc & gA & E0 & H2).
  unfold gets in E0. injection E0 as <- <-.
  apply bind_Ok_inv in H2 as (ppc1 & gB & E1 & H2).
  cbn [num_class set_strtok_rest set_linenum] in E1.
  destruct (c >=? num_class g) eqn:Ext.
  - (* the table grows *)
    apply bind_Ok_inv in E1 as (nc' & gC & Ei & E1).
    apply int_Ok_inv in Ei as (Bc & -> & ->).
    unfold bind, modify, ret in E1. injection E1 as <- <-.
    assert (Ge : num_class g <= c)
      by (rewrite Z.geb_leb in Ext; bool_to_Z; lia).
    assert (Lk : (ppc ++ replicate (Z.to_nat (c + 1 - num_class g)) 0)
                   !! Z.to_nat c = Some 0).
    { rewrite lookup_app_r by lia. apply lookup_replicate_2. lia. }
    rewrite Lk in H2.
    apply bind_Ok_inv in H2 as (n' & gD & Ei & H2).
    apply int_Ok_inv in Ei as (_ & -> & ->).
    unfold ret in H2. injection H2 as <- <-. split; cbn.
    + rewrite length_insert, length_app, length_replicate. lia.
    + exact S.
    + intros i n H. destruct (decide (i = Z.to_nat c)) as [->|N].
      * rewrite list_lookup_insert_eq in H
          by (rewrite length_app, length_replicate; lia).
        injection H as <-. split; [lia|]. split; [|lia].
        intros _. right. rewrite A. f_equal. lia.
      * rewrite list_lookup_insert_ne in H by congruence.
        destruct (decide (i < length ppc)%nat) as [Lt|Ge'].
        -- rewrite lookup_app_l in H by exact Lt.
           destruct (C i n H) as [C1 C2]. split; [exact C1|].
           rewrite C2. split; [now left|].
           intros [H'|H']; [exact H'|]. rewrite A in H'. injection H' as H'.
           lia.
        -- rewrite lookup_app_r in H by lia.
           apply lookup_replicate in H as [-> _]. split; [lia|].
           split; [congruence|]. intros [H'|H'].
           ++ apply B in H'. lia.
           ++ rewrite A in H'. injection H' as H'. lia.
    + intros i [H|H]; [apply B in H; lia|].
      rewrite A in H. injection H as <-. lia.
    + right. right. rewrite A. f_equal. lia.
  - (* the table is large enough *)
    unfold ret in E1. injection E1 as <- <-.
    assert (Lt : c < num_class g) by (rewrite Z.geb_leb in Ext; bool_to_Z; lia).
    destruct (lookup_lt_is_Some_2 ppc (Z.to_nat c)) as [n Hn]; [lia|].
    rewrite Hn in H2.
    apply bind_Ok_inv in H2 as (n' & gD & Ei & H2).
    apply int_Ok_inv in Ei as (_ & -> & ->).
    unfold ret in H2. injection H2 as <- <-. split; cbn.
    + rewrite length_insert. exact L.
    + exact S.
    + intros i k H. destruct (decide (i = Z.to_nat c)) as [->|N].
      * rewrite list_lookup_insert_eq in H by lia. injection H as <-.
        destruct (C _ _ Hn) as [C1 _]. split; [lia|]. split; [|lia].
        intros _. right. rewrite A. f_equal. lia.
      * rewrite list_lookup_insert_ne in H by congruence.
        destruct (C i k H) as [C1 C2]. split; [exact C1|].
        rewrite C2. split; [now left|].
        intros [H'|H']; [exact H'|]. rewrite A in H'. injection H' as H'.
        lia.
    + intros i [H|H]; [now apply B|].
      rewrite A in H. injection H as <-. lia.
    + destruct T as [T|T]; [now left | right; now left].
Qed.

Lemma class_used_cons line file c :
  class_used (line :: file) c <->
  line_class line = Some c \/ class_used file c.
Proof.
  unfold class_used. split.
  - intros (l & [<-|H] & E); [now left | right; eauto].
  - intros [E|(l & H & E)]; [exists line | exists l]; cbn; auto.
Qed.

Lemma countpass_scan_inv g0 file : forall U ppc g ppc' g',
  count_inv g0 U ppc g ->
  countpass_scan file ppc g = Ok ppc' g' ->
  count_inv g0 (fun c => U c \/ class_used file c) ppc' g'.
Proof.
  induction file as [|line file IH]; intros U ppc g ppc' g' I H; cbn in H.
  - unfold ret in H. injection H as <- <-.
    apply (count_inv_ext g0 U); [|exact I].
    intros c. split; [now left|]. intros [H|(l & [] & _)]. exact H.
  - apply bind_Ok_inv in H as (ppc1 & g1 & E1 & H).
    pose proof (countpass_line_inv g0 U line ppc g ppc1 g1 I E1) as I1.
    pose proof (IH _ _ _ _ _ I1 H) as I2.
    refine (count_inv_ext g0 _ _ _ _ _ I2).
    intros c. cbn. rewrite class_used_cons. tauto.
Qed.

(** The loop that looks for a class without pins, by the position of the
    first zero among the [n] counts from index [i] on. *)
Lemma check_missing_loop ppc g n : forall i,
  (i + n <= length ppc)%nat ->
  for_loop n (Z.of_nat i) (fun i =>
    match ppc !! Z.to_nat i with
    | Some n =>
        if n =? 0 then
          printf (Err_class_index_not_used i) ;;
          printf Err_class_indices_not_consecutive ;; exit
        else ret tt
    | None => undef
    end) g =
  match list_find (fun x => x = 0) (take n (drop i ppc)) with
  | Some (k, _) =>
      Exit (stdout g ++ [Err_class_index_not_used (Z.of_nat (i + k));
                         Err_class_indices_not_consecutive])
  | None => Ok tt g
  end.
Proof.
  induction n as [|n IH]; intros i L.
  - reflexivity.
  - destruct (lookup_lt_is_Some_2 ppc i) as [x Hx]; [lia|].
    rewrite (drop_S _ _ _ Hx). cbn [take list_find for_loop].
    unfold bind at 1. rewrite Nat2Z.id, Hx.
    destruct (decide (x = 0)) as [->|N].
    + cbn. unfold_monad. cbn. rewrite <- app_assoc.
      now replace (i + 0)%nat with i by lia.
    + destruct (x =? 0) eqn:E; [bool_to_Z; contradiction|].
      unfold ret at 1.
      replace (Z.of_nat i + 1) with (Z.of_nat (S i)) by lia.
      rewrite IH by lia. cbn.
      destruct (list_find (fun x => x = 0) (take n (drop (S i) ppc)))
        as [[k y]|]; cbn; [|reflexivity].
      now replace (i + S k)%nat with (S i + k)%nat by lia.
Qed.

Lemma check_missing_classes_result ppc g :
  Z.of_nat (length ppc) = num_class g ->
  check_missing_classes ppc g =
  match list_find (fun x => x = 0) ppc with
  | Some (k, _) =>
      Exit (stdout g ++ [Err_class_index_not_used (Z.of_nat k);
                         Err_class_indices_not_consecutive])
  | None => Ok tt g
  end.
Proof.
  intros L. unfold check_missing_classes, for_range.
  unfold bind at 1. unfold gets at 1. rewrite <- L, Z.sub_0_r, Nat2Z.id.
  pose proof (check_missing_loop ppc g (length ppc) 0 ltac:(lia)) as H.
  change (Z.of_nat 0) with 0 in H. rewrite H.
  rewrite drop_0, firstn_all. reflexivity.
Qed.

Lemma for_loop_keeps (P : globals -> Prop) (body : Z -> M unit) n :
  (forall k g g', body k g = Ok tt g' -> P g -> P g') ->
  forall i g g', for_loop n i body g = Ok tt g' -> P g -> P g'.
Proof.
  intros Hb. induction n as [|n IH]; intros i g g' H HP; cbn in H.
  - unfold ret in H. now injection H as <-.
  - apply bind_Ok_inv in H as ([] & g1 & E & H).
    eapply IH; [exact H|]. eapply Hb; eassumption.
Qed.

Lemma alloc_classes_num_class ppc g g' :
  alloc_classes ppc g = Ok tt g' -> num_class g' = num_class g.
Proof.
  unfold alloc_classes. intros H.
  apply bind_Ok_inv in H as (nc & g1 & E & H).
  unfold gets in E. injection E as <- <-.
  apply bind_Ok_inv in H as ([] & g1 & E & H).
  unfold modify in E. injection E as <-.
  apply bind_Ok_inv in H as ([] & g2 & E & H).
  unfold modify in E. injection E as <-.
  apply bind_Ok_inv in H as ([] & g3 & E & H).
  unfold bind, gets, modify in H. injection H as <-. cbn.
  unfold for_range in E.
  apply (for_loop_keeps (fun g1 => num_class g1 = num_class g)) in E;
    [exact E | | reflexivity].
  intros k ga gb Hb Pa. destruct (ppc !! Z.to_nat k); [|discriminate].
  unfold bind, modify, gets, int in Hb.
  match type of Hb with
  | context [in_int ?z] => destruct (in_int z)
  end; [|discriminate].
  unfold ret in Hb. injection Hb as <-. exact Pa.
Qed.

Lemma total_app l1 l2 : total (l1 ++ l2) = total l1 + total l2.
Proof.
  induction l1 as [|x l1 IH]; cbn; [reflexivity|].
  unfold total in *. cbn. lia.
Qed.

Lemma total_take_le (l : list Z) n :
  (forall i x, l !! i = Some x -> 0 <= x) ->
  0 <= total (take n l) <= total l.
Proof.
  intros P. rewrite <- (take_drop n l) at 3. rewrite total_app.
  assert (N : forall l' : list Z, (forall i x, l' !! i = Some x -> 0 <= x) ->
                       0 <= total l').
  { induction l' as [|x l' IH]; intros Q; cbn; [lia|].
    specialize (Q 0%nat x eq_refl) as Qx.
    specialize (IH (fun i y Hy => Q (S i) y Hy)). unfold total in *. lia. }
  assert (0 <= total (take n l)).
  { apply N. intros i x Hx. apply lookup_take_Some in Hx as [Hx _]. eauto. }
  assert (0 <= total (drop n l)).
  { apply N. intros i x Hx. rewrite lookup_drop in Hx. eauto. }
  lia.
Qed.

Lemma alloc_classes_Ok ppc g :
  Z.of_nat (length ppc) = num_class g ->
  (forall i x, ppc !! i = Some x -> 0 <= x) ->
  total ppc <= INT_MAX ->
  exists g', alloc_classes ppc g = Ok tt g'
             /\ num_class g' = num_class g
             /\ pins_per_clb g' = total ppc
             /\ stdout g' = stdout g.
Proof.
  intros L P T. unfold alloc_classes.
  unfold bind at 1. unfold gets at 1.
  unfold bind at 1. unfold modify at 1.
  unfold bind at 1. unfold modify at 1.
  set (g1 := set_pins_per_clb 0 _).
  destruct (for_loop_inv
    (fun i g2 => num_class g2 = num_class g /\ stdout g2 = stdout g
                 /\ pins_per_clb g2 = total (take (Z.to_nat i) ppc))
    (fun i =>
       match ppc !! Z.to_nat i with
       | Some n =>
           modify (fun g =>
             set_class_inf
               (<[Z.to_nat i := mk_class OPEN 0 (replicate (Z.to_nat n) None)]>
                  (class_inf g)) g) ;;
           ppc <- gets pins_per_clb ;;
           s <- int (ppc + n) ;;
           modify (set_pins_per_clb s)
       | None => undef
       end) (Z.to_nat (num_class g - 0)) 0 g1) as (g2 & E & N2 & S2 & P2).
  - repeat split.
  - intros k g2 Hk (N2 & S2 & P2).
    destruct (lookup_lt_is_Some_2 ppc (Z.to_nat k)) as [n Hn]; [lia|].
    rewrite Hn. unfold bind at 1. unfold modify at 1.
    unfold bind at 1. unfold gets at 1. cbn [pins_per_clb set_class_inf].
    pose proof (total_take_le ppc (S (Z.to_nat k)) P) as B.
    rewrite (take_S_r _ _ _ Hn), total_app in B.
    change (total [n]) with (n + 0) in B.
    unfold bind at 1. rewrite int_Ok
      by (apply in_int_spec; rewrite P2; unfold INT_MIN; lia).
    unfold modify. eexists. split; [reflexivity|]. cbn.
    split; [exact N2|]. split; [exact S2|].
    replace (Z.to_nat (k + 1)) with (S (Z.to_nat k)) by lia.
    rewrite (take_S_r _ _ _ Hn), total_app, P2.
    change (total [n]) with (n + 0). lia.
  - unfold for_range. rewrite (bind_Ok _ _ _ _ _ E).
    unfold bind, gets, modify. eexists. split; [reflexivity|]. cbn.
    split; [exact N2|]. split; [|exact S2].
    rewrite P2, take_ge by lia. reflexivity.
Qed.

Lemma countpass_unfold file g :
  countpass file g =
    (ppc <- countpass_scan file (replicate 1 0) ;;
     check_missing_classes ppc ;; alloc_classes ppc)
      (set_num_class 1 (set_linenum 0 g)).
Proof. reflexivity. Qed.

(** C6. After the scan of the count pass the class table covers the
    indices from 0 to the highest class index seen on a pin line.  If
    one of them has no pin line, the count pass exits with "class index i
    not used ... not consecutive" for the least such index i.  Hence,
    whenever the count pass (and so [read_arch]) succeeds, the class
    indices used by the pin lines are exactly 0, 1, ..., up to the
    highest one; and when they are, and the total pin count is an [int],
    the count pass does succeed. *)
Theorem countpass_classes file g ppc g1 :
  countpass_scan file (replicate 1 0) (set_num_class 1 (set_linenum 0 g))
    = Ok ppc g1 ->
  (forall c, class_used file c -> 0 <= c < num_class g1)
  /\ (num_class g1 = 1 \/ class_used file (num_class g1 - 1))
  /\ (forall i, 0 <= i < num_class g1 -> ~ class_used file i ->
      exists i0,
        0 <= i0 <= i /\ ~ class_used file i0
        /\ (forall j, 0 <= j < i0 -> class_used file j)
        /\ countpass file g =
             Exit (stdout g ++ [Err_class_index_not_used i0;
                                Err_class_indices_not_consecutive]))
  /\ (forall g', countpass file g = Ok tt g' ->
      num_class g' = num_class g1
      /\ forall c, class_used file c <-> 0 <= c < num_class g')
  /\ (forall atof arch_file route_type g',
      read_arch atof arch_file file route_type g = Ok tt g' ->
      forall c, class_used file c <-> 0 <= c < num_class g1)
  /\ ((forall i, 0 <= i < num_class g1 -> class_used file i) ->
      total ppc <= INT_MAX ->
      exists g', countpass file g = Ok tt g'
                 /\ num_class g' = num_class g1
                 /\ pins_per_clb g' = total ppc
                 /\ stdout g' = stdout g).
Proof.
  intros Scan.
  assert (I0 : count_inv g (fun _ => False) (replicate 1 0)
                 (set_num_class 1 (set_linenum 0 g))).
  { split; cbn; try reflexivity.
    - intros [|c] n H; [|discriminate]. injection H as <-.
      split; [lia | tauto].
    - intros c [].
    - now left. }
  pose proof (countpass_scan_inv g file _ _ _ _ _ I0 Scan) as I.
  apply (count_inv_ext g _ (class_used file)) in I; [|intros c; tauto].
  destruct I as [L S C B T].
  pose proof (check_missing_classes_result ppc g1 L) as Chk.
  assert (Gap : forall i, 0 <= i < num_class g1 -> ~ class_used file i ->
      exists i0,
        0 <= i0 <= i /\ ~ class_used file i0
        /\ (forall j, 0 <= j < i0 -> class_used file j)
        /\ countpass file g =
             Exit (stdout g ++ [Err_class_index_not_used i0;
                                Err_class_indices_not_consecutive])).
  { intros i Hi Hu.
    destruct (lookup_lt_is_Some_2 ppc (Z.to_nat i)) as [v Hv]; [lia|].
    destruct (C _ _ Hv) as [_ Cv]. rewrite Z2Nat.id in Cv by lia.
    assert (v = 0) as -> by (destruct (decide (v = 0)); tauto).
    destruct (list_find (fun x => x = 0) ppc) as [[k x]|] eqn:F.
    - apply list_find_Some in F as (Hk & -> & Min).
      exists (Z.of_nat k). destruct (C _ _ Hk) as [_ Ck].
      pose proof (lookup_lt_Some _ _ _ Hk) as Lk.
      split; [|split; [tauto|split]].
      + split; [lia|]. destruct (decide (Z.to_nat i < k)%nat) as [Lt|]; [|lia].
        now destruct (Min _ _ Hv Lt).
      + intros j Hj.
        destruct (lookup_lt_is_Some_2 ppc (Z.to_nat j)) as [y Hy]; [lia|].
        destruct (C _ _ Hy) as [_ Cy]. rewrite Z2Nat.id in Cy by lia.
        apply Cy. apply (Min _ _ Hy). lia.
      + rewrite countpass_unfold, (bind_Ok _ _ _ _ _ Scan).
        unfold bind at 1. rewrite Chk, S. reflexivity.
    - apply list_find_None in F. rewrite Forall_lookup in F.
      now destruct (F _ _ Hv). }
  assert (Ok_ : forall g', countpass file g = Ok tt g' ->
      num_class g' = num_class g1
      /\ forall c, class_used file c <-> 0 <= c < num_class g1).
  { intros g' H. rewrite countpass_unfold, (bind_Ok _ _ _ _ _ Scan) in H.
    apply bind_Ok_inv in H as ([] & g2 & E & H).
    rewrite Chk in E.
    destruct (list_find (fun x => x = 0) ppc) as [[k x]|] eqn:F;
      [discriminate|]. injection E as <-.
    split; [now apply alloc_classes_num_class in H|].
    intros c. split; [apply B|]. intros Hc.
    destruct (lookup_lt_is_Some_2 ppc (Z.to_nat c)) as [v Hv]; [lia|].
    destruct (C _ _ Hv) as [_ Cv]. rewrite Z2Nat.id in Cv by lia.
    apply Cv. apply list_find_None in F. rewrite Forall_lookup in F.
    exact (F _ _ Hv). }
  split; [exact B|]. split; [exact T|]. split; [exact Gap|].
  split; [|split].
  - intros g' H. destruct (Ok_ g' H) as [N U]. split; [exact N|].
    now rewrite N.
  - intros atof arch_file route_type g' H. unfold read_arch in H.
    apply bind_Ok_inv in H as ([] & g2 & E & _).
    now destruct (Ok_ g2 E).
  - intros Full Tot.
    assert (F : list_find (fun x => x = 0) ppc = None).
    { apply list_find_None, Forall_lookup. intros i x Hx.
      pose proof (lookup_lt_Some _ _ _ Hx) as Li.
      destruct (C _ _ Hx) as [_ Cx]. apply Cx, Full. lia. }
    destruct (alloc_classes_Ok ppc g1 L) as (g' & E & N & Pc & So);
      [intros i x Hx; now destruct (C _ _ Hx) | exact Tot |].
    exists g'. split; [|split; [exact N|split; [exact Pc|congruence]]].
    rewrite countpass_unfold, (bind_Ok _ _ _ _ _ Scan).
    unfold bind at 1. rewrite Chk, F. exact E.
Qed.

Lemma countpass_classes_witness :
  (forall c, class_used arch_with_class_abc c -> 0 <= c < 2)
  /\ class_used arch_with_class_abc 1
  /\ (forall g',
       countpass arch_with_class_abc initial_globals = Ok tt g' ->
       num_class g' = 2)
  /\ exists g',
       countpass arch_with_class_abc initial_globals = Ok tt g'
       /\ pins_per_clb g' = 2.
Proof.
  edestruct (countpass_classes arch_with_class_abc initial_globals)
    as (H1 & H2 & _ & H4 & _ & H6); [vm_compute; reflexivity|].
  split; [exact H1|]. split; [|split].
  - destruct H2 as [H2|H2]; [discriminate H2 | exact H2].
  - intros g' H. exact (proj1 (H4 g' H)).
  - destruct H6 as (g' & E & _ & P & _).
    + intros i Hi. cbn in Hi.
      assert (i = 0 \/ i = 1) as [-> | ->] by lia.
      * exists (words "outpin class: abc top"). split; [|reflexivity].
        do 4 right. left. reflexivity.
      * exists (words "inpin class: 1 bottom"). split; [|reflexivity].
        do 5 right. left. reflexivity.
    + vm_compute. discriminate.
    + exists g'. split; [exact E | exact P].
Defined.

(** ** Messages and exits *)

Lemma reports_ret {A} (a : A) : reports (ret a).
Proof. intros g. reflexivity. Qed.

Lemma reports_gets {A} (f : globals -> A) : reports (gets f).
Proof. intros g. reflexivity. Qed.

Lemma reports_undef {A} : reports (@undef A).
Proof. intros g. exact I. Qed.

Lemma reports_int z : reports (int z).
Proof. intros g. unfold int. destruct (in_int z); [reflexivity | exact I]. Qed.

Lemma reports_modify f :
  (forall g, stdout (f g) = stdout g) -> reports (modify f).
Proof. intros H g. apply H. Qed.

Lemma reports_my_strtok : reports my_strtok.
Proof. intros g. unfold my_strtok. destruct (strtok_rest g); reflexivity. Qed.

Lemma reports_bind {A B} (m : M A) (k : A -> M B) :
  reports m -> (forall a, reports (k a)) -> reports (bind m k).
Proof.
  intros Hm Hk g. unfold bind. specialize (Hm g).
  destruct (m g) as [a g1|out|]; [|exact Hm|exact I].
  specialize (Hk a g1).
  destruct (k a g1) as [b g2|out|]; [congruence| |exact I].
  destruct Hk as (msgs & N & ->). exists msgs. now rewrite Hm.
Qed.

(** A message followed by [exit]. *)
Lemma reports_printf_exit {A} (m : message) (k : M A) :
  (forall g, exists msgs, k g = Exit (stdout g ++ msgs)) ->
  reports (printf m ;; k).
Proof.
  intros H g. unfold bind, printf, modify.
  destruct (H (set_stdout (stdout g ++ [m]) g)) as (msgs & ->). cbn.
  exists (m :: msgs). split; [discriminate|]. now rewrite <- app_assoc.
Qed.

Lemma exit_prints {A} g : exists msgs, @exit A g = Exit (stdout g ++ msgs).
Proof. exists []. unfold exit. now rewrite app_nil_r. Qed.

Lemma printf_exit_prints {A} (m : message) (k : M A) :
  (forall g, exists msgs, k g = Exit (stdout g ++ msgs)) ->
  forall g, exists msgs, (printf m ;; k) g = Exit (stdout g ++ msgs).
Proof.
  intros H g. unfold bind, printf, modify.
  destruct (H (set_stdout (stdout g ++ [m]) g)) as (msgs & ->). cbn.
  exists (m :: msgs). now rewrite <- app_assoc.
Qed.

(** The tactic for straight-line code: binds, tests and matches, with
    every [printf] on a path that ends in [exit]. *)
Ltac reports_fatal :=
  solve [ apply reports_printf_exit;
          repeat first [ exact exit_prints | apply printf_exit_prints ] ].

Ltac reports_step :=
  first
    [ apply reports_ret | apply reports_gets | apply reports_undef
    | apply reports_int | apply reports_my_strtok
    | apply reports_modify; intros; reflexivity
    | reports_fatal
    | apply reports_bind; [|intros ?]
    | match goal with
      | |- reports (match ?x with _ => _ end) => destruct x
      | |- reports (if ?b then _ else _) => destruct b
      end ].

Ltac reports_auto := cbv zeta; repeat (reports_step; cbv zeta).

Lemma reports_get_class : reports get_class.
Proof. unfold get_class. reports_auto. Qed.

Lemma reports_isread_at i : reports (isread_at i).
Proof.
  intros g. unfold isread_at.
  destruct (isread g !! i); reflexivity || exact I.
Qed.

Lemma reports_incr_isread i : reports (incr_isread i).
Proof.
  unfold incr_isread. apply reports_bind; [apply reports_isread_at|].
  intros v. reports_auto.
Qed.

Lemma reports_get_int i : reports (get_int i).
Proof.
  unfold get_int.
  repeat first [ apply reports_incr_isread | reports_step ].
Qed.

Lemma reports_get_float atof i lo hi : reports (get_float atof i lo hi).
Proof. unfold get_float. reports_auto. Qed.

Lemma reports_get_Fc_type : reports get_Fc_type.
Proof. unfold get_Fc_type. reports_auto. Qed.

Lemma reports_get_switch_block_type : reports get_switch_block_type.
Proof. unfold get_switch_block_type. reports_auto. Qed.

Lemma reports_assign_chan chan f :
  chan = chan_x_ptr \/ chan = chan_y_ptr -> reports (assign_chan chan f).
Proof.
  intros [-> | ->]; unfold assign_chan; apply reports_modify; reflexivity.
Qed.

Lemma reports_get_chan atof chan i :
  chan = chan_x_ptr \/ chan = chan_y_ptr -> reports (get_chan atof chan i).
Proof.
  intros C. unfold get_chan.
  repeat first
    [ apply reports_incr_isread | apply reports_isread_at
    | apply reports_get_float | apply (reports_assign_chan _ _ C)
    | reports_step ].
Qed.

Lemma reports_mark_pinloc i pinnum : reports (mark_pinloc i pinnum).
Proof.
  intros g. unfold mark_pinloc.
  destruct (load (pinloc g) i) as [row|]; [|exact I].
  destruct (store row pinnum 1) as [row'|]; [|exact I].
  destruct (store (pinloc g) i row'); [reflexivity | exact I].
Qed.

Lemma reports_match_position ptr pinnum pos : forall i,
  reports (match_position ptr pinnum i pos).
Proof.
  induction pos as [|p pos IH]; intros i; cbn.
  - apply reports_ret.
  - destruct (strcmp_eq ptr p); [|apply IH].
    apply reports_bind; [apply reports_mark_pinloc | intros; apply reports_ret].
Qed.

Lemma reports_pin_locations pinnum toks : reports (pin_locations pinnum toks).
Proof.
  induction toks as [|ptr toks IH]; cbn [pin_locations].
  - apply reports_ret.
  - repeat first [ apply reports_match_position | exact IH | reports_step ].
Qed.

Lemma reports_get_pin pinnum type : reports (get_pin pinnum type).
Proof.
  unfold get_pin.
  repeat first
    [ apply reports_get_class | apply reports_pin_locations | reports_step ].
Qed.

Lemma reports_read_arch_line atof line pinnum :
  reports (read_arch_line atof line pinnum).
Proof.
  unfold read_arch_line, my_fgets, assign_det.
  repeat first
    [ apply reports_get_int | apply reports_get_float
    | apply reports_get_chan; [now left | now right]
    | apply reports_get_chan; now left
    | apply reports_get_chan; now right
    | apply reports_get_pin | apply reports_get_Fc_type
    | apply reports_get_switch_block_type | apply reports_incr_isread
    | reports_step ].
Qed.

Lemma reports_read_arch_scan atof file : forall pinnum,
  reports (read_arch_scan atof file pinnum).
Proof.
  induction file as [|line file IH]; intros pinnum; cbn.
  - apply reports_ret.
  - apply reports_bind; [apply reports_read_arch_line | exact IH].
Qed.

Lemma reports_for_loop (body : Z -> M unit) n :
  (forall k, reports (body k)) -> forall i, reports (for_loop n i body).
Proof.
  intros H. induction n as [|n IH]; intros i; cbn.
  - apply reports_ret.
  - apply reports_bind; [apply H | intros _; apply IH].
Qed.

Lemma reports_for_fold {A} (body : Z -> A -> M A) n :
  (forall k a, reports (body k a)) ->
  forall i a, reports (for_fold n i body a).
Proof.
  intros H. induction n as [|n IH]; intros i a; cbn.
  - apply reports_ret.
  - apply reports_bind; [apply H | intros a'; apply IH].
Qed.

Lemma reports_countpass_line line ppc : reports (countpass_line line ppc).
Proof.
  unfold countpass_line, my_fgets, skip_to_end_of_line.
  repeat first [ apply reports_get_class | reports_step ].
Qed.

Lemma reports_countpass_scan file : forall ppc,
  reports (countpass_scan file ppc).
Proof.
  induction file as [|line file IH]; intros ppc; cbn.
  - apply reports_ret.
  - apply reports_bind; [apply reports_countpass_line | exact IH].
Qed.

Lemma reports_countpass file : reports (countpass file).
Proof.
  unfold countpass, check_missing_classes, alloc_classes, for_range.
  repeat first
    [ apply reports_countpass_scan
    | apply reports_for_loop; intros ?
    | reports_step ].
Qed.

(** The completeness loop prints without exiting: it returns the flag
    raised exactly when it was raised before or something was printed. *)
Lemma check_isread_loop_prints arch_file n : forall i fatal g,
  match check_isread_loop arch_file n i fatal g with
  | Ok fatal' g' =>
      exists msgs, stdout g' = stdout g ++ msgs
        /\ (fatal' = true <-> fatal = true \/ msgs <> [])
  | Exit _ => False
  | Undef => True
  end.
Proof.
  induction n as [|n IH]; intros i fatal g; cbn.
  - exists []. rewrite app_nil_r. split; [reflexivity|]. tauto.
  - unfold bind at 1. destruct (isread g !! i) as [c|] eqn:E.
    + rewrite (check_isread_Ok arch_file i fatal g c E).
      set (v := field_violations arch_file i c).
      set (g1 := set_stdout (stdout g ++ v) g).
      specialize (IH (S i) (fatal || negb (bool_decide (v = []))) g1).
      destruct (check_isread_loop arch_file n (S i) _ g1)
        as [f' g'|out|]; [|exact IH|exact I].
      destruct IH as (msgs & S & F). exists (v ++ msgs). split.
      * rewrite S. cbn. now rewrite app_assoc.
      * rewrite F, orb_true_iff, negb_true_iff, bool_decide_eq_false.
        split.
        -- intros [[H|H]|H]; [now left | right | right].
           ++ intros N. apply app_eq_nil in N. tauto.
           ++ intros N. apply app_eq_nil in N. tauto.
        -- intros [H|H]; [tauto|].
           destruct v as [|m v]; [right; exact H | left; right; discriminate].
    + unfold check_isread, isread_at, bind. now rewrite E.
Qed.

Lemma reports_check_detailed det : reports (check_detailed det).
Proof. unfold check_detailed. reports_auto. Qed.

Lemma reports_check_arch arch_file route_type det :
  reports (check_arch arch_file route_type det).
Proof.
  intros g. unfold check_arch. unfold bind at 1.
  pose proof (check_isread_loop_prints arch_file
                (Z.to_nat (num_to_check route_type)) 0 false g) as L.
  destruct (check_isread_loop _ _ _ _ g) as [fatal g1|out|];
    [|contradiction|exact I].
  destruct L as (msgs & S & F). destruct fatal.
  - unfold bind, exit. exists msgs. split; [|now rewrite S].
    destruct (proj1 F eq_refl) as [H|H]; [discriminate | exact H].
  - assert (msgs = []) as ->.
    { destruct msgs; [reflexivity|].
      assert (false = true) by (apply F; right; discriminate). discriminate. }
    rewrite app_nil_r in S. unfold bind at 1. unfold ret at 1.
    assert (R : reports (if decide (route_type = DETAILED)
                         then check_detailed det else ret tt)).
    { destruct (decide (route_type = DETAILED));
        [apply reports_check_detailed | apply reports_ret]. }
    specialize (R g1).
    destruct ((if decide (route_type = DETAILED)
               then check_detailed det else ret tt) g1) as [[] g2|out|].
    + congruence.
    + destruct R as (m & N & ->). exists m. now rewrite S.
    + exact I.
Qed.

(** X1. [read_arch] reports: a load that succeeds has printed nothing,
    and a load that exits has printed at least one error message before
    doing so. *)
Theorem read_arch_reports atof arch_file file route_type :
  reports (read_arch atof arch_file file route_type).
Proof.
  unfold read_arch.
  repeat first
    [ apply reports_countpass | apply reports_read_arch_scan
    | apply reports_check_arch | reports_step ].
Qed.

Lemma reports_assign_clb i j f : reports (assign_clb i j f).
Proof.
  intros g. unfold assign_clb.
  destruct (clb g !! (i, j)); reflexivity || exact I.
Qed.

Lemma reports_fill_arch : reports fill_arch.
Proof.
  unfold fill_arch, for_range.
  repeat first
    [ apply reports_assign_clb
    | apply reports_for_loop; intros ?
    | apply reports_for_fold; intros ? ?
    | reports_step ].
Qed.

Lemma reports_int_ceil x : reports (int_ceil x).
Proof.
  unfold int_ceil.
  destruct (Float.to_int (Float.ceil x));
    [apply reports_ret | apply reports_undef].
Qed.

(** X2. [init_arch] reports as well: the grid is built silently, and each
    of its exits is preceded by its message. *)
Theorem init_arch_reports aspect_ratio user_sized :
  reports (init_arch aspect_ratio user_sized).
Proof.
  unfold init_arch, check_user_size, size_automatically.
  repeat first
    [ apply reports_fill_arch | apply reports_int_ceil | reports_step ].
Qed.

(** ** The word readers, word by word *)

(** X3. An integer field is accepted exactly when one word follows the
    keyword and [atoi] reads a positive number from it; the counter of
    the keyword is then raised by one.  In particular a word without
    digits is fatal, reported as the bad value 0. *)
Theorem get_int_accepts i g :
  (forall v g',
     get_int i g = Ok v g' <->
     exists tok n,
       strtok_rest g = [tok] /\ atoi tok = Some v /\ 0 < v
       /\ isread g !! i = Some n /\ in_int (n + 1) = true
       /\ g' = set_isread (<[i := n + 1]> (isread g)) (set_strtok_rest [] g))
  /\ (forall tok rest v,
        strtok_rest g = tok :: rest -> atoi tok = Some v -> v <= 0 ->
        get_int i g =
          Exit (stdout g ++ [Err_bad_value (name i) v (linenum g)]))
  /\ (forall tok rest,
        strtok_rest g = tok :: rest -> no_digits tok = true ->
        get_int i g =
          Exit (stdout g ++ [Err_bad_value (name i) 0 (linenum g)])).
Proof.
  assert (Bad : forall tok rest v,
        strtok_rest g = tok :: rest -> atoi tok = Some v -> v <= 0 ->
        get_int i g =
          Exit (stdout g ++ [Err_bad_value (name i) v (linenum g)])).
  { intros tok rest v R A V. unfold get_int. unfold_monad. rewrite R, A.
    destruct (v <=? 0) eqn:E; [reflexivity | bool_to_Z; lia]. }
  split; [|split; [exact Bad|]].
  - intros v g'. split.
    + unfold get_int. unfold bind at 1. unfold my_strtok.
      destruct (strtok_rest g) as [|tok rest] eqn:R; [discriminate|].
      destruct (atoi tok) as [z|] eqn:A; [|discriminate].
      destruct (z <=? 0) eqn:V; [discriminate|].
      unfold bind at 1. cbn [strtok_rest set_strtok_rest].
      destruct rest as [|x rest]; [|discriminate].
      intros H. apply bind_Ok_inv in H as ([] & g1 & E & H).
      unfold ret in H. injection H as -> ->.
      unfold incr_isread in E.
      apply bind_Ok_inv in E as (n & g2 & E0 & E).
      unfold isread_at in E0. cbn [isread set_strtok_rest] in E0.
      destruct (isread g !! i) as [n'|] eqn:N; [|discriminate].
      injection E0 as <- <-.
      apply bind_Ok_inv in E as (n1 & g3 & E1 & E).
      apply int_Ok_inv in E1 as (B & -> & ->).
      unfold modify in E. injection E as <-.
      exists tok, n'. bool_to_Z. repeat split; try assumption; lia.
    + intros (tok & n & R & A & V & N & B & ->).
      unfold get_int. unfold_monad. rewrite R, A.
      destruct (v <=? 0) eqn:E; [bool_to_Z; lia|]. cbn -[incr_isread].
      erewrite incr_isread_Ok; [reflexivity | exact N | exact B].
  - intros tok rest R D. apply (Bad tok rest 0 R); [|lia].
    now apply atoi_no_digits.
Qed.

Lemma get_int_accepts_witness :
  get_int 0 (set_strtok_rest ["abc"] initial_globals) =
    Exit [Err_bad_value "io_rat" 0 0].
Proof.
  apply (proj2 (proj2 (get_int_accepts 0
                         (set_strtok_rest ["abc"] initial_globals)))
           "abc" []); reflexivity.
Defined.

Lemma nan_compare x : SFcompare S754_nan x = None.
Proof. now destruct x. Qed.

(** X4. The float reader accepts a number [v] exactly when
    [low < v <= high]: the lower limit is refused and the upper limit is
    accepted.  A NaN passes both tests and is accepted whatever the
    limits are. *)
Theorem get_float_range atof i lo hi g tok rest :
  Float.is_nan lo = false -> Float.is_nan hi = false ->
  let v := Float.to_float (atof tok) in
  get_float atof i lo hi (set_strtok_rest (tok :: rest) g) =
    if Float.is_nan v || (Float.lt lo v && Float.le v hi)
    then Ok v (set_strtok_rest rest g)
    else Exit (stdout g ++ [Err_bad_value_parsing (name i) v (linenum g)]).
Proof.
  intros Hlo Hhi v.
  destruct (Float.is_nan v) eqn:N; cbn [orb].
  - apply get_float_Ok; fold v; destruct v; try discriminate;
      unfold Float.le, Float.gt, SFleb, SFltb.
    + now rewrite nan_compare.
    + rewrite (SFcompare_antisym S754_nan hi), nan_compare. reflexivity.
  - rewrite <- (not_le_lt v lo N Hlo), <- (not_gt_le v hi N Hhi).
    rewrite <- negb_orb.
    destruct (Float.le v lo || Float.gt v hi) eqn:C; cbn [negb].
    + now apply get_float_Exit.
    + apply orb_false_iff in C as [C1 C2]. now apply get_float_Ok.
Qed.

Lemma get_float_range_witness :
  get_float atof_decimal 1 (Float.flit false 0 0) (Float.flit false 1 0)
    (set_strtok_rest ["1"] initial_globals) =
    Ok (Float.flit false 1 0) (set_strtok_rest [] initial_globals)
  /\ get_float atof_decimal 1 (Float.flit false 0 0) (Float.flit false 1 0)
       (set_strtok_rest ["0"] initial_globals) =
     Exit [Err_bad_value_parsing "chan_width_x" (S754_zero false) 0].
Proof.
  split.
  - exact (get_float_range atof_decimal 1 (Float.flit false 0 0)
             (Float.flit false 1 0) initial_globals "1" [] eq_refl eq_refl).
  - exact (get_float_range atof_decimal 1 (Float.flit false 0 0)
             (Float.flit false 1 0) initial_globals "0" [] eq_refl eq_refl).
Defined.

Lemma strcmp_eq_true a b : strcmp_eq a b = true <-> a = b.
Proof. apply String.eqb_eq. Qed.

(** X5. An [Fc_type] line is accepted exactly when its only word is
    [absolute] or [fractional], and a [switch_block_type] line exactly
    when its only word is [subset], [wilton] or [universal]; the value
    returned is the one the word names. *)
Theorem routing_words_accepted g :
  (forall t g',
     get_Fc_type g = Ok t g' <->
     exists w, strtok_rest g = [w] /\ g' = set_strtok_rest [] g
       /\ ((w = "absolute" /\ t = ABSOLUTE)
           \/ (w = "fractional" /\ t = FRACTIONAL)))
  /\ (forall t g',
        get_switch_block_type g = Ok t g' <->
        exists w, strtok_rest g = [w] /\ g' = set_strtok_rest [] g
          /\ ((w = "subset" /\ t = SUBSET)
              \/ (w = "wilton" /\ t = WILTON)
              \/ (w = "universal" /\ t = UNIVERSAL))).
Proof.
  split; intros t g'; split.
  - unfold get_Fc_type. unfold_monad.
    destruct (strtok_rest g) as [|w rest] eqn:R; [discriminate|].
    destruct (strcmp_eq w "absolute") eqn:A;
      [|destruct (strcmp_eq w "fractional") eqn:F]; cbn;
      try discriminate; (destruct rest; [|discriminate]);
      intros [= <- <-]; exists w; (split; [reflexivity|]);
      (split; [reflexivity|]).
    + left. now apply strcmp_eq_true in A.
    + right. now apply strcmp_eq_true in F.
  - intros (w & R & -> & [[-> ->]|[-> ->]]);
      unfold get_Fc_type; unfold_monad; rewrite R; reflexivity.
  - unfold get_switch_block_type. unfold_monad.
    destruct (strtok_rest g) as [|w rest] eqn:R; [discriminate|].
    destruct (strcmp_eq w "subset") eqn:A;
      [|destruct (strcmp_eq w "wilton") eqn:F;
        [|destruct (strcmp_eq w "universal") eqn:U]]; cbn;
      try discriminate; (destruct rest; [|discriminate]);
      intros [= <- <-]; exists w; (split; [reflexivity|]);
      (split; [reflexivity|]).
    + left. now apply strcmp_eq_true in A.
    + right. left. now apply strcmp_eq_true in F.
    + right. right. now apply strcmp_eq_true in U.
  - intros (w & R & -> & [[-> ->]|[[-> ->]|[-> ->]]]);
      unfold get_switch_block_type; unfold_monad; rewrite R; reflexivity.
Qed.

Lemma name_in_names k : (k < 13)%nat -> In (name k) names.
Proof.
  intros H. unfold name. apply nth_In. exact H.
Qed.

(** X6. A line whose first word is none of the 13 keywords is skipped:
    apart from the line counter and the scanner position no global
    changes, whatever the rest of the line holds; the same goes for an
    empty line. *)
Theorem unknown_keyword_skipped atof p rest pinnum g :
  ~ In p names ->
  read_arch_line atof (p :: rest) pinnum g =
    Ok pinnum (set_strtok_rest rest (set_linenum (linenum g + 1) g))
  /\ read_arch_line atof [] pinnum g =
    Ok pinnum (set_strtok_rest [] (set_linenum (linenum g + 1) g)).
Proof.
  intros N. split; [|reflexivity].
  assert (F : forall k, (k < 13)%nat -> strcmp_eq p (name k) = false).
  { intros k Hk. apply not_true_is_false. intros E.
    apply strcmp_eq_true in E. apply N. rewrite E. now apply name_in_names. }
  unfold read_arch_line. unfold bind at 1. unfold my_fgets, modify.
  unfold bind at 1. unfold my_strtok. cbn [strtok_rest set_strtok_rest].
  rewrite !F by lia. reflexivity.
Qed.

Lemma unknown_keyword_skipped_witness :
  read_arch_line atof_decimal ["io_ratio"; "2"; "junk"] 0 initial_globals =
    Ok 0 (set_strtok_rest ["2"; "junk"] (set_linenum 1 initial_globals)).
Proof.
  apply (unknown_keyword_skipped atof_decimal "io_ratio" ["2"; "junk"] 0
           initial_globals).
  intros H. cbn in H. decompose [or] H; discriminate || contradiction.
Defined.

(** ** Pin lines *)

Lemma load_Some {A} (l : list A) (i : nat) :
  load l (Z.of_nat i) = l !! i.
Proof.
  unfold load. destruct (0 <=? Z.of_nat i) eqn:E; [|bool_to_Z; lia].
  now rewrite Nat2Z.id.
Qed.

Lemma store_Some {A} (l : list A) (i : Z) (v : A) :
  0 <= i < Z.of_nat (length l) ->
  store l i v = Some (<[Z.to_nat i := v]> l).
Proof.
  intros H. unfold store.
  destruct (0 <=? i) eqn:E1; [|bool_to_Z; lia].
  destruct (i <? Z.of_nat (length l)) eqn:E2; [|bool_to_Z; lia].
  reflexivity.
Qed.

Lemma mark_pinloc_Ok (i : nat) pinnum g :
  (i < 4)%nat -> pinloc_shaped (pinloc g) pinnum ->
  mark_pinloc (Z.of_nat i) pinnum g =
    Ok tt (set_pinloc (marked (pinloc g) i pinnum) g).
Proof.
  intros Hi [L R]. unfold mark_pinloc, marked. rewrite load_Some.
  destruct (lookup_lt_is_Some_2 (pinloc g) i) as [row Hrow]; [lia|].
  rewrite Hrow. rewrite (store_Some row pinnum 1) by (eapply R; eauto).
  rewrite store_Some by lia. now rewrite Nat2Z.id.
Qed.

Lemma marked_shaped pl i pinnum :
  pinloc_shaped pl pinnum -> pinloc_shaped (marked pl i pinnum) pinnum.
Proof.
  intros [L R]. unfold marked. destruct (pl !! i) as [row|] eqn:E;
    [|now split].
  split; [now rewrite length_insert|].
  intros j r H. destruct (decide (i = j)) as [<-|N].
  - rewrite list_lookup_insert_eq in H by (eapply lookup_lt_Some; eauto).
    injection H as <-. rewrite length_insert. eauto.
  - rewrite list_lookup_insert_ne in H by exact N. eauto.
Qed.

Lemma marked_at pl i pinnum j p :
  pinloc_shaped pl pinnum -> (i < 4)%nat ->
  pinloc_at (marked pl i pinnum) j p =
    if bool_decide (j = i) && (p =? pinnum) then Some 1
    else pinloc_at pl j p.
Proof.
  intros [L R] Hi. unfold marked, pinloc_at.
  destruct (lookup_lt_is_Some_2 pl i) as [row Hrow]; [lia|]. rewrite Hrow.
  pose proof (R i row Hrow) as Rp.
  destruct (decide (j = i)) as [->|N].
  - rewrite bool_decide_eq_true_2 by reflexivity. cbn [andb].
    rewrite list_lookup_insert_eq by (eapply lookup_lt_Some; eauto).
    rewrite Hrow. unfold load. destruct (p =? pinnum) eqn:P; bool_to_Z.
    + subst p. destruct (0 <=? pinnum) eqn:Q; [|bool_to_Z; lia].
      apply list_lookup_insert_eq. lia.
    + destruct (0 <=? p) eqn:Q; [|reflexivity].
      apply list_lookup_insert_ne. bool_to_Z. lia.
  - rewrite list_lookup_insert_ne by congruence.
    rewrite bool_decide_eq_false_2 by exact N. reflexivity.
Qed.

Lemma side_of_lt w i : side_of w = Some i -> (i < 4)%nat.
Proof.
  unfold side_of.
  repeat match goal with
    | |- context [if ?b then _ else _] => destruct b
    end; intros [= <-]; lia.
Qed.

Lemma match_position_result ptr pinnum g :
  pinloc_shaped (pinloc g) pinnum ->
  match_position ptr pinnum 0 position g =
    match side_of ptr with
    | Some i => Ok true (set_pinloc (marked (pinloc g) i pinnum) g)
    | None => Ok false g
    end.
Proof.
  intros S. unfold side_of. cbn [match_position position].
  destruct (strcmp_eq ptr "top").
  { unfold bind. change 0 with (Z.of_nat 0).
    now rewrite mark_pinloc_Ok by (lia || exact S). }
  destruct (strcmp_eq ptr "bottom").
  { unfold bind. change (0 + 1) with (Z.of_nat 1).
    now rewrite mark_pinloc_Ok by (lia || exact S). }
  destruct (strcmp_eq ptr "left").
  { unfold bind. change (0 + 1 + 1) with (Z.of_nat 2).
    now rewrite mark_pinloc_Ok by (lia || exact S). }
  destruct (strcmp_eq ptr "right").
  { unfold bind. change (0 + 1 + 1 + 1) with (Z.of_nat 3).
    now rewrite mark_pinloc_Ok by (lia || exact S). }
  reflexivity.
Qed.

(** The position loop on words that all name a side. *)
Lemma pin_locations_Ok pinnum toks : forall g,
  toks <> [] ->
  pinloc_shaped (pinloc g) pinnum ->
  Forall (fun w => side_of w <> None) toks ->
  exists pl,
    pin_locations pinnum toks g =
      Ok tt (set_pinloc pl (set_strtok_rest [] g))
    /\ pinloc_shaped pl pinnum
    /\ forall j p,
         pinloc_at pl j p =
           if (p =? pinnum) && names_side toks j then Some 1
           else pinloc_at (pinloc g) j p.
Proof.
  induction toks as [|w toks IH]; intros g NE S V; [congruence|].
  apply Forall_cons in V as [Vw V].
  destruct (side_of w) as [i|] eqn:Sw; [|congruence].
  pose proof (side_of_lt w i Sw) as Li.
  cbn [pin_locations]. unfold bind at 1. unfold modify at 1.
  unfold bind at 1.
  rewrite match_position_result by exact S. rewrite Sw. cbn [negb].
  cbn [pinloc set_strtok_rest].
  set (g1 := set_pinloc _ _).
  assert (Hd : forall j, bool_decide (Some i = Some j) = bool_decide (j = i)).
  { intros j. apply bool_decide_ext. split; congruence. }
  destruct toks as [|w' toks'].
  - exists (marked (pinloc g) i pinnum). split; [reflexivity|].
    split; [now apply marked_shaped|].
    intros j p. rewrite marked_at by assumption.
    cbn [names_side existsb]. rewrite Sw, Hd, orb_false_r.
    now rewrite andb_comm.
  - destruct (IH g1) as (pl & E & Sh & At); [discriminate| |exact V|].
    { now apply marked_shaped. }
    exists pl. split; [exact E|]. split; [exact Sh|].
    intros j p. rewrite At. cbn [pinloc g1 set_pinloc].
    rewrite marked_at by assumption.
    change (names_side (w :: w' :: toks') j)
      with (bool_decide (side_of w = Some j) || names_side (w' :: toks') j).
    rewrite Sw, Hd.
    destruct (p =? pinnum), (bool_decide (j = i)),
      (names_side (w' :: toks') j); reflexivity.
Qed.

Lemma pin_locations_bad pinnum good : forall bad rest g,
  pinloc_shaped (pinloc g) pinnum ->
  Forall (fun w => side_of w <> None) good ->
  side_of bad = None ->
  pin_locations pinnum (good ++ bad :: rest) g =
    Exit (stdout g ++ [Err_bad_pin_location (linenum g)]).
Proof.
  induction good as [|w good IH]; intros bad rest g S V B;
    cbn [app pin_locations].
  - unfold bind at 1. unfold modify at 1. unfold bind at 1.
    rewrite match_position_result by exact S. rewrite B. reflexivity.
  - apply Forall_cons in V as [Vw V].
    destruct (side_of w) as [i|] eqn:Sw; [|congruence].
    unfold bind at 1. unfold modify at 1. unfold bind at 1.
    rewrite match_position_result by exact S. rewrite Sw. cbn [negb].
    rewrite IH; [reflexivity | | exact V | exact B].
    apply marked_shaped. exact S.
Qed.

(** [get_pin] up to the position words, for a class that is still open
    or already of the pin's type. *)
Lemma get_pin_enters g pinnum type tok locs c cl :
  atoi tok = Some c -> 0 <= c ->
  load (class_inf g) c = Some cl ->
  class_type cl = OPEN \/ class_type cl = type ->
  0 <= num_pins cl < Z.of_nat (length (pinlist cl)) ->
  in_int (num_pins cl + 1) = true ->
  0 <= pinnum < Z.of_nat (length (clb_pin_class g)) ->
  get_pin pinnum type (set_strtok_rest ("class:" :: tok :: locs) g) =
    match locs with
    | [] => Exit (stdout g ++ [Err_pin_no_locations (linenum g)])
    | _ :: _ =>
        pin_locations pinnum locs
          (set_strtok_rest locs (pin_entered g pinnum type c cl))
    end.
Proof.
  intros A P L T N B Q. unfold get_pin.
  assert (G : get_class (set_strtok_rest ("class:" :: tok :: locs) g) =
              Ok c (set_strtok_rest locs g)).
  { rewrite (get_class_number g tok locs c A).
    destruct (c <? 0) eqn:E; [bool_to_Z; lia | reflexivity]. }
  rewrite (bind_Ok _ _ _ _ _ G).
  unfold bind at 1. unfold gets at 1. cbn [class_inf set_strtok_rest].
  rewrite L.
  assert (Lc : (Z.to_nat c < length (class_inf g))%nat).
  { unfold load in L. destruct (0 <=? c); [|discriminate].
    eapply lookup_lt_Some; eauto. }
  assert (E1 :
    (if decide (class_type cl = OPEN)
     then ret (mk_class type (num_pins cl) (pinlist cl))
     else if decide (class_type cl <> type)
          then ln <- gets linenum ;;
               printf (Err_in_get_pin ln) ;;
               printf (Class_both_input_and_output c) ;; exit
          else ret cl) (set_strtok_rest locs g) =
    Ok (mk_class type (num_pins cl) (pinlist cl)) (set_strtok_rest locs g)).
  { destruct (decide (class_type cl = OPEN)); [reflexivity|].
    destruct T as [T|T]; [contradiction|].
    destruct (decide (class_type cl <> type)); [contradiction|].
    unfold ret. f_equal. destruct cl; cbn in *. congruence. }
  rewrite (bind_Ok _ _ _ _ _ E1). cbn [num_pins pinlist class_type].
  rewrite store_Some by exact N.
  unfold bind at 1. rewrite int_Ok by exact B.
  rewrite store_Some by lia.
  unfold bind at 1. unfold modify at 1.
  unfold bind at 1. unfold gets at 1.
  cbn [clb_pin_class set_class_inf set_strtok_rest].
  rewrite store_Some by exact Q.
  unfold bind at 1. unfold modify at 1.
  unfold bind at 1. unfold gets at 1.
  cbn [strtok_rest set_clb_pin_class set_class_inf set_strtok_rest].
  destruct locs as [|w locs]; reflexivity.
Qed.

(** X7. A pin line for a class that already holds pins of the other type
    is fatal with "class contains both input and output pins", whichever
    of the two types came first. *)
Theorem get_pin_mixed_kind g pinnum type tok locs c cl :
  atoi tok = Some c -> 0 <= c ->
  load (class_inf g) c = Some cl ->
  class_type cl <> OPEN -> class_type cl <> type ->
  get_pin pinnum type (set_strtok_rest ("class:" :: tok :: locs) g) =
    Exit (stdout g ++ [Err_in_get_pin (linenum g);
                       Class_both_input_and_output c]).
Proof.
  intros A P L O T. unfold get_pin.
  assert (G : get_class (set_strtok_rest ("class:" :: tok :: locs) g) =
              Ok c (set_strtok_rest locs g)).
  { rewrite (get_class_number g tok locs c A).
    destruct (c <? 0) eqn:E; [bool_to_Z; lia | reflexivity]. }
  rewrite (bind_Ok _ _ _ _ _ G).
  unfold bind at 1. unfold gets at 1. cbn [class_inf set_strtok_rest].
  rewrite L. unfold bind at 1.
  destruct (decide (class_type cl = OPEN)); [contradiction|].
  destruct (decide (class_type cl <> type)); [|contradiction].
  unfold_monad. cbn. now rewrite <- app_assoc.
Qed.

Lemma get_pin_mixed_kind_witness :
  let g := set_class_inf [mk_class DRIVER 1 [Some 0; None]] initial_globals in
  get_pin 1 RECEIVER (set_strtok_rest ["class:"; "0"; "top"] g) =
    Exit [Err_in_get_pin 0; Class_both_input_and_output 0].
Proof.
  apply (get_pin_mixed_kind
           (set_class_inf [mk_class DRIVER 1 [Some 0; None]] initial_globals)
           1 RECEIVER "0" ["top"] 0 (mk_class DRIVER 1 [Some 0; None]));
    try reflexivity; try discriminate.
Defined.

(** X8. A pin line for a class that is open or of the pin's type enters
    the pin at the end of the class's pin list and records the class of
    the pin; then every position word must name a side.  Without any
    position word the line is fatal, and so is the first word that names
    no side.  Otherwise the flags of the pin are set for exactly the
    sides named: the order of the words and repetitions do not matter,
    and no other pin's flags change. *)
Theorem get_pin_positions g pinnum type tok locs c cl :
  atoi tok = Some c -> 0 <= c ->
  load (class_inf g) c = Some cl ->
  class_type cl = OPEN \/ class_type cl = type ->
  0 <= num_pins cl < Z.of_nat (length (pinlist cl)) ->
  in_int (num_pins cl + 1) = true ->
  0 <= pinnum < Z.of_nat (length (clb_pin_class g)) ->
  pinloc_shaped (pinloc g) pinnum ->
  (locs = [] ->
   get_pin pinnum type (set_strtok_rest ("class:" :: tok :: locs) g) =
     Exit (stdout g ++ [Err_pin_no_locations (linenum g)]))
  /\ (forall good bad rest,
        locs = good ++ bad :: rest ->
        Forall (fun w => side_of w <> None) good -> side_of bad = None ->
        get_pin pinnum type (set_strtok_rest ("class:" :: tok :: locs) g) =
          Exit (stdout g ++ [Err_bad_pin_location (linenum g)]))
  /\ (locs <> [] -> Forall (fun w => side_of w <> None) locs ->
      exists pl,
        get_pin pinnum type (set_strtok_rest ("class:" :: tok :: locs) g) =
          Ok tt (set_pinloc pl
                   (set_strtok_rest [] (pin_entered g pinnum type c cl)))
        /\ forall j p,
             pinloc_at pl j p =
               if (p =? pinnum) && names_side locs j then Some 1
               else pinloc_at (pinloc g) j p).
Proof.
  intros A P L T N B Q S.
  pose proof (get_pin_enters g pinnum type tok locs c cl A P L T N B Q) as E.
  split; [|split].
  - intros ->. exact E.
  - intros good bad rest -> V Bd. rewrite E.
    destruct (good ++ bad :: rest) as [|w l] eqn:D.
    { destruct good; discriminate. }
    rewrite <- D.
    exact (pin_locations_bad pinnum good bad rest
             (set_strtok_rest (good ++ bad :: rest)
                (pin_entered g pinnum type c cl)) S V Bd).
  - intros NE V. rewrite E. destruct locs as [|w l]; [congruence|].
    destruct (pin_locations_Ok pinnum (w :: l)
                (set_strtok_rest (w :: l) (pin_entered g pinnum type c cl))
                NE S V) as (pl & El & _ & At).
    exists pl. split; [exact El | exact At].
Qed.

Lemma get_pin_positions_witness :
  let g := set_pinloc (replicate 4 [0; 0])
             (set_clb_pin_class [None; None]
                (set_class_inf [mk_class OPEN 0 [None; None]]
                   initial_globals)) in
  exists pl,
    get_pin 1 DRIVER
      (set_strtok_rest ["class:"; "0"; "left"; "top"; "left"] g) =
      Ok tt (set_pinloc pl
               (set_strtok_rest []
                  (pin_entered g 1 DRIVER 0 (mk_class OPEN 0 [None; None]))))
    /\ pl = [[0; 1]; [0; 0]; [0; 1]; [0; 0]].
Proof.
  intros g.
  destruct (get_pin_positions g 1 DRIVER "0" ["left"; "top"; "left"] 0
              (mk_class OPEN 0 [None; None])) as (_ & _ & H);
    try reflexivity; try (cbn; lia); try (now left).
  - split; [reflexivity|]. intros i row Hr.
    do 4 (destruct i as [|i]; [injection Hr as <-; cbn; lia|]).
    discriminate.
  - destruct H as (pl & E & At); [discriminate | |].
    + repeat constructor; discriminate.
    + exists pl. split; [exact E|].
      vm_compute in E. now injection E as <-.
Defined.

(** ** The cells of the grid *)

Lemma for_loop_post (Inv : Z -> globals -> Prop) (body : Z -> M unit) n :
  forall i g g',
  for_loop n i body g = Ok tt g' -> Inv i g ->
  (forall k g g', i <= k < i + Z.of_nat n ->
     body k g = Ok tt g' -> Inv k g -> Inv (k + 1) g') ->
  Inv (i + Z.of_nat n) g'.
Proof.
  induction n as [|n IH]; intros i g g' H H0 Hstep; cbn in H.
  - unfold ret in H. injection H as <-.
    now replace (i + Z.of_nat 0) with i by lia.
  - apply bind_Ok_inv in H as ([] & g1 & E & H).
    replace (i + Z.of_nat (S n)) with (i + 1 + Z.of_nat n) by lia.
    apply (IH (i + 1) g1 g' H).
    + apply (Hstep i g g1); [lia | exact E | exact H0].
    + intros k ga gb Hk. apply Hstep. lia.
Qed.

Lemma for_fold_post {A} (Inv : Z -> globals -> Prop)
    (body : Z -> A -> M A) n :
  forall i a g a' g',
  for_fold n i body a g = Ok a' g' -> Inv i g ->
  (forall k a g a' g', i <= k < i + Z.of_nat n ->
     body k a g = Ok a' g' -> Inv k g -> Inv (k + 1) g') ->
  Inv (i + Z.of_nat n) g'.
Proof.
  induction n as [|n IH]; intros i a g a' g' H H0 Hstep; cbn in H.
  - unfold ret in H. injection H as <- <-.
    now replace (i + Z.of_nat 0) with i by lia.
  - apply bind_Ok_inv in H as (a1 & g1 & E & H).
    replace (i + Z.of_nat (S n)) with (i + 1 + Z.of_nat n) by lia.
    apply (IH (i + 1) a1 g1 a' g' H).
    + apply (Hstep i a g a1 g1); [lia | exact E | exact H0].
    + intros k b ga b' gb Hk. apply Hstep. lia.
Qed.

Lemma assign_clb_inv i j f g g' :
  assign_clb i j f g = Ok tt g' ->
  exists c, clb g !! (i, j) = Some c
            /\ clb g' = <[(i, j) := f c]> (clb g).
Proof.
  unfold assign_clb. destruct (clb g !! (i, j)) as [c|]; [|discriminate].
  intros [= <-]. eauto.
Qed.

Lemma typed_by_ext (S S' : Z * Z -> option e_block_type) m0 m :
  (forall q, S q = S' q) -> typed_by S m0 m -> typed_by S' m0 m.
Proof. intros E T q. rewrite <- E. apply T. Qed.

(** An assignment of a type. *)
Lemma assign_type_post S m0 i j t g g' :
  assign_clb i j (set_clb_type t) g = Ok tt g' ->
  typed_by S m0 (clb g) ->
  typed_by (fun q => if decide (q = (i, j)) then Some t else S q) m0 (clb g')
  /\ forall q, slice_of g' q = slice_of g q.
Proof.
  intros H T. apply assign_clb_inv in H as (c & L & E). split.
  - intros q. unfold cell_type. rewrite E.
    destruct (decide (q = (i, j))) as [->|N].
    + now rewrite lookup_insert_eq.
    + rewrite lookup_insert_ne by congruence. apply T.
  - intros q. unfold slice_of. rewrite E. now apply slice_insert_type.
Qed.

(** An assignment of a slice. *)
Lemma assign_slice_post S m0 i j x g g' :
  assign_clb i j (set_io_blocks x) g = Ok tt g' ->
  typed_by S m0 (clb g) ->
  typed_by S m0 (clb g')
  /\ forall q, q <> (i, j) -> slice_of g' q = slice_of g q.
Proof.
  intros H T. apply assign_clb_inv in H as (c & L & E). split.
  - intros q. rewrite <- T. unfold cell_type. rewrite E.
    destruct (decide (q = (i, j))) as [->|N].
    + now rewrite lookup_insert_eq, L.
    + now rewrite lookup_insert_ne by congruence.
  - intros q N. unfold slice_of. rewrite E.
    apply slice_insert_ne. congruence.
Qed.

Lemma pair_neq (a b c d : Z) : (a, b) <> (c, d) -> a <> c \/ b <> d.
Proof.
  intros H. destruct (decide (a = c)) as [->|]; [|now left].
  right. intros ->. now apply H.
Qed.

Ltac grid_cases :=
  repeat case_decide; simplify_eq/=;
  repeat match goal with
    | H : (_, _) <> (_, _) |- _ => apply pair_neq in H
    end;
  try reflexivity; try lia; try (exfalso; lia).

Section FillArchTypes.

Variables X Y : Z.
Hypothesis X_pos : 0 <= X.
Hypothesis Y_pos : 0 <= Y.
Variable m0 : gmap (Z * Z) s_clb.

Local Abbreviation stage := (fill_stage X Y m0).

Lemma carve_columns_post r g0 n index g index' g' :
  for_fold n 1 (fun i index =>
      assign_clb i 0 (set_io_blocks index) ;;
      let index := index + r in
      assign_clb i (Y + 1) (set_io_blocks index) ;;
      let index := index + r in
      ret index) index g = Ok index' g' ->
  Z.of_nat n <= X ->
  stage (fun _ => None) g0 g -> stage (fun _ => None) g0 g'.
Proof.
  intros H Hn H0.
  apply (for_fold_post (fun _ g => stage (fun _ => None) g0 g) _ _ _ _ _ _ _
           H H0).
  intros k a ga a' gb Hk Hb [T F].
  apply bind_Ok_inv in Hb as ([] & g1 & E1 & Hb).
  apply bind_Ok_inv in Hb as ([] & g2 & E2 & Hb).
  unfold ret in Hb. injection Hb as _ <-.
  destruct (assign_slice_post _ _ _ _ _ _ _ E1 T) as [T1 F1].
  destruct (assign_slice_post _ _ _ _ _ _ _ E2 T1) as [T2 F2].
  split; [exact T2|]. intros q Hq.
  rewrite F2, F1; [now apply F| |]; intros ->; apply Hq;
    unfold is_perimeter; cbn; lia.
Qed.

Lemma carve_rows_post r g0 n index g index' g' :
  for_fold n 1 (fun i index =>
      assign_clb 0 i (set_io_blocks index) ;;
      let index := index + r in
      assign_clb (X + 1) i (set_io_blocks index) ;;
      let index := index + r in
      ret index) index g = Ok index' g' ->
  Z.of_nat n <= Y ->
  stage (fun _ => None) g0 g -> stage (fun _ => None) g0 g'.
Proof.
  intros H Hn H0.
  apply (for_fold_post (fun _ g => stage (fun _ => None) g0 g) _ _ _ _ _ _ _
           H H0).
  intros k a ga a' gb Hk Hb [T F].
  apply bind_Ok_inv in Hb as ([] & g1 & E1 & Hb).
  apply bind_Ok_inv in Hb as ([] & g2 & E2 & Hb).
  unfold ret in Hb. injection Hb as _ <-.
  destruct (assign_slice_post _ _ _ _ _ _ _ E1 T) as [T1 F1].
  destruct (assign_slice_post _ _ _ _ _ _ _ E2 T1) as [T2 F2].
  split; [exact T2|]. intros q Hq.
  rewrite F2, F1; [now apply F| |]; intros ->; apply Hq;
    unfold is_perimeter; cbn; lia.
Qed.

(** Two assignments of a type in a row. *)
Lemma assign_types_post S g0 p1 p2 t g g' :
  (assign_clb p1.1 p1.2 (set_clb_type t) ;;
   assign_clb p2.1 p2.2 (set_clb_type t)) g = Ok tt g' ->
  stage S g0 g ->
  stage (fun q => if decide (q = p2) then Some t
                  else if decide (q = p1) then Some t else S q) g0 g'.
Proof.
  intros H [T F]. destruct p1 as [a1 b1], p2 as [a2 b2]. cbn [fst snd] in H.
  apply bind_Ok_inv in H as ([] & g1 & E1 & E2).
  destruct (assign_type_post _ _ _ _ _ _ _ E1 T) as [T1 F1].
  destruct (assign_type_post _ _ _ _ _ _ _ E2 T1) as [T2 F2].
  split; [exact T2|]. intros q Hq. rewrite F2, F1. now apply F.
Qed.

Lemma type_columns_post g0 g g' :
  for_range 1 (X + 1) (fun i =>
    assign_clb i 0 (set_clb_type IO) ;;
    assign_clb i (Y + 1) (set_clb_type IO)) g = Ok tt g' ->
  stage (fun _ => None) g0 g -> stage (typed_columns Y (X + 1)) g0 g'.
Proof.
  intros H [T F]. unfold for_range in H.
  cut (stage (typed_columns Y (1 + Z.of_nat (Z.to_nat (X + 1 - 1)))) g0 g').
  { now replace (1 + Z.of_nat (Z.to_nat (X + 1 - 1))) with (X + 1) by lia. }
  apply (for_loop_post (fun k g => stage (typed_columns Y k) g0 g) _ _ _ _ _ H).
  - split; [|exact F]. apply (typed_by_ext (fun _ => None)); [|exact T].
    intros [a b]. unfold typed_columns. grid_cases.
  - intros k ga gb Hk Hb St.
    destruct (assign_types_post _ g0 (k, 0) (k, Y + 1) IO _ _ Hb St)
      as [T1 F1].
    split; [|exact F1]. eapply typed_by_ext; [|exact T1].
    intros [a b]. unfold typed_columns. grid_cases.
Qed.

Lemma type_rows_post g0 g g' :
  for_range 1 (Y + 1) (fun i =>
    assign_clb 0 i (set_clb_type IO) ;;
    assign_clb (X + 1) i (set_clb_type IO)) g = Ok tt g' ->
  stage (typed_columns Y (X + 1)) g0 g ->
  stage (typed_rows X Y (Y + 1)) g0 g'.
Proof.
  intros H [T F]. unfold for_range in H.
  cut (stage (typed_rows X Y (1 + Z.of_nat (Z.to_nat (Y + 1 - 1)))) g0 g').
  { now replace (1 + Z.of_nat (Z.to_nat (Y + 1 - 1))) with (Y + 1) by lia. }
  apply (for_loop_post (fun k g => stage (typed_rows X Y k) g0 g) _ _ _ _ _ H).
  - split; [|exact F]. eapply typed_by_ext; [|exact T].
    intros [a b]. unfold typed_rows, typed_columns. grid_cases.
  - intros k ga gb Hk Hb St.
    destruct (assign_types_post _ g0 (0, k) (X + 1, k) IO _ _ Hb St)
      as [T1 F1].
    split; [|exact F1]. eapply typed_by_ext; [|exact T1].
    intros [a b]. unfold typed_rows, typed_columns. grid_cases.
Qed.

Lemma type_interior_post g0 g g' :
  for_range 1 (X + 1) (fun i =>
    for_range 1 (Y + 1) (fun j =>
      assign_clb i j (set_clb_type CLB))) g = Ok tt g' ->
  stage (typed_rows X Y (Y + 1)) g0 g ->
  stage (typed_interior X Y (X + 1) 1) g0 g'.
Proof.
  intros H [T F]. unfold for_range in H.
  cut (stage (typed_interior X Y (1 + Z.of_nat (Z.to_nat (X + 1 - 1))) 1)
         g0 g').
  { now replace (1 + Z.of_nat (Z.to_nat (X + 1 - 1))) with (X + 1) by lia. }
  apply (for_loop_post (fun k g => stage (typed_interior X Y k 1) g0 g)
           _ _ _ _ _ H).
  - split; [|exact F]. eapply typed_by_ext; [|exact T].
    intros [a b]. unfold typed_interior. grid_cases.
  - intros k ga gb Hk Hb St.
    assert (I : stage (typed_interior X Y k
                         (1 + Z.of_nat (Z.to_nat (Y + 1 - 1)))) g0 gb).
    { apply (for_loop_post (fun l g => stage (typed_interior X Y k l) g0 g)
               _ _ _ _ _ Hb St).
      intros l gc gd Hl Hc [Tc Fc].
      destruct (assign_type_post _ _ _ _ _ _ _ Hc Tc) as [T1 F1].
      split.
      - eapply typed_by_ext; [|exact T1].
        intros [a b]. unfold typed_interior. grid_cases.
      - intros q Hq. rewrite F1. now apply Fc. }
    destruct I as [T1 F1]. split; [|exact F1].
    eapply typed_by_ext; [|exact T1].
    intros [a b]. unfold typed_interior. grid_cases.
Qed.

Lemma type_corners_post g0 g g' :
  (assign_clb (X + 1) 0 (set_clb_type ILLEGAL) ;;
   assign_clb 0 0 (set_clb_type ILLEGAL) ;;
   assign_clb (X + 1) (Y + 1) (set_clb_type ILLEGAL) ;;
   assign_clb 0 (Y + 1) (set_clb_type ILLEGAL)) g = Ok tt g' ->
  stage (typed_interior X Y (X + 1) 1) g0 g ->
  stage (typed_corners X Y) g0 g'.
Proof.
  intros H [T F].
  apply bind_Ok_inv in H as ([] & g1 & E1 & H).
  apply bind_Ok_inv in H as ([] & g2 & E2 & H).
  apply bind_Ok_inv in H as ([] & g3 & E3 & E4).
  destruct (assign_type_post _ _ _ _ _ _ _ E1 T) as [T1 F1].
  destruct (assign_type_post _ _ _ _ _ _ _ E2 T1) as [T2 F2].
  destruct (assign_type_post _ _ _ _ _ _ _ E3 T2) as [T3 F3].
  destruct (assign_type_post _ _ _ _ _ _ _ E4 T3) as [T4 F4].
  split.
  - eapply typed_by_ext; [|exact T4].
    intros [a b]. unfold typed_corners. grid_cases.
  - intros q Hq. rewrite F4, F3, F2, F1. now apply F.
Qed.

Lemma typed_corners_kind q :
  0 <= q.1 <= X + 1 -> 0 <= q.2 <= Y + 1 ->
  typed_corners X Y q = Some (grid_kind X Y q).
Proof.
  destruct q as [a b]. cbn [fst snd]. intros Ha Hb.
  unfold typed_corners, typed_interior, typed_rows, typed_columns, grid_kind.
  cbn [fst snd].
  destruct (Z.eqb_spec a 0), (Z.eqb_spec a (X + 1)), (Z.eqb_spec b 0),
    (Z.eqb_spec b (Y + 1)); cbn; grid_cases.
Qed.

End FillArchTypes.

(** ** The kinds of the cells after [fill_arch] *)

Lemma fill_arch_stages g g' :
  0 <= nx g -> 0 <= ny g ->
  fill_arch g = Ok tt g' ->
  typed_by (typed_corners (nx g) (ny g)) (clb g) (clb g')
  /\ forall q, ~ is_perimeter (nx g) (ny g) q ->
       slice_of g' q = slice_of g q.
Proof.
  intros Hx Hy E. unfold fill_arch in E.
  unfold bind at 1, gets at 1 in E.
  unfold bind at 1, gets at 1 in E.
  unfold bind at 1, gets at 1 in E.
  apply bind_Ok_inv in E as (r2 & g1 & I1 & E).
  apply int_Ok_inv in I1 as (_ & -> & ->).
  apply bind_Ok_inv in E as (xy & g1 & I1 & E).
  apply int_Ok_inv in I1 as (_ & -> & ->).
  apply bind_Ok_inv in E as (sz & g1 & I1 & E).
  apply int_Ok_inv in I1 as (_ & -> & ->).
  apply bind_Ok_inv in E as (y1 & g1 & I1 & E).
  apply int_Ok_inv in I1 as (_ & -> & ->).
  apply bind_Ok_inv in E as (x1 & g1 & I1 & E).
  apply int_Ok_inv in I1 as (_ & -> & ->).
  apply bind_Ok_inv in E as (index & g1 & L1 & E).
  apply bind_Ok_inv in E as (index' & g2 & L2 & E).
  apply bind_Ok_inv in E as ([] & g3 & L3 & E).
  apply bind_Ok_inv in E as ([] & g4 & L4 & E).
  apply bind_Ok_inv in E as ([] & g5 & L5 & E).
  assert (S0 : fill_stage (nx g) (ny g) (clb g) (fun _ => None) g g).
  { split; [intros q; reflexivity | reflexivity]. }
  pose proof (carve_columns_post (nx g) (ny g) (clb g) _ g _ _ _ _ _ L1
                ltac:(lia) S0) as S1.
  pose proof (carve_rows_post (nx g) (ny g) (clb g) _ g _ _ _ _ _ L2
                ltac:(lia) S1) as S2.
  pose proof (type_columns_post (nx g) (ny g) Hx Hy (clb g) g _ _ L3 S2)
    as S3.
  pose proof (type_rows_post (nx g) (ny g) Hx Hy (clb g) g _ _ L4 S3)
    as S4.
  pose proof (type_interior_post (nx g) (ny g) Hx Hy (clb g) g _ _ L5 S4)
    as S5.
  exact (type_corners_post (nx g) (ny g) Hx Hy (clb g) g _ _ E S5).
Qed.

(** X9.  On an allocated grid [fill_arch] makes the four corners
    [ILLEGAL], the other cells of the border [IO] and every interior
    cell [CLB], and it gives a slice of pad slots to the perimeter cells
    only: the slice of any other cell is left as it was. *)
Theorem fill_arch_cell_kinds g :
  0 <= nx g -> 0 <= ny g ->
  allocated (clb g) (nx g + 1) (ny g + 1) ->
  in_int (2 * io_rat g) = true ->
  in_int (nx g + ny g) = true ->
  in_int (2 * io_rat g * (nx g + ny g)) = true ->
  in_int (nx g + 1) = true ->
  in_int (ny g + 1) = true ->
  exists g',
    fill_arch g = Ok tt g'
    /\ (forall i j, 0 <= i <= nx g + 1 -> 0 <= j <= ny g + 1 ->
          cell_type (clb g') (i, j)
          = Some (grid_kind (nx g) (ny g) (i, j)))
    /\ (forall cell, ~ is_perimeter (nx g) (ny g) cell ->
          slice_of g' cell = slice_of g cell).
Proof.
  intros Hx Hy A B1 B2 B3 B4 B5.
  destruct (fill_arch_Ok g Hx Hy A B1 B2 B3 B4 B5) as (m & E & _).
  exists (set_clb m g). split; [exact E|].
  destruct (fill_arch_stages _ _ Hx Hy E) as [T F].
  split; [|exact F].
  intros i j Hi Hj. rewrite (T (i, j)).
  now rewrite (typed_corners_kind (nx g) (ny g) Hx Hy (i, j)).
Qed.

Lemma fill_arch_cell_kinds_witness :
  exists g',
    fill_arch grid_2x1 = Ok tt g'
    /\ cell_type (clb g') (0, 0) = Some ILLEGAL
    /\ cell_type (clb g') (1, 0) = Some IO
    /\ cell_type (clb g') (2, 1) = Some CLB.
Proof.
  destruct (fill_arch_cell_kinds grid_2x1) as (g' & E & K & _);
    try reflexivity; try (cbn; lia).
  - apply (alloc_matrix_allocated 3 2).
  - exists g'. split; [exact E|].
    split; [|split]; rewrite K; try reflexivity; cbn; lia.
Defined.

(** ** [init_arch] with a size given by the user *)

Lemma check_user_size_result g :
  in_int (nx g * ny g) = true ->
  in_int (num_p_inputs g + num_p_outputs g) = true ->
  in_int (2 * io_rat g) = true ->
  in_int (nx g + ny g) = true ->
  in_int (2 * io_rat g * (nx g + ny g)) = true ->
  check_user_size g =
    if user_size_too_small g
    then Exit (stdout g ++ [Err_user_size_too_small])
    else Ok tt g.
Proof.
  intros B1 B2 B3 B4 B5. unfold check_user_size, user_size_too_small.
  unfold bind at 1, gets at 1.
  unfold bind at 1, gets at 1.
  unfold bind at 1, gets at 1.
  unfold bind at 1. rewrite (int_Ok _ _ B1).
  destruct (num_clbs g >? nx g * ny g).
  - reflexivity.
  - unfold bind, gets, ret, printf, modify, exit. cbv beta.
    rewrite (int_Ok _ _ B2), (int_Ok _ _ B3), (int_Ok _ _ B4),
      (int_Ok _ _ B5). cbn [orb].
    destruct (num_p_inputs g + num_p_outputs g >?
              2 * io_rat g * (nx g + ny g)); reflexivity.
Qed.

(** The grid that the end of [init_arch] allocates and fills. *)
Lemma init_arch_grid g :
  0 <= nx g <= 32766 -> 0 <= ny g <= 32766 ->
  in_int (2 * io_rat g) = true ->
  in_int (2 * io_rat g * (nx g + ny g)) = true ->
  exists g',
    (x1 <- int (nx g + 1) ;;
     y1 <- int (ny g + 1) ;;
     modify (set_clb (alloc_matrix 0 x1 0 y1)) ;;
     modify (set_chan_width_x (replicate (Z.to_nat y1) None)) ;;
     modify (set_chan_width_y (replicate (Z.to_nat x1) None)) ;;
     fill_arch) g = Ok tt g'
    /\ grid_built g g'.
Proof.
  intros Hx Hy B1 B2.
  set (g2 := set_chan_width_y (replicate (Z.to_nat (nx g + 1)) None)
               (set_chan_width_x (replicate (Z.to_nat (ny g + 1)) None)
                  (set_clb (alloc_matrix 0 (nx g + 1) 0 (ny g + 1)) g))).
  assert (Gx : 0 <= nx g2) by (cbn; lia).
  assert (Gy : 0 <= ny g2) by (cbn; lia).
  destruct (fill_arch_Ok g2) as (m & F & C & R); cbn; try lia.
  - apply alloc_matrix_allocated.
  - exact B1.
  - apply in_int_spec. unfold INT_MIN, INT_MAX. lia.
  - exact B2.
  - apply in_int_spec. unfold INT_MIN, INT_MAX. lia.
  - apply in_int_spec. unfold INT_MIN, INT_MAX. lia.
  - exists (set_clb m g2). split.
    + unfold bind at 1.
      rewrite int_Ok by (apply in_int_spec; unfold INT_MIN, INT_MAX; lia).
      unfold bind at 1.
      rewrite int_Ok by (apply in_int_spec; unfold INT_MIN, INT_MAX; lia).
      unfold bind at 1. unfold modify at 1.
      unfold bind at 1. unfold modify at 1.
      unfold bind at 1. unfold modify at 1.
      exact F.
    + destruct (fill_arch_stages _ _ Gx Gy F) as [T _].
      split; [reflexivity|]. split; [reflexivity|].
      split; [apply length_replicate|]. split; [apply length_replicate|].
      split.
      * intros i j Hi Hj. rewrite (T (i, j)).
        change (nx g2) with (nx g). change (ny g2) with (ny g).
        now rewrite (typed_corners_kind (nx g) (ny g) Gx Gy (i, j)).
      * apply (carved_from_loops (set_clb m g2) (nx g) (ny g)).
        -- lia.
        -- lia.
        -- exact C.
        -- exact R.
Qed.

(** X10.  With dimensions given by the user [init_arch] does not touch
    them and disregards the aspect ratio.  It stops with the message
    that the size is too small when the logic blocks outnumber the
    [nx*ny] cells or the pads outnumber the [2*io_rat*(nx+ny)] pad slots;
    otherwise with the message about a single location when the grid is
    the one cell 1x1 and there is a logic block; otherwise with the
    message about the limit when a dimension exceeds 32766; otherwise it
    builds the grid of the given size. *)
Theorem init_arch_user_size g aspect_ratio :
  0 <= nx g -> 0 <= ny g ->
  in_int (nx g * ny g) = true ->
  in_int (num_p_inputs g + num_p_outputs g) = true ->
  in_int (2 * io_rat g) = true ->
  in_int (nx g + ny g) = true ->
  in_int (2 * io_rat g * (nx g + ny g)) = true ->
  if user_size_too_small g then
    init_arch aspect_ratio true g
    = Exit (stdout g ++ [Err_user_size_too_small])
  else if single_location g then
    init_arch aspect_ratio true g
    = Exit (stdout g ++ [Err_one_valid_location])
  else if beyond_short g then
    init_arch aspect_ratio true g
    = Exit (stdout g ++ [Err_nx_ny_limit (nx g) (ny g)])
  else
    exists g', init_arch aspect_ratio true g = Ok tt g' /\ grid_built g g'.
Proof.
  intros Hx Hy B1 B2 B3 B4 B5.
  pose proof (check_user_size_result g B1 B2 B3 B4 B5) as C.
  destruct (user_size_too_small g).
  { unfold init_arch. now rewrite (bind_Exit _ _ _ _ C). }
  assert (E : init_arch aspect_ratio true g =
    ((if single_location g then printf Err_one_valid_location ;; exit
      else ret tt) ;;
     (if beyond_short g then printf (Err_nx_ny_limit (nx g) (ny g)) ;; exit
      else ret tt) ;;
     x1 <- int (nx g + 1) ;;
     y1 <- int (ny g + 1) ;;
     modify (set_clb (alloc_matrix 0 x1 0 y1)) ;;
     modify (set_chan_width_x (replicate (Z.to_nat y1) None)) ;;
     modify (set_chan_width_y (replicate (Z.to_nat x1) None)) ;;
     fill_arch) g).
  { unfold init_arch. rewrite (bind_Ok _ _ _ _ _ C). reflexivity. }
  rewrite E. clear E.
  destruct (single_location g).
  { reflexivity. }
  unfold bind at 1. unfold ret at 1.
  destruct (beyond_short g) eqn:D2.
  { reflexivity. }
  unfold bind at 1. unfold ret at 1.
  unfold beyond_short in D2.
  apply orb_false_iff in D2 as [D2 D3]. bool_to_Z.
  apply init_arch_grid; try assumption; lia.
Qed.

Lemma init_arch_user_size_witness :
  exists g',
    init_arch (Float.flit false 3 0) true sized_10x10 = Ok tt g'
    /\ grid_built sized_10x10 g'.
Proof.
  apply (init_arch_user_size sized_10x10 (Float.flit false 3 0));
    try reflexivity; cbn; lia.
Defined.

(** ** The automatic size of the grid *)

Lemma ceil_quot_spec a b :
  0 < b -> b * (ceil_quot a b - 1) < a <= b * ceil_quot a b.
Proof.
  intros B. unfold ceil_quot.
  pose proof (Z.div_mod (- a) b ltac:(lia)) as D.
  pose proof (Z.mod_pos_bound (- a) b B) as M.
  nia.
Qed.

(** [ceil_sqrt_quot a b] is the least [k >= 0] with [a / b <= k^2]. *)
Lemma ceil_sqrt_quot_spec a b :
  0 <= a -> 0 < b ->
  let k := ceil_sqrt_quot a b in
  0 <= k /\ a <= k * k * b /\ (0 < k -> (k - 1) * (k - 1) * b < a).
Proof.
  intros A B k. subst k. unfold ceil_sqrt_quot.
  pose proof (ceil_quot_spec a b B) as Q.
  set (m := ceil_quot a b) in *.
  assert (M : 0 <= m) by nia.
  split; [apply Z.sqrt_up_nonneg|].
  destruct (Z.eq_dec m 0) as [->|N].
  - change (Z.sqrt_up 0) with 0. split; lia.
  - pose proof (Z.sqrt_up_spec m ltac:(lia)) as S.
    unfold Z.pred in S. set (k := Z.sqrt_up m) in *.
    replace (k + -1) with (k - 1) in S by lia.
    split; [nia|]. intros _. nia.
Qed.

(** [init_arch] once the automatic size is known. *)
Lemma init_arch_automatic aspect_ratio g g1 :
  size_automatically aspect_ratio g = Ok tt g1 ->
  single_location g1 = false -> beyond_short g1 = false ->
  0 <= nx g1 -> 0 <= ny g1 ->
  in_int (2 * io_rat g1) = true ->
  in_int (2 * io_rat g1 * (nx g1 + ny g1)) = true ->
  exists g', init_arch aspect_ratio false g = Ok tt g' /\ grid_built g1 g'.
Proof.
  intros S D1 D2 Hx Hy B1 B2.
  assert (E : init_arch aspect_ratio false g =
    ((if single_location g1 then printf Err_one_valid_location ;; exit
      else ret tt) ;;
     (if beyond_short g1
      then printf (Err_nx_ny_limit (nx g1) (ny g1)) ;; exit
      else ret tt) ;;
     x1 <- int (nx g1 + 1) ;;
     y1 <- int (ny g1 + 1) ;;
     modify (set_clb (alloc_matrix 0 x1 0 y1)) ;;
     modify (set_chan_width_x (replicate (Z.to_nat y1) None)) ;;
     modify (set_chan_width_y (replicate (Z.to_nat x1) None)) ;;
     fill_arch) g1).
  { unfold init_arch. rewrite (bind_Ok _ _ _ _ _ S). reflexivity. }
  rewrite E, D1, D2. clear E.
  unfold bind at 1. unfold ret at 1.
  unfold bind at 1. unfold ret at 1.
  unfold beyond_short in D2.
  apply orb_false_iff in D2 as [D2 D3]. bool_to_Z.
  apply init_arch_grid; try assumption; lia.
Qed.

Lemma sized_range :
  forallb (sized_as_specified (Float.flit false 1 0)) (seqZ 0 2001) = true.
Proof. vm_compute. reflexivity. Qed.

(** C8 (what the code does).  The automatic size is computed in
    floating point: the quotient [num_clbs / aspect_ratio] is a [float]
    division of the logic-block count converted to [float].  For the
    example of the specification (100 logic blocks, aspect ratio 1.0,
    [io_rat = 2], no pads) [init_arch] builds the grid 10 by 10, for 4
    logic blocks and 100 pads the pads decide and the grid is 13 by 13,
    for 100 logic blocks at ratio 1.5 it is 14 by 9, and for every count
    up to 2000 at ratio 1.0 the size is the one of the formulas.  For
    16777217 logic blocks the count is rounded to 16777216 by the
    conversion: the grid is 4096 by 4096, one cell short of the circuit,
    where the formulas give 4097 by 4097. *)
Theorem automatic_size :
  let one := Float.flit false 1 0 in
  (exists g',
     init_arch one false circuit_100 = Ok tt g'
     /\ spec_size 100 0 2 one = Some (10, 10)
     /\ (nx g', ny g') = (10, 10))
  /\ (exists g',
        init_arch one false (circuit_of 4 60 40) = Ok tt g'
        /\ spec_size 4 100 2 one = Some (13, 13)
        /\ (nx g', ny g') = (13, 13))
  /\ (exists g',
        init_arch (Float.flit false 15 (-1)) false (circuit_of 100 0 0)
          = Ok tt g'
        /\ exact_value (Float.flit false 15 (-1)) = Some (12582912, 2 ^ 23)
        /\ spec_size 100 0 2 (Float.flit false 15 (-1)) = Some (14, 9)
        /\ (nx g', ny g') = (14, 9))
  /\ (forall n, 0 <= n <= 2000 ->
        exists g',
          size_automatically one (circuit_of n 0 0) = Ok tt g'
          /\ spec_size n 0 2 one = Some (nx g', ny g'))
  /\ (exists g',
        init_arch one false (circuit_of 16777217 0 0) = Ok tt g'
        /\ (nx g', ny g') = (4096, 4096)
        /\ nx g' * ny g' < num_clbs (circuit_of 16777217 0 0)
        /\ spec_size 16777217 0 2 one = Some (4097, 4097)).
Proof.
  intros one.
  assert (Run : forall a g x y,
    size_automatically a g = Ok tt (set_nx x (set_ny y g)) ->
    (x =? 1) && (y =? 1) && negb (num_clbs g =? 0) = false ->
    0 <= x <= 32766 -> 0 <= y <= 32766 ->
    in_int (2 * io_rat g) = true ->
    in_int (2 * io_rat g * (x + y)) = true ->
    exists g', init_arch a false g = Ok tt g' /\ (nx g', ny g') = (x, y)).
  { intros a g x y S D1 Hx Hy B1 B2.
    destruct (init_arch_automatic a g (set_nx x (set_ny y g)) S)
      as (g' & E & Bx & By & _); try assumption; try (cbn; lia).
    - unfold beyond_short. cbn [nx ny set_nx set_ny].
      apply orb_false_iff. rewrite !Z.gtb_ltb.
      split; apply Z.ltb_ge; lia.
    - exists g'. split; [exact E|]. now rewrite Bx, By. }
  split; [|split; [|split; [|split]]].
  - destruct (Run one circuit_100 10 10) as (g' & E & Sz);
      try reflexivity; try lia.
    exists g'. split; [exact E|]. split; [reflexivity | exact Sz].
  - destruct (Run one (circuit_of 4 60 40) 13 13) as (g' & E & Sz);
      try reflexivity; try lia.
    exists g'. split; [exact E|]. split; [reflexivity | exact Sz].
  - destruct (Run (Float.flit false 15 (-1)) (circuit_of 100 0 0) 14 9)
      as (g' & E & Sz); try reflexivity; try lia.
    exists g'. split; [exact E|]. split; [reflexivity|].
    split; [reflexivity | exact Sz].
  - intros n Hn.
    pose proof (proj1 (forallb_forall _ _) sized_range n) as R.
    assert (I : In n (seqZ 0 2001)).
    { apply list_elem_of_In, elem_of_seqZ. lia. }
    specialize (R I). unfold sized_as_specified in R.
    apply bool_decide_eq_true in R as [R [[x y] Sp]].
    rewrite Sp in R. unfold sized in R. fold one in R.
    destruct (size_automatically one (circuit_of n 0 0)) as [[] g'| |];
      try discriminate.
    exists g'. split; [reflexivity|]. fold one in Sp. rewrite Sp.
    now injection R as -> ->.
  - destruct (Run one (circuit_of 16777217 0 0) 4096 4096)
      as (g' & E & Sz); try reflexivity; try lia.
    exists g'. split; [exact E|]. split; [exact Sz|].
    injection Sz as -> ->. split; [|reflexivity]. cbn. lia.
Qed.

Lemma automatic_size_witness :
  exists g',
    size_automatically (Float.flit false 1 0) (circuit_of 101 0 0)
      = Ok tt g'
    /\ spec_size 101 0 2 (Float.flit false 1 0) = Some (nx g', ny g')
    /\ ny g' = 11.
Proof.
  destruct automatic_size as (_ & _ & _ & R & _).
  destruct (R 101 ltac:(lia)) as (g' & E & Sp).
  exists g'. split; [exact E|]. split; [exact Sp|].
  assert (S11 : spec_size 101 0 2 (Float.flit false 1 0) = Some (11, 11))
    by reflexivity.
  rewrite S11 in Sp. now injection Sp as _ <-.
Defined.

(** ** The sizes found by the count pass *)

Lemma count_of_extend ppc k c :
  count_of (ppc ++ replicate k 0) c = count_of ppc c.
Proof.
  unfold count_of. destruct (0 <=? c); [|reflexivity].
  destruct (decide (Z.to_nat c < length ppc)%nat) as [L|L].
  - now rewrite lookup_app_l by exact L.
  - rewrite lookup_app_r by lia. rewrite (lookup_ge_None_2 ppc) by lia.
    destruct (replicate k 0 !! (Z.to_nat c - length ppc)%nat) eqn:E;
      [|reflexivity].
    apply lookup_replicate in E as [-> _]. reflexivity.
Qed.

Lemma count_of_insert ppc c n v c' :
  0 <= c -> ppc !! Z.to_nat c = Some n ->
  count_of (<[Z.to_nat c := v]> ppc) c' =
    if decide (c' = c) then v else count_of ppc c'.
Proof.
  intros P H. unfold count_of. destruct (decide (c' = c)) as [->|N].
  - destruct (Z.leb_spec 0 c); [|lia].
    rewrite list_lookup_insert_eq; [reflexivity|].
    eapply lookup_lt_Some; eauto.
  - destruct (Z.leb_spec 0 c'); [|reflexivity].
    rewrite list_lookup_insert_ne by lia. reflexivity.
Qed.

Lemma total_cons x l : total (x :: l) = x + total l.
Proof. reflexivity. Qed.

Lemma total_replicate_0 k : total (replicate k 0) = 0.
Proof.
  induction k as [|k IH]; [reflexivity|].
  change (replicate (S k) 0) with (0 :: replicate k 0).
  rewrite total_cons, IH. reflexivity.
Qed.

Lemma total_insert (l : list Z) i n v :
  l !! i = Some n -> total (<[i := v]> l) = total l - n + v.
Proof.
  revert i. induction l as [|x l IH]; intros [|i] H; try discriminate.
  - injection H as ->. unfold total. cbn. lia.
  - cbn in H. specialize (IH i H).
    change (<[S i := v]> (x :: l)) with (x :: <[i := v]> l).
    rewrite !total_cons, IH. lia.
Qed.

(** What one line does to the counts. *)
Lemma countpass_line_effect line ppc g ppc' g' :
  countpass_line line ppc g = Ok ppc' g' ->
  Z.of_nat (length ppc) = num_class g ->
  Z.of_nat (length ppc') = num_class g'
  /\ (forall c, count_of ppc' c =
        count_of ppc c + if decide (line_class line = Some c) then 1 else 0)
  /\ total ppc' = total ppc + (if is_pin_line line then 1 else 0)
  /\ (is_pin_line line = true -> exists c, line_class line = Some c)
  /\ (forall c, line_class line = Some c -> 0 <= c < num_class g')
  /\ num_class g <= num_class g'.
Proof.
  unfold countpass_line.
  unfold bind at 1. unfold my_fgets, modify.
  unfold bind at 1. unfold my_strtok. cbn [strtok_rest set_strtok_rest].
  destruct line as [|p rest].
  { cbn. unfold ret. intros [= <- <-] L. cbn.
    split; [exact L|]. split.
    { intros c. destruct (decide _); [discriminate | lia]. }
    split; [lia|]. split; [discriminate|]. split; [discriminate | lia]. }
  cbn [line_class is_pin_line].
  destruct (strcmp_eq p "inpin" || strcmp_eq p "outpin") eqn:P;
    cbn -[get_class].
  2:{ unfold bind, ret, skip_to_end_of_line, modify. intros [= <- <-] L. cbn.
      assert (N : forall c,
        match rest with
        | kw :: tok :: _ => None
        | _ => @None Z
        end <> Some c) by (intros c; destruct rest as [|kw [|tok r]];
                             discriminate).
      split; [exact L|]. split.
      { intros c. destruct (decide _) as [D|D]; [now apply N in D | lia]. }
      split; [lia|]. split; [discriminate|].
      split; [|lia]. intros c D. now apply N in D. }
  intros H L.
  apply bind_Ok_inv in H as (ppc2 & g2 & H & Hs).
  unfold bind, skip_to_end_of_line, modify, ret in Hs. injection Hs as <- <-.
  apply bind_Ok_inv in H as (c & g1 & G & H).
  apply get_class_Ok_inv in G as (kw & tok & r & R & K & A & Pc & ->).
  cbn in R. subst rest. rewrite K, A. cbn [andb].
  apply bind_Ok_inv in H as (nc & g3 & Hn & H).
  unfold gets in Hn. injection Hn as <- <-.
  cbn [num_class set_strtok_rest set_linenum] in H.
  apply bind_Ok_inv in H as (ppc1 & g4 & H1 & H).
  assert (X : exists n,
    (ppc ++ replicate (Z.to_nat (c + 1 - num_class g)) 0) !! Z.to_nat c
      = Some n
    /\ in_int (n + 1) = true
    /\ ppc2 = <[Z.to_nat c := n + 1]>
                (ppc ++ replicate (Z.to_nat (c + 1 - num_class g)) 0)
    /\ num_class g2 = Z.max (num_class g) (c + 1)).
  { destruct (c >=? num_class g) eqn:Ge.
    - apply Z.geb_le in Ge.
      apply bind_Ok_inv in H1 as (nc' & g5 & I & H1).
      apply int_Ok_inv in I as (_ & -> & ->).
      unfold bind, modify, ret in H1. injection H1 as <- <-.
      destruct ((ppc ++ _) !! Z.to_nat c) as [n|] eqn:E; [|discriminate].
      apply bind_Ok_inv in H as (n' & g6 & I & H).
      apply int_Ok_inv in I as (B & -> & ->).
      unfold ret in H. injection H as <- <-. exists n. cbn.
      split; [first [exact E | reflexivity]|]. split; [exact B|].
      split; [reflexivity|]. lia.
    - rewrite Z.geb_leb in Ge. apply Z.leb_gt in Ge.
      unfold ret in H1. injection H1 as <- <-.
      destruct (ppc !! Z.to_nat c) as [n|] eqn:E; [|discriminate].
      apply bind_Ok_inv in H as (n' & g6 & I & H).
      apply int_Ok_inv in I as (B & -> & ->).
      unfold ret in H. injection H as <- <-. exists n. cbn.
      replace (Z.to_nat (c + 1 - num_class g)) with 0%nat by lia.
      cbn [replicate]. rewrite app_nil_r.
      split; [first [exact E | reflexivity]|]. split; [exact B|].
      split; [reflexivity|]. lia. }
  destruct X as (n & E & B & -> & N). cbn [num_class set_strtok_rest].
  pose proof (lookup_lt_Some _ _ _ E) as Ln.
  rewrite length_app, length_replicate in Ln.
  split.
  { rewrite length_insert, length_app, length_replicate. lia. }
  split.
  { intros c'. rewrite (count_of_insert _ c n) by assumption.
    rewrite count_of_extend.
    destruct (decide (c' = c)) as [->|Nc].
    - rewrite decide_True by reflexivity.
      rewrite <- (count_of_extend ppc (Z.to_nat (c + 1 - num_class g))).
      unfold count_of. destruct (Z.leb_spec 0 c); [|lia]. now rewrite E.
    - rewrite decide_False by congruence. lia. }
  split.
  { rewrite (total_insert _ _ n) by exact E.
    rewrite total_app, total_replicate_0. lia. }
  split; [intros _; eauto|]. split; [|lia].
  intros c' [= <-]. lia.
Qed.

Lemma pins_of_class_cons line file c :
  Z.of_nat (pins_of_class (line :: file) c) =
    (if decide (line_class line = Some c) then 1 else 0)
    + Z.of_nat (pins_of_class file c).
Proof.
  unfold pins_of_class. rewrite filter_cons.
  destruct (decide (line_class line = Some c)); cbn [length]; lia.
Qed.

Lemma pin_lines_cons line file :
  Z.of_nat (pin_lines (line :: file)) =
    (if is_pin_line line then 1 else 0) + Z.of_nat (pin_lines file).
Proof.
  unfold pin_lines, pin_list. rewrite filter_cons.
  destruct (is_pin_line line).
  - rewrite decide_True by reflexivity. cbn [length]. lia.
  - rewrite decide_False by discriminate. lia.
Qed.

Lemma countpass_scan_effect file : forall ppc g ppc' g',
  countpass_scan file ppc g = Ok ppc' g' ->
  Z.of_nat (length ppc) = num_class g ->
  Z.of_nat (length ppc') = num_class g'
  /\ (forall c, count_of ppc' c
                = count_of ppc c + Z.of_nat (pins_of_class file c))
  /\ total ppc' = total ppc + Z.of_nat (pin_lines file)
  /\ (forall line, In line file -> is_pin_line line = true ->
        exists c, line_class line = Some c)
  /\ (forall c, class_used file c -> 0 <= c < num_class g')
  /\ num_class g <= num_class g'.
Proof.
  induction file as [|line file IH]; intros ppc g ppc' g' H L; cbn in H.
  - unfold ret in H. injection H as <- <-.
    split; [exact L|]. split; [intros c; cbn; lia|].
    split; [cbn; lia|]. split; [intros l []|].
    split; [|lia]. intros c (l & [] & _).
  - apply bind_Ok_inv in H as (ppc1 & g1 & E1 & H).
    destruct (countpass_line_effect _ _ _ _ _ E1 L)
      as (L1 & C1 & T1 & P1 & B1 & M1).
    destruct (IH _ _ _ _ H L1) as (L2 & C2 & T2 & P2 & B2 & M2).
    split; [exact L2|]. split.
    { intros c. rewrite C2, C1, pins_of_class_cons. lia. }
    split.
    { rewrite T2, T1, pin_lines_cons. lia. }
    split.
    { intros l [<-|I] Pl; [now apply P1 | now apply P2]. }
    split; [|lia].
    intros c Hc. apply class_used_cons in Hc as [Hc|Hc].
    + specialize (B1 c Hc). lia.
    + now apply B2.
Qed.

Lemma alloc_classes_result ppc g g' :
  alloc_classes ppc g = Ok tt g' ->
  Z.of_nat (length ppc) = num_class g ->
  g' = classes_allocated ppc g.
Proof.
  intros H L. unfold alloc_classes in H.
  apply bind_Ok_inv in H as (nc & g1 & E & H).
  unfold gets in E. injection E as <- <-.
  apply bind_Ok_inv in H as ([] & g1 & E & H).
  unfold modify in E. injection E as <-.
  apply bind_Ok_inv in H as ([] & g1 & E & H).
  unfold modify in E. injection E as <-.
  apply bind_Ok_inv in H as ([] & g3 & E & H).
  unfold bind, gets, modify in H. injection H as <-.
  unfold for_range in E.
  set (d := mk_class OPEN 0 []) in E.
  apply (for_loop_post
    (fun i g2 => g2 =
       set_pins_per_clb (total (take (Z.to_nat i) ppc))
         (set_class_inf
            ((empty_class <$> take (Z.to_nat i) ppc)
             ++ replicate (length ppc - Z.to_nat i) d) g))) in E.
  - rewrite Z.sub_0_r, Z2Nat.id, Z.add_0_l in E by lia.
    rewrite <- L, Nat2Z.id, firstn_all, Nat.sub_diag in E. subst g3.
    cbn [replicate]. rewrite app_nil_r. reflexivity.
  - change (Z.to_nat 0) with 0%nat. rewrite take_0, Nat.sub_0_r.
    rewrite <- L, Nat2Z.id. reflexivity.
  - intros k ga gb Hk Hb ->.
    destruct (ppc !! Z.to_nat k) as [n|] eqn:Hn; [|discriminate].
    apply bind_Ok_inv in Hb as ([] & g1 & E1 & Hb).
    unfold modify in E1. injection E1 as <-.
    apply bind_Ok_inv in Hb as (s0 & g1 & E1 & Hb).
    unfold gets in E1. injection E1 as <- <-.
    apply bind_Ok_inv in Hb as (s & g1 & E1 & Hb).
    apply int_Ok_inv in E1 as (_ & -> & ->).
    unfold modify in Hb. injection Hb as <-.
    cbn [pins_per_clb class_inf set_class_inf set_pins_per_clb].
    replace (Z.to_nat (k + 1)) with (S (Z.to_nat k)) by lia.
    pose proof (lookup_lt_Some _ _ _ Hn) as Lk.
    rewrite (take_S_r _ _ _ Hn), total_app, fmap_app.
    change (total [n]) with (n + 0). rewrite Z.add_0_r.
    replace (length ppc - Z.to_nat k)%nat
      with (S (length ppc - S (Z.to_nat k))) by lia.
    cbn [replicate].
    assert (Lt : length (empty_class <$> take (Z.to_nat k) ppc)
                 = Z.to_nat k).
    { rewrite length_fmap, length_take. lia. }
    rewrite insert_app_r_alt by (rewrite Lt; lia).
    rewrite Lt, Nat.sub_diag. cbn [list_insert insert].
    rewrite <- app_assoc. reflexivity.
Qed.

Lemma count_of_initial c : count_of (replicate 1 0) c = 0.
Proof.
  unfold count_of. destruct (0 <=? c); [|reflexivity].
  destruct (Z.to_nat c) as [|[|k]]; reflexivity.
Qed.

Lemma count_of_lookup ppc c :
  0 <= c < Z.of_nat (length ppc) ->
  ppc !! Z.to_nat c = Some (count_of ppc c).
Proof.
  intros H. unfold count_of. destruct (Z.leb_spec 0 c); [|lia].
  destruct (lookup_lt_is_Some_2 ppc (Z.to_nat c)) as [n ->]; [lia|].
  reflexivity.
Qed.

(** What a successful count pass has found and allocated. *)
Lemma countpass_Ok_inv file g g' :
  countpass file g = Ok tt g' ->
  exists ppc g1,
    g' = classes_allocated ppc g1
    /\ Z.of_nat (length ppc) = num_class g1
    /\ (forall c, count_of ppc c = Z.of_nat (pins_of_class file c))
    /\ total ppc = Z.of_nat (pin_lines file)
    /\ Forall (fun x => x <> 0) ppc
    /\ (forall line, In line file -> is_pin_line line = true ->
          exists c, line_class line = Some c /\ 0 <= c < num_class g1).
Proof.
  intros H. rewrite countpass_unfold in H.
  apply bind_Ok_inv in H as (ppc & g1 & Scan & H).
  apply bind_Ok_inv in H as ([] & g2 & Chk & Al).
  destruct (countpass_scan_effect _ _ _ _ _ Scan eq_refl)
    as (L & C & T & P & B & _).
  rewrite (check_missing_classes_result _ _ L) in Chk.
  destruct (list_find (fun x => x = 0) ppc) as [[k x]|] eqn:F;
    [discriminate|].
  injection Chk as <-.
  apply alloc_classes_result in Al; [|exact L].
  change (total (replicate 1 0)) with 0 in T. rewrite Z.add_0_l in T.
  exists ppc, g1. split; [exact Al|]. split; [exact L|]. split.
  { intros c. now rewrite C, count_of_initial, Z.add_0_l. }
  split; [exact T|]. split.
  { now apply list_find_None in F. }
  intros line I Pl. destruct (P line I Pl) as [c Hc].
  exists c. split; [exact Hc|]. apply B. now exists line.
Qed.

(** X11.  When the count pass succeeds it has sized the tables for the
    loading pass by the pin lines of the file: [pins_per_clb] is their
    number and [clb_pin_class] has one empty entry for each; the class
    table has [num_class] classes, and class [c] is open, holds no pin and
    has room for as many pins as there are pin lines of class [c], at
    least one.  Every pin line declares a class of the table. *)
Theorem countpass_sizes file g g' :
  countpass file g = Ok tt g' ->
  pins_per_clb g' = Z.of_nat (pin_lines file)
  /\ clb_pin_class g' = replicate (pin_lines file) None
  /\ Z.of_nat (length (class_inf g')) = num_class g'
  /\ (forall c, 0 <= c < num_class g' ->
        class_inf g' !! Z.to_nat c
          = Some (empty_class (Z.of_nat (pins_of_class file c)))
        /\ (0 < pins_of_class file c)%nat)
  /\ (forall line, In line file -> is_pin_line line = true ->
        exists c, line_class line = Some c /\ 0 <= c < num_class g').
Proof.
  intros H.
  apply countpass_Ok_inv in H as (ppc & g1 & -> & L & C & T & F & P).
  unfold classes_allocated.
  cbn [pins_per_clb clb_pin_class class_inf num_class set_clb_pin_class
       set_pins_per_clb set_class_inf].
  split; [exact T|]. split; [now rewrite T, Nat2Z.id|].
  split; [now rewrite length_fmap|]. split; [|exact P].
  intros c Hc. rewrite list_lookup_fmap.
  rewrite count_of_lookup by lia. cbn [fmap option_fmap option_map].
  rewrite C. split; [reflexivity|].
  pose proof (count_of_lookup ppc c ltac:(lia)) as Lc.
  rewrite Forall_lookup in F. specialize (F _ _ Lc).
  rewrite C in F. lia.
Qed.

Lemma countpass_sizes_witness :
  exists g',
    countpass three_pin_file initial_globals = Ok tt g'
    /\ pins_per_clb g' = 3
    /\ clb_pin_class g' = [None; None; None].
Proof.
  assert (H : exists g', countpass three_pin_file initial_globals = Ok tt g')
    by (eexists; vm_compute; reflexivity).
  destruct H as [g' E]. exists g'. split; [exact E|].
  destruct (countpass_sizes _ _ _ E) as (P & C & _).
  split; [exact P | exact C].
Defined.

(** ** What a computation leaves alone *)

Section Keeps.

Context {X : Type} (f : globals -> X).

Lemma keeps_ret {A} (P : A -> Prop) (a : A) : P a -> keeps f P (ret a).
Proof. intros H g a' g' [= <- <-]. auto. Qed.

Lemma keeps_gets {A} (h : globals -> A) : keeps f (fun _ => True) (gets h).
Proof. intros g a g' [= <- <-]. auto. Qed.

Lemma keeps_undef {A} (P : A -> Prop) : keeps f P undef.
Proof. intros g a g' [=]. Qed.

Lemma keeps_exit {A} (P : A -> Prop) : keeps f P exit.
Proof. intros g a g' [=]. Qed.

Lemma keeps_int z : keeps f (fun _ => True) (int z).
Proof.
  intros g a g' H. apply int_Ok_inv in H as (_ & _ & ->). auto.
Qed.

Lemma keeps_modify h :
  (forall g, f (h g) = f g) -> keeps f (fun _ => True) (modify h).
Proof. intros H g [] g' [= <-]. auto. Qed.

Lemma keeps_printf m :
  (forall out g, f (set_stdout out g) = f g) ->
  keeps f (fun _ => True) (printf m).
Proof. intros H. apply keeps_modify. intros g. apply H. Qed.

Lemma keeps_bind {A B} (Q : A -> Prop) (P : B -> Prop) (m : M A)
    (k : A -> M B) :
  keeps f Q m -> (forall a, keeps f P (k a)) -> keeps f P (bind m k).
Proof.
  intros Hm Hk g b g' H. apply bind_Ok_inv in H as (a & g1 & E1 & E2).
  destruct (Hm _ _ _ E1) as [F1 _]. destruct (Hk _ _ _ _ E2) as [F2 Pb].
  split; [congruence | exact Pb].
Qed.

Lemma keeps_weaken {A} (Q P : A -> Prop) (m : M A) :
  keeps f Q m -> (forall a, Q a -> P a) -> keeps f P m.
Proof. intros H W g a g' E. destruct (H _ _ _ E). auto. Qed.

Lemma keeps_my_strtok :
  (forall r g, f (set_strtok_rest r g) = f g) ->
  keeps f (fun _ => True) my_strtok.
Proof.
  intros H g a g'. unfold my_strtok.
  destruct (strtok_rest g); intros [= <- <-]; auto.
Qed.

Lemma keeps_isread_at i : keeps f (fun _ => True) (isread_at i).
Proof.
  intros g a g'. unfold isread_at.
  destruct (isread g !! i); intros [= <- <-]; auto.
Qed.

End Keeps.

(** The tactic for straight-line code that does not assign to the part
    kept. *)
Ltac keeps_step :=
  first
    [ apply keeps_ret; first [exact I | reflexivity]
    | apply keeps_gets | apply keeps_undef | apply keeps_exit
    | apply keeps_int | apply keeps_isread_at
    | apply keeps_my_strtok; intros; reflexivity
    | apply keeps_printf; intros; reflexivity
    | apply keeps_modify; intros; reflexivity
    | eapply keeps_bind; [|intros ?]
    | match goal with
      | |- keeps _ _ (match ?x with _ => _ end) => destruct x
      | |- keeps _ _ (if ?b then _ else _) => destruct b
      end ].

Ltac keeps_auto := cbv zeta; repeat (keeps_step; cbv zeta).

Lemma pin_state_incr_isread i :
  keeps pin_state (fun _ => True) (incr_isread i).
Proof. unfold incr_isread. keeps_auto. Qed.

Lemma pin_state_get_int i : keeps pin_state (fun _ => True) (get_int i).
Proof.
  unfold get_int. repeat first [ apply pin_state_incr_isread | keeps_step ].
Qed.

Lemma pin_state_get_float atof i lo hi :
  keeps pin_state (fun _ => True) (get_float atof i lo hi).
Proof. unfold get_float. keeps_auto. Qed.

Lemma pin_state_get_Fc_type : keeps pin_state (fun _ => True) get_Fc_type.
Proof. unfold get_Fc_type. keeps_auto. Qed.

Lemma pin_state_get_switch_block_type :
  keeps pin_state (fun _ => True) get_switch_block_type.
Proof. unfold get_switch_block_type. keeps_auto. Qed.

Lemma pin_state_assign_chan chan h :
  chan = chan_x_ptr \/ chan = chan_y_ptr ->
  keeps pin_state (fun _ => True) (assign_chan chan h).
Proof.
  intros [-> | ->]; unfold assign_chan; apply keeps_modify; reflexivity.
Qed.

Lemma pin_state_get_chan atof chan i :
  chan = chan_x_ptr \/ chan = chan_y_ptr ->
  keeps pin_state (fun _ => True) (get_chan atof chan i).
Proof.
  intros C. unfold get_chan.
  repeat first
    [ apply pin_state_incr_isread
    | apply pin_state_get_float | apply (pin_state_assign_chan _ _ C)
    | keeps_step ].
Qed.

(** [check_arch] only prints. *)
Section CheckKeeps.

Context {X : Type} (f : globals -> X).
Hypothesis f_stdout : forall out g, f (set_stdout out g) = f g.

Lemma keeps_check_isread arch_file i fatal :
  keeps f (fun _ => True) (check_isread arch_file i fatal).
Proof.
  unfold check_isread.
  repeat first [ apply keeps_printf; exact f_stdout | keeps_step ].
Qed.

Lemma keeps_check_isread_loop arch_file n : forall i fatal,
  keeps f (fun _ => True) (check_isread_loop arch_file n i fatal).
Proof.
  induction n as [|n IH]; intros i fatal; cbn [check_isread_loop].
  - now apply keeps_ret.
  - eapply keeps_bind; [apply keeps_check_isread|]. intros a. apply IH.
Qed.

Lemma keeps_check_detailed det :
  keeps f (fun _ => True) (check_detailed det).
Proof.
  unfold check_detailed.
  repeat first [ apply keeps_printf; exact f_stdout | keeps_step ].
Qed.

Lemma keeps_check_arch arch_file route_type det :
  keeps f (fun _ => True) (check_arch arch_file route_type det).
Proof.
  unfold check_arch.
  repeat first
    [ apply keeps_check_isread_loop | apply keeps_check_detailed
    | keeps_step ].
Qed.

End CheckKeeps.

(** ** Lines of the loading pass that are no pin lines *)

Lemma read_arch_line_other atof line pinnum :
  is_pin_line line = false ->
  keeps pin_state (fun a => a = pinnum) (read_arch_line atof line pinnum).
Proof.
  intros N g a g' H. unfold read_arch_line in H.
  unfold bind at 1 in H. unfold my_fgets, modify in H.
  unfold bind at 1 in H. unfold my_strtok in H.
  cbn [strtok_rest set_strtok_rest] in H.
  destruct line as [|p rest].
  { unfold ret in H. injection H as <- <-. split; reflexivity. }
  cbn [is_pin_line] in N. apply orb_false_iff in N as [N5 N4].
  change (name 4) with "outpin" in H. change (name 5) with "inpin" in H.
  rewrite N4, N5 in H.
  match type of H with
  | ?m ?s = _ =>
      assert (K : keeps pin_state (fun a => a = pinnum) m);
      [|destruct (K _ _ _ H) as [K1 K2]; split; [exact K1 | exact K2]]
  end.
  unfold assign_det.
  repeat first
    [ apply pin_state_get_int | apply pin_state_get_float
    | apply pin_state_get_chan; [now left | now right]
    | apply pin_state_get_chan; now left
    | apply pin_state_get_chan; now right
    | apply pin_state_get_Fc_type
    | apply pin_state_get_switch_block_type | apply pin_state_incr_isread
    | keeps_step ].
Qed.

(** ** Pin lines of the loading pass *)

Lemma store_Some_inv {A} (l : list A) i v l' :
  store l i v = Some l' ->
  0 <= i < Z.of_nat (length l) /\ l' = <[Z.to_nat i := v]> l.
Proof.
  unfold store. destruct (0 <=? i) eqn:E1; [|discriminate].
  destruct (i <? Z.of_nat (length l)) eqn:E2; [|discriminate].
  intros [= <-]. bool_to_Z. split; [lia | reflexivity].
Qed.

Lemma load_Some_inv {A} (l : list A) i x :
  load l i = Some x -> 0 <= i /\ l !! Z.to_nat i = Some x.
Proof.
  unfold load. destruct (0 <=? i) eqn:E; [|discriminate].
  bool_to_Z. auto.
Qed.

(** What a successful [get_pin] has found on the line and in the tables,
    up to the position words. *)
Lemma get_pin_Ok_inv pinnum type g g' :
  get_pin pinnum type g = Ok tt g' ->
  exists kw tok locs c cl,
    strtok_rest g = kw :: tok :: locs
    /\ strcmp_eq kw "class:" = true /\ atoi tok = Some c /\ 0 <= c
    /\ class_inf g !! Z.to_nat c = Some cl
    /\ (class_type cl = OPEN \/ class_type cl = type)
    /\ 0 <= num_pins cl < Z.of_nat (length (pinlist cl))
    /\ 0 <= pinnum < Z.of_nat (length (clb_pin_class g))
    /\ locs <> []
    /\ pin_locations pinnum locs
         (set_strtok_rest locs (pin_entered g pinnum type c cl))
       = Ok tt g'.
Proof.
  intros H. unfold get_pin in H.
  apply bind_Ok_inv in H as (c & g1 & G & H).
  apply get_class_Ok_inv in G as (kw & tok & locs & R & K & A & Pc & ->).
  apply bind_Ok_inv in H as (ci & g1 & E & H).
  unfold gets in E. injection E as <- <-.
  cbn [class_inf set_strtok_rest] in H.
  destruct (load (class_inf g) c) as [cl|] eqn:L; [|discriminate].
  apply load_Some_inv in L as [_ L].
  exists kw, tok, locs, c, cl.
  apply bind_Ok_inv in H as (c1 & g1 & E & H).
  assert (T : (class_type cl = OPEN \/ class_type cl = type)
              /\ c1 = mk_class type (num_pins cl) (pinlist cl)
              /\ g1 = set_strtok_rest locs g).
  { destruct (decide (class_type cl = OPEN)) as [O|O].
    - unfold ret in E. injection E as <- <-. auto.
    - destruct (decide (class_type cl <> type)) as [D|D].
      + unfold_monad. discriminate.
      + unfold ret in E. injection E as <- <-.
        assert (class_type cl = type) as Ty
          by (destruct (decide (class_type cl = type)); tauto).
        split; [now right|]. split; [|reflexivity].
        destruct cl as [t n pl]. cbn in *. now subst t. }
  clear E. destruct T as (T & -> & ->).
  cbn [num_pins pinlist class_type] in H.
  destruct (store (pinlist cl) (num_pins cl) (Some pinnum)) as [pl|] eqn:S1;
    [|discriminate].
  apply store_Some_inv in S1 as [B1 ->].
  apply bind_Ok_inv in H as (np & g1 & E & H).
  apply int_Ok_inv in E as (_ & -> & ->).
  destruct (store (class_inf g) c _) as [ci'|] eqn:S2; [|discriminate].
  apply store_Some_inv in S2 as [B2 ->].
  apply bind_Ok_inv in H as ([] & g1 & E & H).
  unfold modify in E. injection E as <-.
  apply bind_Ok_inv in H as (cpc & g1 & E & H).
  unfold gets in E. injection E as <- <-.
  cbn [clb_pin_class set_class_inf set_strtok_rest] in H.
  destruct (store (clb_pin_class g) pinnum (Some c)) as [cpc'|] eqn:S3;
    [|discriminate].
  apply store_Some_inv in S3 as [B3 ->].
  apply bind_Ok_inv in H as ([] & g1 & E & H).
  unfold modify in E. injection E as <-.
  apply bind_Ok_inv in H as (toks & g1 & E & H).
  unfold gets in E. injection E as <- <-.
  cbn [strtok_rest set_clb_pin_class set_class_inf set_strtok_rest] in H.
  repeat split; try assumption; try lia.
  - intros ->. unfold_monad. discriminate.
  - destruct locs as [|w locs]; [unfold_monad; discriminate|]. exact H.
Qed.

Lemma strcmp_eq_eq a b : strcmp_eq a b = true -> a = b.
Proof. apply String.eqb_eq. Qed.

(** The position words of a line that [pin_locations] accepts all name a
    side. *)
Lemma sides_or_bad (toks : list string) :
  Forall (fun w => side_of w <> None) toks
  \/ exists good bad rest,
       toks = good ++ bad :: rest
       /\ Forall (fun w => side_of w <> None) good /\ side_of bad = None.
Proof.
  induction toks as [|w toks IH]; [left; constructor|].
  destruct (side_of w) as [i|] eqn:S.
  - destruct IH as [IH|(good & bad & rest & -> & G & B)].
    + left. constructor; [congruence | exact IH].
    + right. exists (w :: good), bad, rest.
      split; [reflexivity|]. split; [|exact B].
      constructor; [congruence | exact G].
  - right. exists [], w, toks. split; [reflexivity|].
    split; [constructor | exact S].
Qed.

Lemma class_pins_app a b c : forall p,
  class_pins (a ++ b) p c =
    class_pins a p c ++ class_pins b (p + Z.of_nat (length a)) c.
Proof.
  induction a as [|l a IH]; intros p; cbn [class_pins app length].
  - now rewrite Z.add_0_r.
  - rewrite IH, <- app_assoc. do 3 f_equal. lia.
Qed.

Lemma class_pins_nil lines c : forall p,
  class_pins lines p c = [] ->
  forall line, In line lines -> line_class line <> Some c.
Proof.
  induction lines as [|l lines IH]; intros p H line []; subst;
    cbn [class_pins] in H; apply app_eq_nil in H as [H1 H2].
  - destruct (decide (line_class line = Some c)); [discriminate | assumption].
  - eapply IH; eauto.
Qed.

Lemma class_pins_length lines c : forall p,
  length (class_pins lines p c)
  = length (filter (fun l => line_class l = Some c) lines).
Proof.
  induction lines as [|l lines IH]; intros p; [reflexivity|].
  cbn [class_pins]. rewrite filter_cons, length_app, IH.
  destruct (decide (line_class l = Some c)); reflexivity.
Qed.

(** A pin line of the loading pass: [get_pin] for the type of the
    keyword, then the next pin number and the counter of the keyword. *)
Lemma pin_line_unfold atof p rest pinnum g :
  is_pin_line (p :: rest) = true ->
  exists type k,
    line_kind (p :: rest) = Some type /\ type <> OPEN
    /\ read_arch_line atof (p :: rest) pinnum g =
         (get_pin pinnum type ;;
          pinnum' <- int (pinnum + 1) ;;
          incr_isread k ;; ret pinnum')
           (set_strtok_rest rest
              (set_strtok_rest (p :: rest)
                 (set_linenum (linenum g + 1) g))).
Proof.
  cbn [is_pin_line]. intros H. apply orb_true_iff in H as [H|H];
    apply strcmp_eq_eq in H; subst p.
  - exists RECEIVER, 5%nat. split; [reflexivity|].
    split; [discriminate | reflexivity].
  - exists DRIVER, 4%nat. split; [reflexivity|].
    split; [discriminate | reflexivity].
Qed.

Lemma load_inv_shaped P NC cap pins pinnum g :
  load_inv P NC cap pins pinnum g -> (length pins < P)%nat ->
  pinloc_shaped (pinloc g) pinnum.
Proof.
  intros I B. destruct I as [Ip _ _ _ _ Il Iv _ _]. split; [exact Il|].
  intros i row Hrow.
  assert (Hi : (i < 4)%nat) by (rewrite <- Il; eapply lookup_lt_Some; eauto).
  specialize (Iv i (length pins) Hi B). unfold pinloc_at in Iv.
  rewrite Hrow, <- Ip in Iv. destruct (load row pinnum) eqn:L; [|discriminate].
  apply load_Some_inv in L as [L0 L]. apply lookup_lt_Some in L. lia.
Qed.

Lemma load_inv_ext P NC cap pins pinnum g g' :
  pin_state g' = pin_state g ->
  load_inv P NC cap pins pinnum g -> load_inv P NC cap pins pinnum g'.
Proof.
  unfold pin_state. intros [= E1 E2 E3 E4 E5] [I1 I2 I3 I4 I5 I6 I7 I8 I9].
  split; rewrite ?E1, ?E2, ?E3, ?E4, ?E5; assumption.
Qed.

Lemma pin_line_step atof P NC cap pins line pinnum g pinnum' g' :
  is_pin_line line = true ->
  load_inv P NC cap pins pinnum g ->
  read_arch_line atof line pinnum g = Ok pinnum' g' ->
  load_inv P NC cap (pins ++ [line]) pinnum' g'.
Proof.
  intros Pin I H. destruct line as [|p0 rest]; [discriminate|].
  destruct (pin_line_unfold atof p0 rest pinnum g Pin)
    as (type & k & Kd & NO & U).
  rewrite U in H. clear U.
  apply bind_Ok_inv in H as ([] & g1 & G & H).
  apply bind_Ok_inv in H as (pn & g2 & E & H).
  apply int_Ok_inv in E as (_ & -> & ->).
  apply bind_Ok_inv in H as ([] & g3 & E & H).
  unfold ret in H. injection H as <- <-.
  destruct (pin_state_incr_isread k _ _ _ E) as [F _]. clear E.
  apply get_pin_Ok_inv in G
    as (kw & tok & locs & c & cl & R & K & A & Pc & L & T & Bn & Bp & NE & G).
  cbn in R. subst rest.
  cbn [class_inf clb_pin_class set_strtok_rest set_linenum] in L, Bp.
  pose proof I as [Ip Icl Ic Ics Icls Ill Ilv Ippc Inc].
  rewrite Icl in Bp.
  assert (Lt : (length pins < P)%nat) by lia.
  pose proof (load_inv_shaped _ _ _ _ _ _ I Lt) as Sh.
  match type of G with
  | pin_locations _ _ ?s = _ =>
      assert (Sh1 : pinloc_shaped (pinloc s) pinnum) by exact Sh;
      set (s1 := s) in G, Sh1
  end.
  destruct (sides_or_bad locs) as [V|(good & bad & rest & El & V & Bd)].
  2:{ rewrite El in G.
      rewrite (pin_locations_bad pinnum good bad rest s1 Sh1 V Bd) in G.
      discriminate. }
  destruct (pin_locations_Ok pinnum locs s1 NE Sh1 V)
    as (pl & E & Shp & At).
  rewrite E in G. injection G as <-. clear E. subst s1.
  eapply load_inv_ext; [exact F|]. clear F.
  assert (Lc : line_class (p0 :: kw :: tok :: locs) = Some c).
  { cbn [line_class is_pin_line] in Pin |- *. now rewrite Pin, K, A. }
  assert (Hn : Z.to_nat (num_pins cl)
               = length (class_pins pins 0 c)).
  { destruct (Icls _ _ L) as (N1 & _). rewrite Z2Nat.id in N1 by lia. lia. }
  split;
    cbn [clb_pin_class class_inf pinloc num_class pins_per_clb set_pinloc
         set_strtok_rest pin_entered set_clb_pin_class set_class_inf
         set_linenum].
  - rewrite length_app. cbn [length]. lia.
  - rewrite length_insert. exact Icl.
  - intros q l Hq. apply lookup_app_Some in Hq as [Hq|[Hq1 Hq2]].
    + rewrite list_lookup_insert_ne by (apply lookup_lt_Some in Hq; lia).
      now apply Ic.
    + apply list_lookup_singleton_Some in Hq2 as [Hq0 <-].
      replace q with (Z.to_nat pinnum) by lia.
      rewrite list_lookup_insert_eq by lia. now rewrite Lc.
  - rewrite length_insert. exact Ics.
  - intros k0 cl0 Hk. cbv zeta. rewrite class_pins_app.
    cbn [class_pins]. rewrite app_nil_r, Z.add_0_l, <- Ip.
    destruct (decide (k0 = Z.to_nat c)) as [->|Nk].
    + rewrite list_lookup_insert_eq in Hk by (eapply lookup_lt_Some; eauto).
      injection Hk as <-. rewrite Z2Nat.id by lia.
      rewrite Lc, decide_True by reflexivity.
      destruct (Icls _ _ L) as (N1 & N2 & N3 & N4 & N5).
      rewrite Z2Nat.id in N1, N2, N3, N4, N5 by lia.
      cbn [num_pins pinlist class_type].
      split; [rewrite length_app; cbn [length]; lia|].
      split; [now rewrite length_insert|].
      split.
      { rewrite length_app. cbn [length]. rewrite Nat.add_1_r, Hn.
        rewrite (take_S_r _ _ (Some pinnum))
          by (apply list_lookup_insert_eq; lia).
        rewrite take_insert_ge by lia. rewrite N3, fmap_app. reflexivity. }
      split.
      { intros l Hl Cl. apply in_app_or in Hl as [Hl|[<-|[]]]; [|exact Kd].
        destruct T as [O|Ty].
        - exfalso. exact (class_pins_nil _ _ _ (N5 O) l Hl Cl).
        - rewrite <- Ty. now apply N4. }
      intros O. contradiction.
    + rewrite list_lookup_insert_ne in Hk by congruence.
      destruct (Icls _ _ Hk) as (N1 & N2 & N3 & N4 & N5).
      rewrite decide_False, app_nil_r by (rewrite Lc; intros [= ->]; lia).
      split; [exact N1|]. split; [exact N2|]. split; [exact N3|].
      split; [|exact N5].
      intros l Hl Cl. apply in_app_or in Hl as [Hl|[<-|[]]]; [now apply N4|].
      rewrite Lc in Cl. injection Cl as ->. lia.
  - apply Shp.
  - intros j q Hj Hq. rewrite At.
    cbn [pinloc set_strtok_rest pin_entered set_clb_pin_class set_class_inf
         set_linenum].
    destruct (Z.of_nat q =? pinnum) eqn:Eq; bool_to_Z; cbn [andb].
    + assert (q = length pins) as -> by lia.
      rewrite lookup_app_r, Nat.sub_diag by lia. cbn [lookup list_lookup].
      unfold side_flag, line_sides.
      change (drop 3 (p0 :: kw :: tok :: locs)) with locs.
      destruct (names_side locs j); [reflexivity|].
      rewrite (Ilv j (length pins) Hj Hq).
      now rewrite (lookup_ge_None_2 pins) by lia.
    + rewrite (Ilv j q Hj Hq). f_equal.
      destruct (decide (q < length pins)%nat).
      * now rewrite lookup_app_l by lia.
      * rewrite (lookup_ge_None_2 pins) by lia.
        rewrite lookup_ge_None_2; [reflexivity|].
        rewrite length_app. cbn [length]. lia.
  - exact Ippc.
  - exact Inc.
Qed.

(** ** The loading pass as a whole *)

Lemma pin_list_app a b : pin_list (a ++ b) = pin_list a ++ pin_list b.
Proof. apply filter_app. Qed.

Lemma pin_list_single line :
  pin_list [line] = if is_pin_line line then [line] else [].
Proof.
  unfold pin_list. rewrite filter_cons, filter_nil.
  destruct (is_pin_line line).
  - now rewrite decide_True.
  - now rewrite decide_False.
Qed.

Lemma read_arch_scan_inv atof P NC cap rest : forall done pinnum g pinnum' g',
  load_inv P NC cap (pin_list done) pinnum g ->
  read_arch_scan atof rest pinnum g = Ok pinnum' g' ->
  load_inv P NC cap (pin_list (done ++ rest)) pinnum' g'.
Proof.
  induction rest as [|line rest IH]; intros done pinnum g pinnum' g' I H;
    cbn [read_arch_scan] in H.
  - unfold ret in H. injection H as <- <-. now rewrite app_nil_r.
  - apply bind_Ok_inv in H as (pinnum1 & g1 & E1 & H).
    replace (done ++ line :: rest) with ((done ++ [line]) ++ rest)
      by (now rewrite <- app_assoc).
    apply (IH (done ++ [line]) pinnum1 g1); [|exact H].
    rewrite pin_list_app, pin_list_single.
    destruct (is_pin_line line) eqn:Pl.
    + eapply pin_line_step; eauto.
    + rewrite app_nil_r.
      destruct (read_arch_line_other atof line pinnum Pl _ _ _ E1) as [F ->].
      eapply load_inv_ext; eauto.
Qed.

Lemma line_class_pin line c :
  line_class line = Some c -> is_pin_line line = true.
Proof.
  destruct line as [|p [|kw [|tok r]]]; try discriminate.
  cbn [line_class is_pin_line].
  destruct (strcmp_eq p "inpin" || strcmp_eq p "outpin");
    [reflexivity | discriminate].
Qed.

Lemma pins_of_class_pin_list file c :
  pins_of_class (pin_list file) c = pins_of_class file c.
Proof.
  unfold pins_of_class, pin_list.
  induction file as [|l file IH]; [reflexivity|].
  rewrite !filter_cons.
  destruct (decide (line_class l = Some c)) as [D|D].
  - rewrite decide_True by (eapply line_class_pin; eauto).
    rewrite filter_cons, decide_True by exact D. cbn [length]. now rewrite IH.
  - destruct (decide (is_pin_line l = true)); [|exact IH].
    now rewrite filter_cons, decide_False by exact D.
Qed.

(** The tables when the loading pass starts. *)
Lemma load_inv_initial file ppc g1 :
  Z.of_nat (length ppc) = num_class g1 ->
  (forall c, count_of ppc c = Z.of_nat (pins_of_class file c)) ->
  total ppc = Z.of_nat (pin_lines file) ->
  load_inv (pin_lines file) (num_class g1) (pins_of_class file) [] 0
    (set_pinloc
       (replicate 4 (replicate (Z.to_nat (total ppc)) 0))
       (set_isread (replicate (Z.to_nat NUMINP) 0)
          (set_linenum 0 (classes_allocated ppc g1)))).
Proof.
  intros L C T. unfold classes_allocated.
  split;
    cbn [clb_pin_class class_inf pinloc num_class pins_per_clb set_pinloc
         set_isread set_linenum set_clb_pin_class set_pins_per_clb
         set_class_inf].
  - reflexivity.
  - rewrite length_replicate, T. apply Nat2Z.id.
  - intros p line H. discriminate.
  - now rewrite length_fmap.
  - intros k cl H. cbn [class_pins length take fmap list_fmap].
    rewrite list_lookup_fmap in H.
    destruct (ppc !! k) as [n|] eqn:Hn; [|discriminate].
    injection H as <-.
    assert (n = Z.of_nat (pins_of_class file (Z.of_nat k))) as ->.
    { rewrite <- C. unfold count_of.
      destruct (Z.leb_spec 0 (Z.of_nat k)); [|lia].
      now rewrite Nat2Z.id, Hn. }
    unfold empty_class. cbn [num_pins pinlist class_type].
    split; [reflexivity|]. split; [now rewrite length_replicate, Nat2Z.id|].
    split; [reflexivity|]. split; [intros line []|reflexivity].
  - apply length_replicate.
  - intros j p Hj Hp. rewrite T, Nat2Z.id. unfold pinloc_at.
    rewrite lookup_replicate_2 by exact Hj. rewrite load_Some.
    now rewrite lookup_replicate_2 by exact Hp.
  - exact T.
  - reflexivity.
Qed.

(** X12.  When [read_arch] succeeds the pin tables describe the pin lines
    of the file, numbered from 0 in their order: pin [p] belongs to the
    class that its line declares, and its flag for a side is 1 exactly
    when the line names that side; class [c] holds, in increasing order
    and without a gap, the pins of the lines of class [c], its pin count
    is their number, and it is a class of drivers when these lines are
    [outpin] lines and of receivers when they are [inpin] lines. *)
Theorem read_arch_pin_tables atof arch_file file route_type g g' :
  read_arch atof arch_file file route_type g = Ok tt g' ->
  pins_per_clb g' = Z.of_nat (pin_lines file)
  /\ (forall p line, pin_list file !! p = Some line ->
        exists c,
          line_class line = Some c /\ 0 <= c < num_class g'
          /\ clb_pin_class g' !! p = Some (Some c)
          /\ forall j, (j < 4)%nat ->
               pinloc_at (pinloc g') j (Z.of_nat p)
               = Some (side_flag line j))
  /\ (forall c, 0 <= c < num_class g' ->
        exists t,
          class_inf g' !! Z.to_nat c
            = Some (mk_class t (Z.of_nat (pins_of_class file c))
                      (Some <$> class_pins (pin_list file) 0 c))
          /\ t <> OPEN
          /\ forall line, In line file -> line_class line = Some c ->
               line_kind line = Some t).
Proof.
  intros H. unfold read_arch in H.
  apply bind_Ok_inv in H as ([] & g1 & Cp & H).
  apply countpass_Ok_inv in Cp as (ppc & g0 & -> & L & C & T & F & Pc).
  apply bind_Ok_inv in H as ([] & g1 & E & H).
  unfold modify in E. injection E as <-.
  apply bind_Ok_inv in H as ([] & g1 & E & H).
  unfold modify in E. injection E as <-.
  apply bind_Ok_inv in H as (ppcv & g1 & E & H).
  unfold gets in E. injection E as <- <-.
  apply bind_Ok_inv in H as ([] & g1 & E & H).
  unfold modify in E. injection E as <-.
  apply bind_Ok_inv in H as (pinnum & g2 & Scan & H).
  apply bind_Ok_inv in H as (det & g3 & E & H).
  unfold gets in E. injection E as <- <-.
  destruct (keeps_check_arch pin_state (fun _ _ => eq_refl) _ _ _ _ _ _ H)
    as [Fr _]. clear H.
  pose proof (load_inv_initial file ppc g0 L C T) as I0.
  change (@nil (list string)) with (pin_list []) in I0.
  pose proof (read_arch_scan_inv atof _ _ _ file [] 0 _ _ _ I0 Scan) as I.
  apply (load_inv_ext _ _ _ _ _ _ _ Fr) in I. clear I0 Scan Fr.
  cbn [app] in I. destruct I as [Ip Icl Ic Ics Icls Ill Ilv Ippc Nc].
  split; [exact Ippc|]. split.
  - intros p line Hp.
    assert (Il : In line file).
    { apply list_elem_of_lookup_2 in Hp. unfold pin_list in Hp.
      apply list_elem_of_filter in Hp as [_ Hp].
      now apply list_elem_of_In. }
    assert (Pl : is_pin_line line = true).
    { apply list_elem_of_lookup_2 in Hp. unfold pin_list in Hp.
      now apply list_elem_of_filter in Hp as [Hp _]. }
    destruct (Pc line Il Pl) as (c & Hc & Bc). exists c.
    split; [exact Hc|]. split; [lia|]. split.
    + rewrite (Ic p line Hp). now rewrite Hc.
    + intros j Hj. rewrite (Ilv j p Hj), Hp; [reflexivity|].
      apply lookup_lt_Some in Hp. exact Hp.
  - intros c Hc.
    destruct (lookup_lt_is_Some_2 (class_inf g') (Z.to_nat c)) as [cl Hcl];
      [lia|].
    destruct (Icls _ _ Hcl) as (N1 & N2 & N3 & N4 & N5).
    rewrite Z2Nat.id in N1, N2, N3, N4, N5 by lia.
    assert (Len : length (class_pins (pin_list file) 0 c)
                  = pins_of_class file c).
    { rewrite class_pins_length. apply pins_of_class_pin_list. }
    rewrite Len in N1, N3. rewrite <- N2, firstn_all in N3.
    assert (Pos : (0 < pins_of_class file c)%nat).
    { pose proof (count_of_lookup ppc c ltac:(lia)) as Lc.
      rewrite Forall_lookup in F. specialize (F _ _ Lc).
      rewrite C in F. lia. }
    exists (class_type cl). split.
    + rewrite Hcl. f_equal. destruct cl as [t n pl]. cbn in *. congruence.
    + split.
      * intros O. specialize (N5 O). rewrite N5 in Len. cbn in Len. lia.
      * intros line Il Cl. apply N4; [|exact Cl].
        apply list_elem_of_In. unfold pin_list.
        apply list_elem_of_filter. split.
        -- eapply line_class_pin; eauto.
        -- now apply list_elem_of_In.
Qed.

Lemma read_arch_pin_tables_witness :
  exists g',
    read_arch atof_decimal "k4.arch" arch_three_pins GLOBAL initial_globals
      = Ok tt g'
    /\ pins_per_clb g' = 3
    /\ class_inf g' !! 0%nat = Some (mk_class RECEIVER 2 [Some 1; Some 2])
    /\ class_inf g' !! 1%nat = Some (mk_class DRIVER 1 [Some 0]).
Proof.
  assert (H : exists g',
    read_arch atof_decimal "k4.arch" arch_three_pins GLOBAL initial_globals
      = Ok tt g') by (eexists; vm_compute; reflexivity).
  destruct H as [g' E]. exists g'. split; [exact E|].
  destruct (read_arch_pin_tables _ _ _ _ _ _ E) as (P & _ & C).
  split; [exact P|].
  assert (N : num_class g' = 2) by (revert E; vm_compute; now intros [= <-]).
  split.
  - destruct (C 0 ltac:(lia)) as (t & Ht & _ & K).
    change (Z.to_nat 0) with 0%nat in Ht. rewrite Ht.
    specialize (K (words "inpin class: 0 right")
                  ltac:(do 6 right; left; reflexivity) eq_refl).
    injection K as <-. reflexivity.
  - destruct (C 1 ltac:(lia)) as (t & Ht & _ & K).
    change (Z.to_nat 1) with 1%nat in Ht. rewrite Ht.
    specialize (K (words "outpin class: 1 top")
                  ltac:(do 4 right; left; reflexivity) eq_refl).
    injection K as <-. reflexivity.
Defined.

(** ** The class of a pin line *)

(** X13.  [get_class] returns exactly when the next two words are
    [class:] and a word from which [atoi] reads a number that is not
    negative; it returns that number and leaves the rest of the line.  A
    line that ends before [class:], or has another word there, is fatal
    with "expected class: keyword", and a line that ends after [class:]
    is fatal with "expected class number"; both messages follow the line
    number. *)
Theorem get_class_accepts g :
  (forall c g',
     get_class g = Ok c g' <->
     exists tok rest,
       strtok_rest g = "class:" :: tok :: rest
       /\ atoi tok = Some c /\ 0 <= c /\ g' = set_strtok_rest rest g)
  /\ (forall rest,
        (strtok_rest g = [] \/
         exists w, strtok_rest g = w :: rest /\ w <> "class:") ->
        get_class g =
          Exit (stdout g ++ [Err_in_get_class (linenum g);
                             Expected_class_keyword]))
  /\ (strtok_rest g = ["class:"] ->
      get_class g =
        Exit (stdout g ++ [Err_in_get_class (linenum g);
                           Expected_class_number])).
Proof.
  split; [|split].
  - intros c g'. split.
    + intros H.
      apply get_class_Ok_inv in H as (kw & tok & rest & R & K & A & P & ->).
      apply strcmp_eq_eq in K. subst kw. eauto 6.
    + intros (tok & rest & R & A & P & ->).
      unfold get_class. unfold_monad. rewrite R. cbn. rewrite A.
      destruct (c <? 0) eqn:E; [bool_to_Z; lia | reflexivity].
  - intros rest [R|(w & R & N)]; unfold get_class; unfold_monad; rewrite R.
    + cbn. now rewrite <- app_assoc.
    + destruct (strcmp_eq w "class:") eqn:E.
      * apply strcmp_eq_eq in E. contradiction.
      * cbn. now rewrite <- app_assoc.
  - intros R. unfold get_class. unfold_monad. rewrite R. cbn.
    now rewrite <- app_assoc.
Qed.

(** ** The distributions of a channel line *)

Lemma in_range_true v lo hi :
  in_range v lo hi = true -> Float.le v lo || Float.gt v hi = false.
Proof. unfold in_range. apply negb_true_iff. Qed.

(** X14.  A channel line that gives one of the four distributions with
    its values, each within its limits, loads exactly that distribution:
    [uniform] sets the peak and a dc level of 0, [delta] sets peak,
    position and dc level, [gaussian] and [pulse] set peak, width,
    position and dc level, and a field that the distribution does not
    have keeps its value.  The counter of the keyword is raised by one and
    nothing is printed.  Any further word on the line is fatal with
    "extra value". *)
Theorem get_chan_distributions atof (x : bool) n g toks c :
  isread g !! inp_num_of x = Some n -> 0 <= n -> in_int (n + 1) = true ->
  chan_values atof (chan_get (chan_of x) g) toks c ->
  (exists g',
     get_chan atof (chan_of x) (inp_num_of x) (set_strtok_rest toks g)
       = Ok tt g'
     /\ chan_get (chan_of x) g' = c
     /\ isread g' = <[inp_num_of x := n + 1]> (isread g)
     /\ stdout g' = stdout g)
  /\ forall extra more,
       get_chan atof (chan_of x) (inp_num_of x)
         (set_strtok_rest (toks ++ extra :: more) g)
       = Exit (stdout g ++ [Err_extra_value (name (inp_num_of x))
                              (linenum g)]).
Proof.
  intros N P B V.
  assert (L : (inp_num_of x < length (isread g))%nat)
    by (eapply lookup_lt_Some; exact N).
  assert (Z0 : (n + 1 =? 0) = false) by (apply Z.eqb_neq; lia).
  destruct V as [(tp & -> & Rp & ->)
                |[(tp & tx & td & -> & Rp & Rx & Rd & ->)
                 |(kw & t & tp & tw & tx & td & -> & K & Rp & Rw & Rx & Rd
                   & ->)]];
    apply in_range_true in Rp;
    try apply in_range_true in Rx; try apply in_range_true in Rd;
    try apply in_range_true in Rw;
    try (destruct K as [[-> ->]|[-> ->]]);
    (split; [|intros extra more]);
    destruct x; unfold chan_of, inp_num_of in *;
    unfold get_chan, get_float, incr_isread, isread_at, assign_chan, int;
    unfold_monad; float_cbn;
    try change (bool_decide (GAUSSIAN = GAUSSIAN)) with true;
    try change (bool_decide (PULSE = GAUSSIAN)) with false;
    try change (bool_decide (PULSE = PULSE)) with true;
    float_cbn; rewrite N, B; float_cbn;
    rewrite Rp; float_cbn;
    try (rewrite Rw; float_cbn);
    try (rewrite Rx; float_cbn; rewrite Rd; float_cbn);
    rewrite list_lookup_insert_eq by exact L;
    rewrite Z0; float_cbn;
    first [ reflexivity
          | eexists; split; [reflexivity|]; split; [reflexivity|];
            split; reflexivity ].
Qed.

Lemma get_chan_distributions_witness :
  exists g',
    get_chan atof_decimal chan_x_ptr 1
      (set_strtok_rest ["pulse"; "1"; "0.5"; "0.25"; "0"] initial_globals)
      = Ok tt g'
    /\ chan_x_dist g' =
         mk_chan PULSE (Float.flit false 1 0)
           (Float.to_float (atof_decimal "0.5"))
           (Float.to_float (atof_decimal "0.25")) (S754_zero false).
Proof.
  destruct (get_chan_distributions atof_decimal true 0 initial_globals
              ["pulse"; "1"; "0.5"; "0.25"; "0"]
              (mk_chan PULSE (Float.flit false 1 0)
                 (Float.to_float (atof_decimal "0.5"))
                 (Float.to_float (atof_decimal "0.25")) (S754_zero false)))
    as [(g' & E & C & _) _]; try reflexivity; try lia.
  - right. right.
    exists "pulse", PULSE, "1", "0.5", "0.25", "0".
    split; [reflexivity|]. split; [right; split; reflexivity|].
    repeat split; vm_compute; reflexivity.
  - exists g'. split; [exact E | exact C].
Defined.

(** ** The counters and scalars line by line *)

Lemma incr_isread_Ok_inv i g g' :
  incr_isread i g = Ok tt g' ->
  exists n, isread g !! i = Some n
    /\ g' = set_isread (<[i := n + 1]> (isread g)) g.
Proof.
  unfold incr_isread, isread_at. intros H.
  apply bind_Ok_inv in H as (n & g1 & E & H).
  destruct (isread g !! i) as [n'|] eqn:N; [|discriminate].
  injection E as <- <-.
  apply bind_Ok_inv in H as (n1 & g2 & E & H).
  apply int_Ok_inv in E as (_ & -> & ->).
  unfold modify in H. injection H as <-. eauto.
Qed.

Lemma get_int_Ok_inv i g v g' :
  get_int i g = Ok v g' ->
  exists tok n,
    strtok_rest g = [tok] /\ atoi tok = Some v /\ 0 < v
    /\ isread g !! i = Some n
    /\ g' = set_isread (<[i := n + 1]> (isread g)) (set_strtok_rest [] g).
Proof.
  unfold get_int. unfold bind at 1. unfold my_strtok.
  destruct (strtok_rest g) as [|tok rest] eqn:R; [discriminate|].
  destruct (atoi tok) as [z|] eqn:A; [|discriminate].
  destruct (z <=? 0) eqn:V; [discriminate|].
  unfold bind at 1. cbn [strtok_rest set_strtok_rest].
  destruct rest as [|x rest]; [|discriminate].
  intros H. apply bind_Ok_inv in H as ([] & g1 & E & H).
  unfold ret in H. injection H as -> ->.
  apply incr_isread_Ok_inv in E as (n & N & ->).
  exists tok, n. bool_to_Z. repeat split; try assumption; lia.
Qed.

Lemma get_float_Ok_inv atof i lo hi g v g' :
  get_float atof i lo hi g = Ok v g' ->
  exists tok rest,
    strtok_rest g = tok :: rest /\ v = Float.to_float (atof tok)
    /\ g' = set_strtok_rest rest g.
Proof.
  unfold get_float. unfold bind at 1. unfold my_strtok.
  destruct (strtok_rest g) as [|tok rest] eqn:R; [discriminate|].
  destruct (_ || _); [discriminate|].
  unfold ret. intros [= <- <-]. eauto.
Qed.

Lemma get_Fc_type_Ok_inv g t g' :
  get_Fc_type g = Ok t g' ->
  exists w,
    strtok_rest g = [w] /\ g' = set_strtok_rest [] g
    /\ ((w = "absolute" /\ t = ABSOLUTE)
        \/ (w = "fractional" /\ t = FRACTIONAL)).
Proof.
  unfold get_Fc_type. unfold_monad.
  destruct (strtok_rest g) as [|w rest] eqn:R; [discriminate|].
  destruct (strcmp_eq w "absolute") eqn:A;
    [|destruct (strcmp_eq w "fractional") eqn:F]; cbn;
    try discriminate; (destruct rest; [|discriminate]);
    intros [= <- <-]; exists w; (split; [reflexivity|]);
    (split; [reflexivity|]).
  - left. now apply strcmp_eq_eq in A.
  - right. now apply strcmp_eq_eq in F.
Qed.

Lemma get_switch_block_type_Ok_inv g t g' :
  get_switch_block_type g = Ok t g' ->
  exists w,
    strtok_rest g = [w] /\ g' = set_strtok_rest [] g
    /\ ((w = "subset" /\ t = SUBSET) \/ (w = "wilton" /\ t = WILTON)
        \/ (w = "universal" /\ t = UNIVERSAL)).
Proof.
  unfold get_switch_block_type. unfold_monad.
  destruct (strtok_rest g) as [|w rest] eqn:R; [discriminate|].
  destruct (strcmp_eq w "subset") eqn:A;
    [|destruct (strcmp_eq w "wilton") eqn:F;
      [|destruct (strcmp_eq w "universal") eqn:U]]; cbn;
    try discriminate; (destruct rest; [|discriminate]);
    intros [= <- <-]; exists w; (split; [reflexivity|]);
    (split; [reflexivity|]).
  - left. now apply strcmp_eq_eq in A.
  - right. left. now apply strcmp_eq_eq in F.
  - right. right. now apply strcmp_eq_eq in U.
Qed.

(** *** What the readers leave of another keyword *)

Lemma cs_incr_isread j k :
  j <> k -> keeps (counter_scalars j) (fun _ => True) (incr_isread k).
Proof.
  intros N g [] g' H. apply incr_isread_Ok_inv in H as (n & Hn & ->).
  split; [|exact I]. unfold counter_scalars. cbn [isread set_isread].
  rewrite list_lookup_insert_ne by congruence.
  now rewrite length_insert.
Qed.

Lemma cs_get_int j k :
  j <> k -> keeps (counter_scalars j) (fun _ => True) (get_int k).
Proof.
  intros N. unfold get_int.
  repeat first [ apply (cs_incr_isread j k N) | keeps_step ].
Qed.

Lemma cs_get_float atof j i lo hi :
  keeps (counter_scalars j) (fun _ => True) (get_float atof i lo hi).
Proof. unfold get_float. keeps_auto. Qed.

Lemma cs_get_Fc_type j :
  keeps (counter_scalars j) (fun _ => True) get_Fc_type.
Proof. unfold get_Fc_type. keeps_auto. Qed.

Lemma cs_get_switch_block_type j :
  keeps (counter_scalars j) (fun _ => True) get_switch_block_type.
Proof. unfold get_switch_block_type. keeps_auto. Qed.

Lemma cs_assign_chan j chan h :
  chan = chan_x_ptr \/ chan = chan_y_ptr ->
  keeps (counter_scalars j) (fun _ => True) (assign_chan chan h).
Proof.
  intros [-> | ->]; unfold assign_chan; apply keeps_modify; reflexivity.
Qed.

Lemma cs_get_chan atof j chan k :
  chan = chan_x_ptr \/ chan = chan_y_ptr -> j <> k ->
  keeps (counter_scalars j) (fun _ => True) (get_chan atof chan k).
Proof.
  intros C N. unfold get_chan.
  repeat first
    [ apply (cs_incr_isread j k N)
    | apply cs_get_float | apply (cs_assign_chan j _ _ C)
    | keeps_step ].
Qed.

Lemma cs_get_class j : keeps (counter_scalars j) (fun _ => True) get_class.
Proof. unfold get_class. keeps_auto. Qed.

Lemma cs_mark_pinloc j i pinnum :
  keeps (counter_scalars j) (fun _ => True) (mark_pinloc i pinnum).
Proof.
  intros g [] g'. unfold mark_pinloc.
  destruct (load (pinloc g) i) as [row|]; [|discriminate].
  destruct (store row pinnum 1) as [row'|]; [|discriminate].
  destruct (store (pinloc g) i row'); [|discriminate].
  intros [= <-]. split; [reflexivity | exact I].
Qed.

Lemma cs_match_position j ptr pinnum pos : forall i,
  keeps (counter_scalars j) (fun _ => True)
    (match_position ptr pinnum i pos).
Proof.
  induction pos as [|p pos IH]; intros i; cbn [match_position].
  - now apply keeps_ret.
  - destruct (strcmp_eq ptr p); [|apply IH].
    eapply keeps_bind; [apply cs_mark_pinloc|].
    intros a. now apply keeps_ret.
Qed.

Lemma cs_pin_locations j pinnum toks :
  keeps (counter_scalars j) (fun _ => True) (pin_locations pinnum toks).
Proof.
  induction toks as [|ptr toks IH]; cbn [pin_locations].
  - now apply keeps_ret.
  - repeat first [ apply cs_match_position | exact IH | keeps_step ].
Qed.

Lemma cs_get_pin j pinnum type :
  keeps (counter_scalars j) (fun _ => True) (get_pin pinnum type).
Proof.
  unfold get_pin.
  repeat first
    [ apply cs_get_class | apply cs_pin_locations | keeps_step ].
Qed.

(** *** A line of another keyword *)

Lemma cf_of_cs {A} j (P : A -> Prop) (m : M A) :
  keeps (counter_scalars j) P m -> keeps (counter_field j) P m.
Proof.
  intros H g a g' E. destruct (H _ _ _ E) as [F Pa]. split; [|exact Pa].
  exact (f_equal (fun x : option Z * nat * _ =>
                    (x.1.1, x.1.2, field_of j x.2)) F).
Qed.

(** The nine assignments of a scalar, for another keyword. *)
Ltac cf_assign j :=
  apply keeps_modify; intros ?; unfold counter_field, field, scalars;
  cbn [isread io_rat chan_width_io max_subblocks_per_block
       subblock_lut_size det_routing_arch set_io_rat set_chan_width_io
       set_max_subblocks_per_block set_subblock_lut_size
       set_det_routing_arch];
  do 13 (try (destruct j as [|j])); try congruence; reflexivity.

Ltac cf_branch j :=
  repeat first
    [ apply cf_of_cs;
      first [ apply cs_get_int; assumption
            | apply cs_get_float
            | apply cs_get_chan; [now left | assumption]
            | apply cs_get_chan; [now right | assumption]
            | apply cs_get_pin | apply cs_get_Fc_type
            | apply cs_get_switch_block_type
            | apply cs_incr_isread; assumption ]
    | keeps_step
    | cf_assign j ].

Lemma read_arch_line_cf_other atof line pinnum j :
  head_is j line = false ->
  keeps (counter_field j) (fun _ => True) (read_arch_line atof line pinnum).
Proof.
  intros N g a g' H. unfold read_arch_line in H.
  unfold bind at 1 in H. unfold my_fgets, modify in H.
  unfold bind at 1 in H. unfold my_strtok in H.
  cbn [strtok_rest set_strtok_rest] in H.
  destruct line as [|p rest].
  { unfold ret in H. injection H as <- <-. split; [reflexivity | exact I]. }
  cbn [head_is] in N.
  match type of H with
  | ?m ?s = _ =>
      assert (K : keeps (counter_field j) (fun _ => True) m);
      [|destruct (K _ _ _ H) as [K1 K2]; split; [exact K1 | exact I]]
  end.
  clear H. unfold assign_det.
  repeat match goal with
    | |- keeps _ _ (if strcmp_eq p (name ?k) then _ else _) =>
        let E := fresh "E" in
        destruct (strcmp_eq p (name k)) eqn:E;
        [assert (j <> k) by (intros ->; congruence); clear E|clear E]
    end.
  all: try (now apply keeps_ret).
  all: cf_branch j.
Qed.

(** *** A line of the keyword itself *)

Ltac line_start H :=
  unfold read_arch_line in H;
  unfold bind at 1 in H; unfold my_fgets, modify in H;
  unfold bind at 1 in H; unfold my_strtok in H;
  cbn [strtok_rest set_strtok_rest] in H;
  repeat match type of H with
    | context [strcmp_eq ?a (name ?k)] =>
        let b := eval vm_compute in (strcmp_eq a (name k)) in
        change (strcmp_eq a (name k)) with b in H
    end;
  cbv iota in H.

Ltac bumped N :=
  eexists; split; [exact N|];
  cbn [isread set_isread set_strtok_rest set_linenum set_io_rat
       set_chan_width_io set_max_subblocks_per_block
       set_subblock_lut_size set_det_routing_arch];
  split;
  [ apply list_lookup_insert_eq; eapply lookup_lt_Some; exact N
  | now rewrite length_insert ].

Ltac int_line H :=
  let v := fresh "v" in let g1 := fresh "g" in
  let E := fresh "E" in let tok := fresh "tok" in
  let n := fresh "n" in let R := fresh "R" in
  let A := fresh "A" in let V := fresh "V" in
  let N := fresh "N" in
  apply bind_Ok_inv in H as (v & g1 & E & H);
  apply get_int_Ok_inv in E as (tok & n & R & A & V & N & ->);
  unfold bind, modify, ret in H; injection H as <- <-;
  cbn in R; subst;
  split; [bumped N | intros _; split; [exact A | exact V]].

Ltac float_line H :=
  let v := fresh "v" in let g1 := fresh "g" in
  let E := fresh "E" in let tok := fresh "tok" in
  let r := fresh "r" in let R := fresh "R" in
  let n := fresh "n" in let N := fresh "N" in
  unfold assign_det in H;
  apply bind_Ok_inv in H as (v & g1 & E & H);
  apply get_float_Ok_inv in E as (tok & r & R & -> & ->);
  apply bind_Ok_inv in H as ([] & g1 & E & H);
  unfold modify in E; injection E as <-;
  apply bind_Ok_inv in H as ([] & g1 & E & H);
  apply incr_isread_Ok_inv in E as (n & N & ->);
  unfold ret in H; injection H as <- <-;
  cbn in R; subst;
  split; [bumped N | intros _; reflexivity].

Lemma read_arch_line_bumps atof line pinnum g pinnum' g' j :
  head_is j line = true -> (j < 13)%nat -> j <> 1%nat -> j <> 2%nat ->
  read_arch_line atof line pinnum g = Ok pinnum' g' ->
  (exists n, isread g !! j = Some n /\ isread g' !! j = Some (n + 1)
     /\ length (isread g') = length (isread g))
  /\ (field j g' <> V_none -> line_says atof line (field j g')).
Proof.
  intros Hd Lj N1 N2 H. destruct line as [|p rest]; [discriminate|].
  cbn [head_is] in Hd. apply strcmp_eq_eq in Hd. subst p.
  do 13 (try (destruct j as [|j])); try lia; try congruence;
    line_start H.
  - int_line H.
  - float_line H.
  - (* outpin *)
    apply bind_Ok_inv in H as ([] & g1 & E & H).
    destruct (cs_get_pin 4 _ _ _ _ _ E) as [F _]. clear E.
    apply bind_Ok_inv in H as (pn & g2 & E & H).
    apply int_Ok_inv in E as (_ & -> & ->).
    apply bind_Ok_inv in H as ([] & g3 & E & H).
    apply incr_isread_Ok_inv in E as (n & N & ->).
    unfold ret in H. injection H as <- <-.
    unfold counter_scalars in F. injection F as F1 F2 _.
    cbn [isread set_strtok_rest set_linenum] in F1, F2.
    split; [|intros C; now contradiction C].
    exists n. rewrite <- F1. split; [exact N|]. cbn [isread set_isread].
    split; [apply list_lookup_insert_eq; eapply lookup_lt_Some; exact N|].
    now rewrite length_insert.
  - (* inpin *)
    apply bind_Ok_inv in H as ([] & g1 & E & H).
    destruct (cs_get_pin 5 _ _ _ _ _ E) as [F _]. clear E.
    apply bind_Ok_inv in H as (pn & g2 & E & H).
    apply int_Ok_inv in E as (_ & -> & ->).
    apply bind_Ok_inv in H as ([] & g3 & E & H).
    apply incr_isread_Ok_inv in E as (n & N & ->).
    unfold ret in H. injection H as <- <-.
    unfold counter_scalars in F. injection F as F1 F2 _.
    cbn [isread set_strtok_rest set_linenum] in F1, F2.
    split; [|intros C; now contradiction C].
    exists n. rewrite <- F1. split; [exact N|]. cbn [isread set_isread].
    split; [apply list_lookup_insert_eq; eapply lookup_lt_Some; exact N|].
    now rewrite length_insert.
  - int_line H.
  - int_line H.
  - float_line H.
  - float_line H.
  - float_line H.
  - (* Fc_type *)
    unfold assign_det in H.
    apply bind_Ok_inv in H as (v & g1 & E & H).
    apply get_Fc_type_Ok_inv in E as (w & R & -> & W).
    apply bind_Ok_inv in H as ([] & g1 & E & H).
    unfold modify in E. injection E as <-.
    apply bind_Ok_inv in H as ([] & g1 & E & H).
    apply incr_isread_Ok_inv in E as (n & N & ->).
    unfold ret in H. injection H as <- <-.
    cbn in R. subst.
    split; [bumped N | intros _; exact W].
  - (* switch_block_type *)
    unfold assign_det in H.
    apply bind_Ok_inv in H as (v & g1 & E & H).
    apply get_switch_block_type_Ok_inv in E as (w & R & -> & W).
    apply bind_Ok_inv in H as ([] & g1 & E & H).
    unfold modify in E. injection E as <-.
    apply bind_Ok_inv in H as ([] & g1 & E & H).
    apply incr_isread_Ok_inv in E as (n & N & ->).
    unfold ret in H. injection H as <- <-.
    cbn in R. subst.
    split; [bumped N | intros _; exact W].
Qed.

(** *** A channel line *)

(** A channel line raises the counter of its keyword by one at most. *)
Lemma get_chan_counter atof chan k g g' :
  chan = chan_x_ptr \/ chan = chan_y_ptr ->
  get_chan atof chan k g = Ok tt g' ->
  exists n n',
    isread g !! k = Some n /\ isread g' !! k = Some n'
    /\ n <= n' <= n + 1 /\ length (isread g') = length (isread g).
Proof.
  intros C H. unfold get_chan in H.
  apply bind_Ok_inv in H as (ptr & g0 & E & H).
  assert (F0 : counter_scalars k g0 = counter_scalars k g).
  { unfold my_strtok in E.
    destruct (strtok_rest g); injection E as <- <-; reflexivity. }
  destruct ptr as [p|]; [|unfold_monad; discriminate].
  apply bind_Ok_inv in H as ([] & g1 & E1 & H).
  (* after the distribution: the counter is read, nothing is assigned *)
  assert (F1 : exists v, isread g1 !! k = Some v
                 /\ counter_scalars k g' = counter_scalars k g1).
  { apply bind_Ok_inv in H as (v & g2 & Ev & H).
    unfold isread_at in Ev.
    destruct (isread g1 !! k) as [v'|] eqn:V; [|discriminate].
    injection Ev as <- <-. exists v'. split; [reflexivity|].
    match type of H with
    | ?m _ = _ =>
        assert (K : keeps (counter_scalars k) (fun _ => True) m)
          by keeps_auto
    end.
    exact (proj1 (K _ _ _ H)). }
  destruct F1 as (v & V & F1). clear H.
  (* the distribution: the counter is raised once or not at all *)
  assert (D : counter_scalars k g1 = counter_scalars k g0
              \/ exists n, isread g0 !! k = Some n
                   /\ isread g1 !! k = Some (n + 1)
                   /\ length (isread g1) = length (isread g0)).
  { assert (Raise : forall (m : M unit) ga gb,
      keeps (counter_scalars k) (fun _ => True) m ->
      (incr_isread k ;; m) ga = Ok tt gb ->
      exists n, isread ga !! k = Some n /\ isread gb !! k = Some (n + 1)
        /\ length (isread gb) = length (isread ga)).
    { intros m ga gb K Hm.
      apply bind_Ok_inv in Hm as ([] & gc & Ei & Hm).
      apply incr_isread_Ok_inv in Ei as (n & N & ->).
      destruct (K _ _ _ Hm) as [Fk _]. unfold counter_scalars in Fk.
      pose proof (f_equal (fun x : option Z * nat * _ => x.1.1) Fk) as Fa.
      pose proof (f_equal (fun x : option Z * nat * _ => x.1.2) Fk) as Fb.
      cbn [fst snd isread set_isread] in Fa, Fb.
      exists n. split; [exact N|]. rewrite Fa, Fb, length_insert.
      split; [|reflexivity].
      apply list_lookup_insert_eq. eapply lookup_lt_Some; exact N. }
    destruct (strcmp_eq p "uniform").
    { right. eapply Raise; [|exact E1].
      repeat first [ apply cs_get_float
                   | apply (cs_assign_chan k _ _ C) | keeps_step ]. }
    destruct (strcmp_eq p "delta").
    { right. eapply Raise; [|exact E1].
      repeat first [ apply cs_get_float
                   | apply (cs_assign_chan k _ _ C) | keeps_step ]. }
    apply bind_Ok_inv in E1 as ([] & ga & Ea & E1).
    assert (Fa : counter_scalars k ga = counter_scalars k g0).
    { destruct (strcmp_eq p "gaussian").
      - exact (proj1 (cs_assign_chan k _ _ C _ _ _ Ea)).
      - unfold ret in Ea. now injection Ea as <-. }
    apply bind_Ok_inv in E1 as ([] & gb & Eb & E1).
    assert (Fb : counter_scalars k gb = counter_scalars k ga).
    { destruct (strcmp_eq p "pulse").
      - exact (proj1 (cs_assign_chan k _ _ C _ _ _ Eb)).
      - unfold ret in Eb. now injection Eb as <-. }
    apply bind_Ok_inv in E1 as (t & gc & Ec & E1).
    unfold gets in Ec. injection Ec as <- <-.
    destruct (_ || _).
    - right.
      cut (exists n, isread gb !! k = Some n
             /\ isread g1 !! k = Some (n + 1)
             /\ length (isread g1) = length (isread gb)).
      2:{ eapply Raise; [|exact E1].
          repeat first [ apply cs_get_float
                       | apply (cs_assign_chan k _ _ C) | keeps_step ]. }
      intros (n & N & N' & Ln).
      unfold counter_scalars in Fa, Fb.
      pose proof (f_equal (fun x : option Z * nat * _ => x.1.1) Fa) as A1.
      pose proof (f_equal (fun x : option Z * nat * _ => x.1.2) Fa) as A2.
      pose proof (f_equal (fun x : option Z * nat * _ => x.1.1) Fb) as B1.
      pose proof (f_equal (fun x : option Z * nat * _ => x.1.2) Fb) as B2.
      cbn [fst snd] in A1, A2, B1, B2.
      exists n. split; [congruence|]. split; [exact N' | congruence].
    - left. unfold ret in E1. injection E1 as <-. congruence. }
  unfold counter_scalars in F0, F1.
  pose proof (f_equal (fun x : option Z * nat * _ => x.1.1) F0) as A1.
  pose proof (f_equal (fun x : option Z * nat * _ => x.1.2) F0) as A2.
  pose proof (f_equal (fun x : option Z * nat * _ => x.1.1) F1) as B1.
  pose proof (f_equal (fun x : option Z * nat * _ => x.1.2) F1) as B2.
  cbn [fst snd] in A1, A2, B1, B2.
  destruct D as [D|(n & N & N' & Ln)].
  - unfold counter_scalars in D.
    pose proof (f_equal (fun x : option Z * nat * _ => x.1.1) D) as D1.
    pose proof (f_equal (fun x : option Z * nat * _ => x.1.2) D) as D2.
    cbn [fst snd] in D1, D2.
    exists v, v. split; [congruence|]. split; [congruence|].
    split; [lia | congruence].
  - exists n, (n + 1). split; [congruence|]. split; [congruence|].
    split; [lia | congruence].
Qed.

Lemma lines_with_app j a b :
  lines_with j (a ++ b) = lines_with j a ++ lines_with j b.
Proof. apply filter_app. Qed.

Lemma lines_with_single j line :
  lines_with j [line] = if head_is j line then [line] else [].
Proof.
  unfold lines_with. rewrite filter_cons, filter_nil.
  destruct (head_is j line).
  - now rewrite decide_True.
  - now rewrite decide_False.
Qed.

Lemma read_arch_line_chan atof line pinnum g pinnum' g' j :
  j = 1%nat \/ j = 2%nat -> head_is j line = true ->
  read_arch_line atof line pinnum g = Ok pinnum' g' ->
  exists n n',
    isread g !! j = Some n /\ isread g' !! j = Some n'
    /\ n <= n' <= n + 1 /\ length (isread g') = length (isread g).
Proof.
  intros J Hd H. destruct line as [|p rest]; [discriminate|].
  cbn [head_is] in Hd. apply strcmp_eq_eq in Hd. subst p.
  destruct J as [-> | ->]; line_start H;
    apply bind_Ok_inv in H as ([] & g1 & E & H);
    unfold ret in H; injection H as <- <-;
    apply get_chan_counter in E; auto.
Qed.

Lemma read_arch_scan_chan atof j rest :
  j = 1%nat \/ j = 2%nat ->
  forall done pinnum g pinnum' g',
  chan_inv j done g ->
  read_arch_scan atof rest pinnum g = Ok pinnum' g' ->
  chan_inv j (done ++ rest) g'.
Proof.
  intros J.
  induction rest as [|line rest IH]; intros done pinnum g pinnum' g' I H;
    cbn [read_arch_scan] in H.
  - unfold ret in H. injection H as <- <-. now rewrite app_nil_r.
  - apply bind_Ok_inv in H as (pinnum1 & g1 & E1 & H).
    replace (done ++ line :: rest) with ((done ++ [line]) ++ rest)
      by (now rewrite <- app_assoc).
    apply (IH (done ++ [line]) pinnum1 g1 pinnum' g'); [|exact H].
    destruct I as (n & C & B & L). unfold chan_inv.
    rewrite lines_with_app, lines_with_single.
    destruct (head_is j line) eqn:Hd.
    + destruct (read_arch_line_chan atof line pinnum g pinnum1 g1 j
                  J Hd E1) as (m & m' & Hm & Hm' & Bm & Lm).
      rewrite C in Hm. injection Hm as <-.
      exists m'. split; [exact Hm'|]. rewrite length_app. cbn [length].
      split; [lia | congruence].
    + rewrite app_nil_r.
      destruct (read_arch_line_cf_other atof line pinnum j Hd _ _ _ E1)
        as [F _].
      unfold counter_field in F.
      pose proof (f_equal (fun x : option Z * nat * _ => x.1.1) F) as F1.
      pose proof (f_equal (fun x : option Z * nat * _ => x.1.2) F) as F2.
      cbn [fst snd] in F1, F2.
      exists n. split; [congruence|]. split; [exact B | congruence].
Qed.

(** *** The scan and the completeness check together *)

Lemma read_arch_scan_scalar atof j rest :
  (j < 13)%nat -> j <> 1%nat -> j <> 2%nat ->
  forall done pinnum g pinnum' g',
  scalar_inv atof j done g ->
  read_arch_scan atof rest pinnum g = Ok pinnum' g' ->
  scalar_inv atof j (done ++ rest) g'.
Proof.
  intros Lj N1 N2.
  induction rest as [|line rest IH]; intros done pinnum g pinnum' g' I H;
    cbn [read_arch_scan] in H.
  - unfold ret in H. injection H as <- <-. now rewrite app_nil_r.
  - apply bind_Ok_inv in H as (pinnum1 & g1 & E1 & H).
    replace (done ++ line :: rest) with ((done ++ [line]) ++ rest)
      by (now rewrite <- app_assoc).
    apply (IH (done ++ [line]) pinnum1 g1 pinnum' g'); [|exact H].
    destruct I as (C & L & S). unfold scalar_inv.
    rewrite lines_with_app, lines_with_single.
    destruct (head_is j line) eqn:Hd.
    + destruct (read_arch_line_bumps atof line pinnum g pinnum1 g1 j
                  Hd Lj N1 N2 E1) as [(n & Hn & Hn' & Hl) Says].
      rewrite C in Hn. injection Hn as <-.
      split; [rewrite Hn', length_app; cbn [length]; f_equal; lia|].
      split; [congruence|].
      intros l Hl'. rewrite last_snoc in Hl'. injection Hl' as <-.
      exact Says.
    + rewrite app_nil_r.
      destruct (read_arch_line_cf_other atof line pinnum j Hd _ _ _ E1)
        as [F _].
      unfold counter_field in F. injection F as F1 F2 F3.
      rewrite F1, F2, F3. auto.
Qed.


(** A keyword that has a global is neither a channel nor a pin keyword. *)
Lemma field_keyword i g :
  field i g <> V_none ->
  (i < 13)%nat /\ i <> 1%nat /\ i <> 2%nat /\ is_pin_keyword i = false.
Proof.
  unfold field, field_of, scalars.
  do 13 (try (destruct i as [|i])); intros H;
    try (now contradiction H);
    repeat split; try lia; try discriminate; reflexivity.
Qed.

(** X15.  When [read_arch] succeeds, every mandatory keyword that loads a
    scalar global (all but the channel and pin keywords) stands on
    exactly one line of the file, and the global holds what that line
    says: the positive integer of its only word, the float value of its
    first word, or the routing option its only word names.  The file also
    has at least one line of each of [chan_width_x], [chan_width_y],
    [outpin] and [inpin]. *)
Theorem read_arch_scalar_lines atof arch_file file route_type g g' :
  read_arch atof arch_file file route_type g = Ok tt g' ->
  (forall i, In i (mandatory route_type) -> field i g' <> V_none ->
     exists line,
       lines_with i file = [line] /\ line_says atof line (field i g'))
  /\ (forall i, In i [1; 2; 4; 5]%nat -> lines_with i file <> []).
Proof.
  intros H. unfold read_arch in H.
  apply bind_Ok_inv in H as ([] & g1 & _ & H).
  apply bind_Ok_inv in H as ([] & g2 & E & H).
  unfold modify in E. injection E as <-.
  apply bind_Ok_inv in H as ([] & g2 & E & H).
  unfold modify in E. injection E as <-.
  apply bind_Ok_inv in H as (ppcv & g2 & E & H).
  unfold gets in E. injection E as <- <-.
  apply bind_Ok_inv in H as ([] & g2 & E & H).
  unfold modify in E. injection E as <-.
  apply bind_Ok_inv in H as (pinnum & g3 & Scan & H).
  apply bind_Ok_inv in H as (det & g4 & E & H).
  unfold gets in E. injection E as <- <-.
  match type of Scan with
  | read_arch_scan _ _ _ ?s = _ => remember s as g2 eqn:Eg2
  end.
  assert (Inv : forall j, (j < 13)%nat -> j <> 1%nat -> j <> 2%nat ->
                scalar_inv atof j file g3).
  { intros j Lj N1 N2.
    apply (read_arch_scan_scalar atof j file Lj N1 N2 [] 0 g2 pinnum g3);
      [|exact Scan].
    subst g2.
    split; [|split].
    - cbn [isread set_pinloc set_isread].
      change (lines_with j []) with (@nil (list string)).
      do 13 (try (destruct j as [|j]; [reflexivity|])). lia.
    - reflexivity.
    - intros line Hl. discriminate. }
  destruct (Inv 0%nat) as (_ & Len & _); try lia.
  rewrite (check_arch_completeness _ _ _ _ Len) in H. cbv zeta in H.
  destruct (completeness_violations arch_file route_type (isread g3))
    as [|m vs] eqn:V; [|discriminate].
  unfold completeness_violations in V.
  pose proof (proj1 (flat_map_nil _ _) V) as Vi. clear V.
  assert (Fr : (isread g', scalars g') = (isread g3, scalars g3)).
  { destruct (decide (route_type = DETAILED)).
    - exact (proj1 (keeps_check_detailed (fun g => (isread g, scalars g))
                      (fun _ _ => eq_refl) _ _ _ _ H)).
    - now injection H as <-. }
  pose proof (f_equal snd Fr) as Fs. cbn [snd] in Fs. clear H Fr.
  assert (Cnt : forall j, (j < 13)%nat -> j <> 1%nat -> j <> 2%nat ->
                In j (mandatory route_type) ->
                if is_pin_keyword j
                then (1 <= length (lines_with j file))%nat
                else length (lines_with j file) = 1%nat).
  { intros j Lj N1 N2 Mj. destruct (Inv j Lj N1 N2) as (C & _ & _).
    specialize (Vi j Mj). cbv beta in Vi.
    rewrite (nth_lookup_Some _ _ 0 _ C) in Vi.
    apply field_violations_nil in Vi; [|lia].
    destruct (is_pin_keyword j); lia. }
  assert (Chan : forall j, j = 1%nat \/ j = 2%nat ->
                 lines_with j file <> []).
  { intros j J.
    assert (I0 : chan_inv j [] g2).
    { exists 0. subst g2. cbn [isread set_pinloc set_isread].
      change (lines_with j []) with (@nil (list string)). cbn [length].
      split; [destruct J as [-> | ->]; reflexivity|].
      split; [lia | reflexivity]. }
    destruct (read_arch_scan_chan atof j file J [] 0 g2 pinnum g3 I0 Scan)
      as (n & C & B & _).
    assert (Mj : In j (mandatory route_type))
      by (destruct J as [-> | ->], route_type; cbn; tauto).
    specialize (Vi j Mj). cbv beta in Vi.
    rewrite (nth_lookup_Some _ _ 0 _ C) in Vi.
    apply field_violations_nil in Vi; [|lia].
    assert (Np : is_pin_keyword j = false)
      by (destruct J as [-> | ->]; reflexivity).
    rewrite Np in Vi. cbn [app] in B.
    intros E. rewrite E in B. cbn [length] in B. lia. }
  split.
  - intros i Mi Fi'.
    destruct (field_keyword i g' Fi') as (Li & N1 & N2 & Np).
    specialize (Cnt i Li N1 N2 Mi). rewrite Np in Cnt.
    destruct (lines_with i file) as [|line [|l2 ls]] eqn:Lw;
      try discriminate.
    exists line. split; [reflexivity|].
    destruct (Inv i Li N1 N2) as (_ & _ & S).
    rewrite Lw in S.
    assert (Fe : field i g' = field i g3) by (unfold field; now rewrite Fs).
    rewrite Fe in *. now apply S.
  - intros i [<-|[<-|[<-|[<-|[]]]]].
    + apply Chan. now left.
    + apply Chan. now right.
    + specialize (Cnt 4%nat ltac:(lia) ltac:(lia) ltac:(lia)
                    ltac:(destruct route_type; cbn; tauto)).
      cbn in Cnt. intros E. rewrite E in Cnt. cbn in Cnt. lia.
    + specialize (Cnt 5%nat ltac:(lia) ltac:(lia) ltac:(lia)
                    ltac:(destruct route_type; cbn; tauto)).
      cbn in Cnt. intros E. rewrite E in Cnt. cbn in Cnt. lia.
Qed.

Lemma read_arch_scalar_lines_witness :
  exists g',
    read_arch atof_decimal "k4.arch" arch_three_pins GLOBAL initial_globals
      = Ok tt g'
    /\ lines_with 0 arch_three_pins = [["io_rat"; "2"]]
    /\ io_rat g' = 2.
Proof.
  assert (H : exists g',
    read_arch atof_decimal "k4.arch" arch_three_pins GLOBAL initial_globals
      = Ok tt g') by (eexists; vm_compute; reflexivity).
  destruct H as [g' E]. exists g'. split; [exact E|].
  destruct (read_arch_scalar_lines _ _ _ _ _ _ E) as (S & _).
  destruct (S 0%nat ltac:(now left) ltac:(discriminate))
    as (line & Lw & Says).
  split; [reflexivity|].
  vm_compute in Lw. injection Lw as <-.
  unfold line_says, field, field_of, scalars in Says.
  destruct Says as [A _].
  assert (A2 : atoi "2" = Some 2) by (vm_compute; reflexivity).
  rewrite A2 in A. now injection A as <-.
Defined.
